(** * Coding-contract solvers: a shallow embedding and its properties

    The solvers of [codingContractTypesMetadata] are embedded as Rocq
    functions.  JS numbers that hold integers are modelled as [Z] (exact
    below 2^53), [NaN] as [None], strings as [string] (code units below
    256), arrays as lists with stdpp's lookup and insert. *)

From Stdlib Require Import ZArith Lia String Ascii List.
From stdpp Require Import base decidable option list strings pretty numbers gmap.

Local Open Scope string_scope.
Local Open Scope Z_scope.

(** ** Outcome of running a piece of solver code *)

Inductive result (A : Type) : Type :=
  | Ret (a : A)      (* normal completion with a value *)
  | Throw            (* an exception (TypeError, RangeError) escapes *)
  | OutOfFuel.       (* the loop bound of the model was reached *)
Arguments Ret {A} a.
Arguments Throw {A}.
Arguments OutOfFuel {A}.

Definition rbind {A B} (r : result A) (f : A → result B) : result B :=
  match r with
  | Ret a => f a
  | Throw => Throw
  | OutOfFuel => OutOfFuel
  end.

Notation "x ←ᵣ r ; k" := (rbind r (λ x, k))
  (at level 20, r at level 100, k at level 200, only parsing, right associativity).

(** ** JS string primitives *)

Module JS.

(** [s.charCodeAt(0)] of a one-character string. *)
Definition code (c : ascii) : Z := Z.of_N (N_of_ascii c).

(** The double-quote character. *)
Definition dquote : ascii := Eval cbv in ascii_of_nat 34.

(** The class [\s] of regular expressions, which is also the white space
    that [parseInt] skips, among the code units below 256. *)
Definition is_white (c : ascii) : bool :=
  let n := code c in
  ((9 <=? n) && (n <=? 13)) || (n =? 32) || (n =? 160).

(** [s.replace(/\s/g, "")] *)
Fixpoint remove_white (s : string) : string :=
  match s with
  | EmptyString => EmptyString
  | String c r => if is_white c then remove_white r else String c (remove_white r)
  end.

Definition startsWith (c : ascii) (s : string) : bool :=
  match s with
  | String d _ => bool_decide (c = d)
  | EmptyString => false
  end.

Fixpoint endsWith (c : ascii) (s : string) : bool :=
  match s with
  | EmptyString => false
  | String d EmptyString => bool_decide (c = d)
  | String _ r => endsWith c r
  end.

(** [s.slice(1)] *)
Definition slice1 (s : string) : string :=
  match s with
  | String _ r => r
  | EmptyString => EmptyString
  end.

(** [s.slice(0, -1)] *)
Fixpoint slice_init (s : string) : string :=
  match s with
  | EmptyString => EmptyString
  | String _ EmptyString => EmptyString
  | String c r => String c (slice_init r)
  end.

(** [s.split(sep)] for a one-character separator: the pieces between the
    separators, never the empty list ([""] for the empty string). *)
Fixpoint split (sep : ascii) (s : string) : list string :=
  match s with
  | EmptyString => [EmptyString]
  | String c r =>
      if bool_decide (c = sep) then EmptyString :: split sep r
      else match split sep r with
           | piece :: pieces => String c piece :: pieces
           | [] => [String c EmptyString]
           end
  end.

(** [c.repeat(n)] for a one-character string [c]; [n <= 0] gives [""]
    (the callers never pass a negative count). *)
Fixpoint repeat_char (c : ascii) (n : nat) : string :=
  match n with
  | O => EmptyString
  | S m => String c (repeat_char c m)
  end.

(** *** parseInt *)

Fixpoint trim_start (s : string) : string :=
  match s with
  | String c r => if is_white c then trim_start r else s
  | EmptyString => EmptyString
  end.

Definition digit_val (c : ascii) : option Z :=
  let n := code c in
  if (48 <=? n) && (n <=? 57) then Some (n - 48)
  else if (97 <=? n) && (n <=? 122) then Some (n - 87)
  else if (65 <=? n) && (n <=? 90) then Some (n - 55)
  else None.

Definition radix_digit (R : Z) (c : ascii) : option Z :=
  match digit_val c with
  | Some d => if d <? R then Some d else None
  | None => None
  end.

(** Value of the longest prefix of radix-[R] digits of [s], continuing [acc]. *)
Fixpoint digits_value (R : Z) (acc : Z) (s : string) : Z :=
  match s with
  | String c r =>
      match radix_digit R c with
      | Some d => digits_value R (acc * R + d) r
      | None => acc
      end
  | EmptyString => acc
  end.

(** [None] is [NaN]: the string does not start with a digit. *)
Definition parse_digits (R : Z) (s : string) : option Z :=
  match s with
  | String c r =>
      match radix_digit R c with
      | Some d => Some (digits_value R d r)
      | None => None
      end
  | EmptyString => None
  end.

(** A string "starts with a decimal digit". *)
Definition starts_with_digit (s : string) : Prop :=
  match s with
  | String c _ => is_Some (JS.radix_digit 10 c)
  | EmptyString => False
  end.


Definition strip_sign (s : string) : Z * string :=
  match s with
  | String "-"%char r => (-1, r)
  | String "+"%char r => (1, r)
  | _ => (1, s)
  end.

(** [parseInt(s, 10)] *)
Definition parseInt10 (s : string) : option Z :=
  let '(sign, s1) := strip_sign (trim_start s) in
  (λ n, sign * n) <$> parse_digits 10 s1.

(** [parseInt(s)]: radix 10 unless the text (after white space and sign)
    starts with [0x] or [0X], which selects radix 16. *)
Definition hex_prefix (s : string) : option string :=
  match s with
  | String c (String x r) =>
      if bool_decide (c = "0"%char) && bool_decide (x = "x"%char ∨ x = "X"%char)
      then Some r else None
  | _ => None
  end.

Definition parseInt (s : string) : option Z :=
  let '(sign, s1) := strip_sign (trim_start s) in
  match hex_prefix s1 with
  | Some r => (λ n, sign * n) <$> parse_digits 16 r
  | None => (λ n, sign * n) <$> parse_digits 10 s1
  end.

(** [String(n)] / [n.toString()] of an integer (below 10^21 in magnitude). *)
Definition toString (n : Z) : string := pretty n.

(** *** BigInt(s) on a string

    [None] is the SyntaxError of a string that is not an integer literal.
    White space around the literal is trimmed; the empty literal is [0n];
    a sign is allowed before decimal digits only. *)
Fixpoint all_digits (R : Z) (s : string) : bool :=
  match s with
  | EmptyString => true
  | String c r => bool_decide (is_Some (radix_digit R c)) && all_digits R r
  end.

Fixpoint trim_end (s : string) : string :=
  match s with
  | EmptyString => EmptyString
  | String c r =>
      match trim_end r with
      | EmptyString => if is_white c then EmptyString else String c EmptyString
      | t => String c t
      end
  end.

Definition literal (R : Z) (s : string) : option Z :=
  match s with
  | EmptyString => None
  | _ => if all_digits R s then Some (digits_value R 0 s) else None
  end.

Definition radix_prefix (s : string) : option (Z * string) :=
  match s with
  | String c (String x r) =>
      if bool_decide (c = "0"%char) then
        if bool_decide (x = "x"%char ∨ x = "X"%char) then Some (16, r)
        else if bool_decide (x = "o"%char ∨ x = "O"%char) then Some (8, r)
        else if bool_decide (x = "b"%char ∨ x = "B"%char) then Some (2, r)
        else None
      else None
  | _ => None
  end.

Definition BigInt (s : string) : option Z :=
  let t := trim_end (trim_start s) in
  match t with
  | EmptyString => Some 0
  | String c r =>
      if bool_decide (c = "-"%char) then Z.opp <$> literal 10 r
      else if bool_decide (c = "+"%char) then literal 10 r
      else match radix_prefix t with
           | Some (R, digits) => literal R digits
           | None => literal 10 t
           end
  end.

End JS.


(** ** Helper functions of the contract implementations *)

Definition removeBracketsFromArrayString (str : string) : string :=
  let strCpy := str in
  let strCpy := if JS.startsWith "[" strCpy then JS.slice1 strCpy else strCpy in
  let strCpy := if JS.endsWith "]" strCpy then JS.slice_init strCpy else strCpy in
  strCpy.

Definition removeQuotesFromString (str : string) : string :=
  let strCpy := str in
  let strCpy :=
    if JS.startsWith JS.dquote strCpy || JS.startsWith "'" strCpy
    then JS.slice1 strCpy else strCpy in
  let strCpy :=
    if JS.endsWith JS.dquote strCpy || JS.endsWith "'" strCpy
    then JS.slice_init strCpy else strCpy in
  strCpy.

(** Modelled from the spec: [filterTruthy] of utils/helpers/ArrayHelpers is
    not among the sources; its caller documents it as "Don't include any
    empty-string entries in the parsed array", and on strings the only
    falsy value is the empty one. *)
Definition filterTruthy (l : list string) : list string :=
  filter (λ s, s ≠ EmptyString) l.

(** ** Find Largest Prime Factor *)

Module LargestPrimeFactor.

(** [while (n % fac === 0) n = Math.round(n / fac)]: the division is exact
    whenever it is executed. *)
Fixpoint divide_out (fuel : nat) (n fac : Z) : result Z :=
  match fuel with
  | O => OutOfFuel
  | S f => if Z.rem n fac =? 0 then divide_out f (n / fac) fac else Ret n
  end.

(** [while (n > (fac - 1) * (fac - 1)) { ...; ++fac }], returning [(n, fac)]. *)
Fixpoint factor_loop (fuel : nat) (n fac : Z) : result (Z * Z) :=
  match fuel with
  | O => OutOfFuel
  | S f =>
      if (fac - 1) * (fac - 1) <? n then
        n' ←ᵣ divide_out (S (Z.to_nat n)) n fac;
        factor_loop f n' (fac + 1)
      else Ret (n, fac)
  end.

(** The number the solver compares the answer with. *)
Definition largest (data : Z) : result Z :=
  p ←ᵣ factor_loop (S (Z.to_nat data)) data 2;
  let '(n, fac) := p in
  Ret (if n =? 1 then fac - 1 else n).

Definition solver (data : Z) (ans : string) : result bool :=
  v ←ᵣ largest data;
  Ret (bool_decide (Some v = JS.parseInt10 ans)).

(** What [generate] returns: [getRandomIntInclusive(500, 1e9)]. *)
Definition generated (data : Z) : Prop := 500 ≤ data ≤ 1000000000.

End LargestPrimeFactor.

(** ** Algorithmic Stock Trader I *)

Module StockI.

(** One iteration of the loop, on [(maxCur, maxSoFar)]. *)
Definition step (data : list Z) (st : Z * Z) (i : nat) : Z * Z :=
  let '(maxCur, maxSoFar) := st in
  let maxCur := Z.max 0 (maxCur + (data !!! i - data !!! (i - 1)%nat)) in
  (maxCur, Z.max maxCur maxSoFar).

(** [for (let i = 1; i < data.length; ++i)] *)
Definition maxProfit (data : list Z) : Z :=
  snd (foldl (step data) (0, 0) (seq 1 (length data - 1))).

Definition solver (data : list Z) (ans : string) : bool :=
  bool_decide (JS.toString (maxProfit data) = ans).

(** What [generate] returns: 3..50 prices in 1..200. *)
Definition generated (data : list Z) : Prop :=
  (3 ≤ length data ≤ 50)%nat ∧ Forall (λ p, 1 ≤ p ≤ 200) data.

End StockI.

(** ** Algorithmic Stock Trader IV *)

Module StockIV.

Definition MIN_SAFE_INTEGER : Z := - (2 ^ 53 - 1).

(** The branch for [k > len / 2]:
    [for (let i = 1; i < len; ++i) res += Math.max(prices[i] - prices[i - 1], 0)] *)
Definition greedy (prices : list Z) : Z :=
  foldl (λ res i, res + Z.max (prices !!! i - prices !!! (i - 1)%nat) 0)
        0 (seq 1 (length prices - 1)).

(** Body of the loop on [j], on the pair of arrays [(hold, rele)];
    [1 <= j <= k] keeps every index inside the arrays of length [k + 1]. *)
Definition sweep_step (cur : Z) (st : list Z * list Z) (j : nat) : list Z * list Z :=
  let '(hold, rele) := st in
  let rele := <[j := Z.max (rele !!! j) (hold !!! j + cur)]> rele in
  let hold := <[j := Z.max (hold !!! j) (rele !!! (j - 1)%nat - cur)]> hold in
  (hold, rele).

(** [for (let j = k; j > 0; --j)] *)
Definition sweep (k : nat) (st : list Z * list Z) (cur : Z) : list Z * list Z :=
  foldl (sweep_step cur) st (rev (seq 1 k)).

(** The hold/release dynamic program; the result is [rele[k]]. *)
Definition dp (k : nat) (prices : list Z) : Z :=
  let hold := replicate (S k) MIN_SAFE_INTEGER in
  let rele := replicate (S k) 0 in
  snd (foldl (sweep k) (hold, rele) prices) !!! k.



(** The number the answer is compared with, branch by branch. *)
Definition reference (data : nat * list Z) : Z :=
  let k := data.1 in
  let prices := data.2 in
  if bool_decide (length prices < 2)%nat then 0
  else if bool_decide (length prices < 2 * k)%nat then greedy prices
  else dp k prices.

(** What [generate] returns: [k] in 2..10 and 3..50 prices in 1..200. *)
Definition generated (data : nat * list Z) : Prop :=
  (2 ≤ data.1 ≤ 10)%nat ∧ (3 ≤ length data.2 ≤ 50)%nat ∧
  Forall (λ p, 1 ≤ p ≤ 200) data.2.

(** The code after the two early returns. *)
Definition general_branch (k : nat) (prices : list Z) (ans : string) : bool :=
  bool_decide (JS.parseInt ans = Some (dp k prices)).

(** [k] is the number of transactions, a natural number; [k > len / 2] is
    a comparison of reals, that is [2 * k > len]. *)
Definition solver (data : nat * list Z) (ans : string) : bool :=
  let k := data.1 in
  let prices := data.2 in
  let len := length prices in
  if bool_decide (len < 2)%nat then bool_decide (JS.parseInt ans = Some 0)
  else if bool_decide (len < 2 * k)%nat then
    bool_decide (JS.parseInt ans = Some (greedy prices))
  else general_branch k prices ans.

End StockIV.

(** ** Square Root *)

Module SquareRoot.

Definition state : Type := string * string.

(** [None]: one of the two [BigInt] conversions throws a SyntaxError. *)
Definition getData (st : state) : option Z :=
  ans ← JS.BigInt st.1;
  off ← JS.BigInt st.2;
  Some (ans * ans + off).

Definition solver (st : state) (ans : string) : bool :=
  bool_decide (st.1 = ans).

(** What [generate] returns: the decimal texts of a root in
    [2^332, 2^333) and of an offset in [1 - root, root]. *)
Definition generated (st : state) : Prop :=
  ∃ root offset,
    2 ^ 332 ≤ root < 2 ^ 333 ∧ 1 - root ≤ offset ≤ root ∧
    st = (JS.toString root, JS.toString offset).

End SquareRoot.

(** ** Compression I: RLE Compression *)

Module RLE.

(** The decoding loop [for (let i = 0; i + 1 < ans.length; i += 2)] on the
    part of [ans] from index [i]; [None] is the early [return false] at a
    length character that is not a digit. *)
Fixpoint decode (ans : string) (ans_plain : string) : option string :=
  match ans with
  | String d (String c rest) =>
      let length := JS.code d - 48 in
      if (length <? 0) || (9 <? length) then None
      else decode rest (ans_plain +:+ JS.repeat_char c (Z.to_nat length))
  | _ => Some ans_plain
  end.

(** [while (i + run_length < plain.length && plain[i + run_length] === plain[i])
    ++run_length], where [c] is [plain[i]] and [rest] is the part of [plain]
    from index [i + run_length]; returns the final [run_length] and the part
    of [plain] that follows the run. *)
Fixpoint scan_run (c : ascii) (rest : string) (run_length : Z) : Z * string :=
  match rest with
  | String d rest' =>
      if bool_decide (d = c) then scan_run c rest' (run_length + 1)
      else (run_length, rest)
  | EmptyString => (run_length, rest)
  end.

(** [while (run_length > 0) { run_length -= 9; length += 2; }] *)
Fixpoint chunk_loop (fuel : nat) (run_length length : Z) : result Z :=
  match fuel with
  | O => OutOfFuel
  | S f =>
      if 0 <? run_length then chunk_loop f (run_length - 9) (length + 2)
      else Ret length
  end.

(** [for (let i = 0; i < plain.length; ) { ...; i += run_length; ... }] on
    the part of [plain] from index [i]. *)
Fixpoint length_loop (fuel : nat) (plain : string) (length : Z) : result Z :=
  match fuel with
  | O => OutOfFuel
  | S f =>
      match plain with
      | EmptyString => Ret length
      | String c rest =>
          let '(run_length, rest') := scan_run c rest 1 in
          length' ←ᵣ chunk_loop (S (Z.to_nat run_length)) run_length length;
          length_loop f rest' length'
      end
  end.

Definition min_length (plain : string) : result Z :=
  length_loop (S (String.length plain)) plain 0.

Definition solver (plain ans : string) : result bool :=
  if bool_decide (String.length ans mod 2 ≠ 0)%nat then Ret false
  else
    match decode ans EmptyString with
    | None => Ret false
    | Some ans_plain =>
        if bool_decide (ans_plain ≠ plain) then Ret false
        else
          length ←ᵣ min_length plain;
          Ret (bool_decide (Z.of_nat (String.length ans) ≤ length))
    end.

(** *** The specification, in the spec's words *)

Definition is_digit (c : ascii) : Prop := 48 ≤ JS.code c ≤ 57.

(** The chunks of an encoding: (length character, repeated character). *)
Fixpoint chunks (ans : string) : list (ascii * ascii) :=
  match ans with
  | String d (String c rest) => (d, c) :: chunks rest
  | _ => []
  end.

(** Repeating each chunk's character chunk-length times, in order. *)
Fixpoint expand_chunks (l : list (ascii * ascii)) : string :=
  match l with
  | [] => EmptyString
  | (d, c) :: l' => JS.repeat_char c (Z.to_nat (JS.code d - 48)) +:+ expand_chunks l'
  end.

Definition spec_decode (ans : string) : string := expand_chunks (chunks ans).

(** The maximal runs of the plaintext: (character, run length). *)
Fixpoint runs (plain : string) : list (ascii * nat) :=
  match plain with
  | EmptyString => []
  | String c rest =>
      match runs rest with
      | (d, n) :: tl => if bool_decide (d = c) then (c, S n) :: tl
                        else (c, 1%nat) :: (d, n) :: tl
      | [] => [(c, 1%nat)]
      end
  end.

(** [ceil(a / b)] for [b > 0]. *)
Definition ceil_div (a b : Z) : Z := (a + b - 1) / b.

(** The sum over the runs of [ceil(run_length / 9) * 2]. *)
Fixpoint spec_min_length_of (rs : list (ascii * nat)) : Z :=
  match rs with
  | [] => 0
  | (_, n) :: rs' => ceil_div (Z.of_nat n) 9 * 2 + spec_min_length_of rs'
  end.
Definition spec_min_length (plain : string) : Z := spec_min_length_of (runs plain).

(** Writing the runs out gives the text back. *)
Fixpoint expand_runs (rs : list (ascii * nat)) : string :=
  match rs with
  | [] => EmptyString
  | (c, n) :: rs' => JS.repeat_char c n +:+ expand_runs rs'
  end.

(** Consecutive runs are of different characters and no run is empty. *)
Fixpoint runs_maximal (rs : list (ascii * nat)) : Prop :=
  match rs with
  | [] => True
  | (c, n) :: rs' =>
      (1 ≤ n)%nat ∧
      match rs' with (d, _) :: _ => c ≠ d | [] => True end ∧
      runs_maximal rs'
  end.

(** What [generate] returns: 50 to 99 characters. *)
Definition generated (plain : string) : Prop :=
  (50 ≤ String.length plain ≤ 99)%nat.

End RLE.

(** ** Proper 2-Coloring of a Graph *)

Module TwoColoring.

(** [data = [n, edges]] with vertices numbered from 0. *)
Definition state : Type := nat * list (nat * nat).

(** [neighbourhood(vertex)] *)
Definition neighbourhood (edges : list (nat * nat)) (vertex : nat) : list nat :=
  let adjLeft := snd <$> filter (λ e, e.1 = vertex) edges in
  let adjRight := fst <$> filter (λ e, e.2 = vertex) edges in
  adjLeft ++ adjRight.

(** The array [coloring] of the "no solution" case is modelled by the finite
    map of the vertices that have a colour: [coloring[u] === undefined] is
    [coloring !! u = None], whether [u] is an [undefined] entry below [n], a
    hole, or an index past the end, and an assignment [coloring[u] = c]
    past the end extends the JS array as the insertion extends the map.

    [coloring.findIndex((val) => val === undefined)], guarded by
    [coloring.some((val) => val === undefined)] which looks at the entries
    that exist and are [undefined], all of them below [n]: the first vertex
    below [n] without a colour, if any. *)
Definition first_uncolored (n : nat) (coloring : gmap nat Z) : option nat :=
  List.find (λ i, bool_decide (coloring !! i = None)) (seq 0 n).

(** The early [return true], recording the vertices [v], [u] and the
    colouring at that moment (the source returns [true] only). *)
Inductive conflict : Type :=
  | Conflict (v u : nat) (coloring : gmap nat Z).

(** [for (const id in neighbors)]: for each vertex [u] adjacent to [v].
    The stack [frontier] is a list whose head is the top of the stack. *)
Fixpoint visit (v : nat) (neighbors : list nat)
    (coloring : gmap nat Z) (frontier : list nat)
    : conflict + (gmap nat Z * list nat) :=
  match neighbors with
  | [] => inr (coloring, frontier)
  | u :: neighbors' =>
      match coloring !! u with
      | None =>
          let c := if bool_decide (coloring !! v = Some 0) then 1 else 0 in
          visit v neighbors' (<[u := c]> coloring) (u :: frontier)
      | Some cu =>
          if bool_decide (coloring !! v = Some cu)
          then inl (Conflict v u coloring)
          else visit v neighbors' coloring frontier
      end
  end.

(** [while (frontier.length > 0)] *)
Fixpoint propagate (fuel : nat) (edges : list (nat * nat))
    (coloring : gmap nat Z) (frontier : list nat)
    : result (conflict + gmap nat Z) :=
  match fuel with
  | O => OutOfFuel
  | S f =>
      match frontier with
      | [] => Ret (inr coloring)
      | v :: frontier' =>
          match visit v (neighbourhood edges v) coloring frontier' with
          | inl c => Ret (inl c)
          | inr (coloring', frontier'') => propagate f edges coloring' frontier''
          end
      end
  end.

(** Every vertex is coloured, hence pushed and popped, at most once. *)
Definition fuel_bound (data : state) : nat := data.1 + 2 * length data.2 + 2.

(** [while (coloring.some((val) => val === undefined))] *)
Fixpoint components (fuel : nat) (data : state) (coloring : gmap nat Z)
    : result (conflict + gmap nat Z) :=
  match fuel with
  | O => OutOfFuel
  | S f =>
      match first_uncolored data.1 coloring with
      | None => Ret (inr coloring)
      | Some initialVertex =>
          r ←ᵣ propagate (fuel_bound data) data.2
                 (<[initialVertex := 0]> coloring) [initialVertex];
          match r with
          | inl c => Ret (inl c)
          | inr coloring' => components f data coloring'
          end
      end
  end.

(** The attempt to construct a proper 2-coloring: a conflict, or the
    colouring that was built. *)
Definition greedy (data : state) : result (conflict + gmap nat Z) :=
  components (fuel_bound data) data ∅.

(** [validColors.includes(x)] for [x = coloring[a]]: [None] is [undefined]
    (index out of range), [Some None] is [NaN]. *)
Definition valid_color (x : option (option Z)) : bool :=
  bool_decide (x = Some (Some 0) ∨ x = Some (Some 1)).

(** The callback of [edges.every]; [aColor != bColor] is evaluated on two
    valid colours only. *)
Definition edge_ok (coloring : list (option Z)) (e : nat * nat) : bool :=
  let aColor := coloring !! e.1 in
  let bColor := coloring !! e.2 in
  valid_color aColor && valid_color bColor && bool_decide (aColor ≠ bColor).

Definition solver (data : state) (ans : string) : result bool :=
  let sanitizedPlayerAns := removeBracketsFromArrayString ans in
  if bool_decide (sanitizedPlayerAns = EmptyString) then
    r ←ᵣ greedy data;
    Ret (match r with inl _ => true | inr _ => false end)
  else
    let sanitizedPlayerAnsArr := JS.split "," sanitizedPlayerAns in
    let coloring := JS.parseInt <$> sanitizedPlayerAnsArr in
    if bool_decide (length coloring = data.1)
    then Ret (forallb (edge_ok coloring) data.2)
    else Ret false.

(** *** Notions used to state the properties *)

(** The vertices the propagation can ever colour. *)
Definition universe (data : state) : gset nat :=
  list_to_set (seq 0 data.1 ++ data.2.*1 ++ data.2.*2).

(** A proper 2-coloring of the graph, as a function to [bool]. *)
Definition proper (edges : list (nat * nat)) (c : nat → bool) : Prop :=
  ∀ a b, (a, b) ∈ edges → c a ≠ c b.

(** The state is well formed: every edge joins two of the [n] vertices. *)
Definition well_formed (data : state) : Prop :=
  ∀ a b, (a, b) ∈ data.2 → (a < data.1)%nat ∧ (b < data.1)%nat.

(** Invariants of the propagation.  Every colour is 0 or 1. *)
Definition two_colors (m : gmap nat Z) : Prop :=
  ∀ u x, m !! u = Some x → x = 0 ∨ x = 1.

(** [u] and [w] have colours, and different ones. *)
Definition differ (m : gmap nat Z) (u w : nat) : Prop :=
  ∃ x y, m !! u = Some x ∧ m !! w = Some y ∧ x ≠ y.

(** Every neighbour of [u] has a colour that differs from the one of [u]. *)
Definition closed (edges : list (nat * nat)) (m : gmap nat Z) (u : nat) : Prop :=
  ∀ w, w ∈ neighbourhood edges u → differ m u w.

(** The colour of [w] is the one that the 2-coloring [c] gives, up to the
    swap [s] of the two colours. *)
Definition agrees (c : nat → bool) (s : bool) (m : gmap nat Z) (w : nat) : Prop :=
  m !! w = Some (if xorb (c w) s then 1 else 0).

Definition is_conflict (r : conflict + gmap nat Z) : bool :=
  match r with inl _ => true | inr _ => false end.

(** What [generate] returns: 6..14 vertices and edges [[a, b]] with
    [a < b] between them. *)
Definition generated (data : state) : Prop :=
  (6 ≤ data.1 ≤ 14)%nat ∧
  ∀ a b, (a, b) ∈ data.2 → (a < b)%nat ∧ (b < data.1)%nat.

End TwoColoring.

(** ** Shortest Path in a Grid *)

Module ShortestPath.

Definition grid : Type := list (list Z).

(** A position [(y, x)]. *)
Definition pos : Type := Z * Z.

(** An entry of the array [distance]: [NotNumber] stands for what a read
    outside the array gives ([undefined]) and for [NaN]; both are different
    from [Infinity] under [==], make [>] false and give [NaN] under [+ 1]. *)
Inductive cell : Type :=
  | NotNumber
  | Infinity
  | Dist (d : Z).

Global Instance cell_eq_dec : EqDecision cell.
Proof. solve_decision. Defined.

(** [distance[y][x]] *)
Definition get2 (distance : list (list cell)) (p : pos) : cell :=
  if (p.1 <? 0) || (p.2 <? 0) then NotNumber
  else default NotNumber (row ← distance !! Z.to_nat p.1; row !! Z.to_nat p.2).

(** [row[x] = v]: inside the row it replaces the entry, past its end the
    JS array grows (the entries in between are holes, read as
    [undefined]). *)
Definition row_store (row : list cell) (x : nat) (v : cell) : list cell :=
  if decide (x < length row)%nat then <[x := v]> row
  else (row ++ replicate (x - length row) NotNumber ++ [v])%list.

(** [distance[y][x] = v], for a row [distance[y]] that exists and
    non-negative indices (the only stores of the solver). *)
Definition set2 (distance : list (list cell)) (p : pos) (v : cell)
    : list (list cell) :=
  match distance !! Z.to_nat p.1 with
  | Some row => <[Z.to_nat p.1 := row_store row (Z.to_nat p.2) v]> distance
  | None => distance
  end.

(** [data[y][x] == 0] for indices inside the grid: a missing entry of a
    short row is [undefined], which is not [== 0]. *)
Definition cell_free (data : grid) (p : pos) : bool :=
  bool_decide ((row ← data !! Z.to_nat p.1; row !! Z.to_nat p.2) = Some 0).

Section solver.
Context (data : grid) (width height : Z).

Definition validPosition (p : pos) : bool :=
  (0 <=? p.1) && (p.1 <? height) && (0 <=? p.2) && (p.2 <? width)
  && cell_free data p.

(** [neighbors(y, x)]: up, down, left, right, those that are valid. *)
Definition neighbors (p : pos) : list pos :=
  filter (λ q, validPosition q = true)
    [(p.1 - 1, p.2); (p.1 + 1, p.2); (p.1, p.2 - 1); (p.1, p.2 + 1)].

(** [distance[y][x] + 1] *)
Definition succ_cell (c : cell) : cell :=
  match c with
  | Dist d => Dist (d + 1)
  | Infinity => Infinity
  | NotNumber => NotNumber
  end.

(** Body of [for (const [yN, xN] of neighbors(y, x))], on the pair
    [(distance, queue)]. *)
Definition reach (p : pos) (st : list (list cell) * list pos) (q : pos)
    : list (list cell) * list pos :=
  let '(distance, queue) := st in
  if decide (get2 distance q = Infinity)
  then (set2 distance q (succ_cell (get2 distance p)), (queue ++ [q])%list)
  else (distance, queue).

(** [while (queue.length > 0)]: [queue.shift()] takes the head. *)
Fixpoint bfs (fuel : nat) (distance : list (list cell)) (queue : list pos)
    : result (list (list cell)) :=
  match fuel with
  | O => OutOfFuel
  | S f =>
      match queue with
      | [] => Ret distance
      | p :: queue' =>
          let '(distance', queue'') :=
            foldl (reach p) (distance, queue') (neighbors p) in
          bfs f distance' queue''
      end
  end.

(** The [switch (direction)] of the answer check. *)
Definition move (direction : ascii) (p : pos) : option pos :=
  if bool_decide (direction = "U"%char) then Some (p.1 - 1, p.2)
  else if bool_decide (direction = "D"%char) then Some (p.1 + 1, p.2)
  else if bool_decide (direction = "L"%char) then Some (p.1, p.2 - 1)
  else if bool_decide (direction = "R"%char) then Some (p.1, p.2 + 1)
  else None.

(** [for (const direction of ans)], from the position [(ansY, ansX)];
    [None] is a [return false] inside the loop. *)
Fixpoint walk (ans : string) (p : pos) : option pos :=
  match ans with
  | EmptyString => Some p
  | String direction rest =>
      match move direction p with
      | None => None
      | Some q => if validPosition q then walk rest q else None
      end
  end.

End solver.

(** Every cell is taken from the queue at most once. *)
Definition fuel_bound (width height : nat) : nat := height * width + 2.

(** The array [distance] when the search has ended. *)
Definition distances (data : grid) : result (list (list cell)) :=
  match data with
  | [] => Throw  (* [data[0].length]: [data[0]] is [undefined] *)
  | row0 :: _ =>
      let width := length row0 in
      let height := length data in
      let distance := replicate height (replicate width Infinity) in
      let distance := set2 distance (0, 0) (Dist 0) in
      bfs data (Z.of_nat width) (Z.of_nat height) (fuel_bound width height)
          distance [(0, 0)]
  end.

Definition solver (data : grid) (ans : string) : result bool :=
  distance ←ᵣ distances data;
  let width := Z.of_nat (length (data !!! 0%nat)) in
  let height := Z.of_nat (length data) in
  let dstY := height - 1 in
  let dstX := width - 1 in
  match get2 distance (dstY, dstX) with
  | Infinity => Ret (bool_decide (ans = EmptyString))
  | d =>
      if match d with
         | Dist n => n <? Z.of_nat (String.length ans)
         | _ => false
         end
      then Ret false
      else
        match walk data width height ans (0, 0) with
        | None => Ret false
        | Some (ansY, ansX) => Ret (bool_decide (ansY = dstY ∧ ansX = dstX))
        end
  end.

(** *** The specification, in the spec's words *)

(** [walks data p ans q]: [ans] uses the characters U, D, L, R only, and
    the walk it describes from [p] stays inside the grid and on cells valued
    0 at every step, and ends at [q]. *)
Inductive walks (data : grid) : pos → string → pos → Prop :=
  | walks_nil p : walks data p EmptyString p
  | walks_step p c q rest r :
      q = match c with
          | "U"%char => (p.1 - 1, p.2)
          | "D"%char => (p.1 + 1, p.2)
          | "L"%char => (p.1, p.2 - 1)
          | _ => (p.1, p.2 + 1)
          end →
      c = "U"%char ∨ c = "D"%char ∨ c = "L"%char ∨ c = "R"%char →
      0 ≤ q.1 < Z.of_nat (length data) →
      0 ≤ q.2 < Z.of_nat (length (data !!! 0%nat)) →
      (row ← data !! Z.to_nat q.1; row !! Z.to_nat q.2) = Some 0 →
      walks data q rest r →
      walks data p (String c rest) r.

(** The bottom-right cell. *)
Definition destination (data : grid) : pos :=
  (Z.of_nat (length data) - 1, Z.of_nat (length (data !!! 0%nat)) - 1).

(** *** Notions used in the proofs *)

(** The array has [height] rows of [width] entries. *)
Definition dims (height width : nat) (distance : list (list cell)) : Prop :=
  length distance = height ∧ Forall (λ row, length row = width) distance.

Definition in_range (height width : Z) (p : pos) : Prop :=
  0 ≤ p.1 < height ∧ 0 ≤ p.2 < width.

(** Number of entries that are still [Infinity]. *)
Definition count_inf (distance : list (list cell)) : nat :=
  sum_list_with (λ row, length (filter (λ c, c = Infinity) row)) distance.

(** The queue holds visited cells with non-decreasing distances, from
    [lo] on. *)
Fixpoint queue_ok (distance : list (list cell)) (lo : Z) (queue : list pos) : Prop :=
  match queue with
  | [] => True
  | p :: queue' =>
      ∃ d, get2 distance p = Dist d ∧ lo ≤ d ∧ queue_ok distance d queue'
  end.

(** [p] has been given a distance. *)
Definition visited (distance : list (list cell)) (p : pos) : Prop :=
  ∃ d, get2 distance p = Dist d.

(** A distance that is set is never changed. *)
Definition extends (distance distance' : list (list cell)) : Prop :=
  ∀ p d, get2 distance p = Dist d → get2 distance' p = Dist d.

(** Every neighbour of [p] has a distance, at most one more than [p]'s. *)
Definition closed (data : grid) (H W : nat) (distance : list (list cell))
    (p : pos) : Prop :=
  ∀ q, q ∈ neighbors data (Z.of_nat W) (Z.of_nat H) p →
       ∃ dp dq, get2 distance p = Dist dp ∧ get2 distance q = Dist dq ∧ dq ≤ dp + 1.

(** Invariant of the search at the head of the [while] loop. *)
Record outer_inv (data : grid) (H W : nat)
    (distance : list (list cell)) (queue : list pos) : Prop := {
  outer_dims : dims H W distance;
  outer_numbers : ∀ q, in_range (Z.of_nat H) (Z.of_nat W) q →
                       get2 distance q ≠ NotNumber;
  outer_start : get2 distance (0, 0) = Dist 0;
  outer_queue : ∃ lo, queue_ok distance lo queue;
  outer_bound : ∀ h dh q d, head queue = Some h → get2 distance h = Dist dh →
                            get2 distance q = Dist d → d ≤ dh + 1;
  outer_closed : ∀ q, visited distance q → q ∉ queue → closed data H W distance q;
}.

(** Invariant while the neighbours of [p], which has distance [dp], are
    examined. *)
Record inner_inv (data : grid) (H W : nat) (p : pos) (dp : Z)
    (distance : list (list cell)) (queue : list pos) : Prop := {
  inner_dims : dims H W distance;
  inner_numbers : ∀ q, in_range (Z.of_nat H) (Z.of_nat W) q →
                       get2 distance q ≠ NotNumber;
  inner_start : get2 distance (0, 0) = Dist 0;
  inner_cur : get2 distance p = Dist dp;
  inner_queue : queue_ok distance dp queue;
  inner_bound : ∀ q d, get2 distance q = Dist d → d ≤ dp + 1;
  inner_closed : ∀ q, visited distance q → q ∉ queue → q ≠ p →
                      closed data H W distance q;
}.

(** What [generate] returns: 6..12 rows of 6..12 entries, each 0 or 1, the
    two corners 0. *)
Definition generated (data : grid) : Prop :=
  (6 ≤ length data ≤ 12)%nat ∧
  (∃ n, (6 ≤ n ≤ 12)%nat ∧
        Forall (λ row, length row = n ∧ Forall (λ x, x = 0 ∨ x = 1) row) data) ∧
  cell_free data (0, 0) = true ∧ cell_free data (destination data) = true.

End ShortestPath.

(** ** Sanitize Parentheses in Expression *)

Module SanitizeParentheses.

(** The first loop: the numbers of excess ["("] and [")"]. *)
Fixpoint excess (data : string) (left right : Z) : Z * Z :=
  match data with
  | EmptyString => (left, right)
  | String c rest =>
      if bool_decide (c = "("%char) then excess rest (left + 1) right
      else if bool_decide (c = ")"%char) then
        if 0 <? left then excess rest (left - 1) right
        else excess rest left (right + 1)
      else excess rest left right
  end.

(** [dfs(pair, index, left, right, s, solution, res)], where the argument
    [s] of the model is the part of the source's [s] from [index] on and
    the array [res], which the source extends in place, is passed through. *)
Fixpoint dfs (pair left right : Z) (s solution : string) (res : list string)
    : list string :=
  match s with
  | EmptyString =>
      if (left =? 0) && (right =? 0) && (pair =? 0) then
        if bool_decide (solution ∈ res) then res else (res ++ [solution])%list
      else res
  | String c rest =>
      if bool_decide (c = "("%char) then
        let res :=
          if 0 <? left then dfs pair (left - 1) right rest solution res
          else res in
        dfs (pair + 1) left right rest (solution +:+ String c EmptyString) res
      else if bool_decide (c = ")"%char) then
        let res :=
          if 0 <? right then dfs pair left (right - 1) rest solution res
          else res in
        if 0 <? pair
        then dfs (pair - 1) left right rest (solution +:+ String c EmptyString) res
        else res
      else dfs pair left right rest (solution +:+ String c EmptyString) res
  end.

(** The array [res] after [dfs(0, 0, left, right, data, "", res)]. *)
Definition reference (data : string) : list string :=
  let counts := excess data 0 0 in
  dfs 0 counts.1 counts.2 data EmptyString [].

(** The array [sanitizedPlayerAnsArr]. *)
Definition canonical (ans : string) : list string :=
  let sanitizedPlayerAns := removeBracketsFromArrayString ans in
  (λ s, removeQuotesFromString (JS.remove_white s))
    <$> JS.split "," sanitizedPlayerAns.

Definition solver (data ans : string) : bool :=
  let res := reference data in
  let sanitizedPlayerAnsArr := canonical ans in
  if bool_decide (length sanitizedPlayerAnsArr ≠ length res) then false
  else forallb (λ resultInAnswer, bool_decide (resultInAnswer ∈ sanitizedPlayerAnsArr)) res.

(** What [generate] returns: 6 to 20 characters among ["("], [")"], ["a"],
    the first one a parenthesis. *)
Definition generated (data : string) : Prop :=
  (6 ≤ String.length data ≤ 20)%nat ∧
  (JS.startsWith "(" data = true ∨ JS.startsWith ")" data = true) ∧
  ∀ i c, String.get i data = Some c →
         c = "("%char ∨ c = ")"%char ∨ c = "a"%char.

End SanitizeParentheses.

(** ** Find All Valid Math Expressions *)

Module MathExpressions.

(** A JS number that is an integer or [NaN] ([None]). *)
Definition num : Type := option Z.

Definition add (a b : num) : num := x ← a; y ← b; Some (x + y).
Definition sub (a b : num) : num := x ← a; y ← b; Some (x - y).
Definition mul (a b : num) : num := x ← a; y ← b; Some (x * y).
Definition neg (a : num) : num := x ← a; Some (- x).

(** The text of a number when it is appended to a string. *)
Definition text (a : num) : string :=
  match a with
  | Some x => JS.toString x
  | None => "NaN"
  end.

Section helper.
Context (digits : string) (target : Z).

(** The [for (let i = pos; i < num.length; ++i)] loop of [helper], over the
    remaining values of [i]; [call] is the recursive call
    [helper(res, path, num, target, pos, evaluated, multed)]. *)
Fixpoint candidates
    (call : list string → string → nat → num → num → result (list string))
    (path : string) (pos : nat) (evaluated multed : num)
    (indices : list nat) (res : list string) : result (list string) :=
  match indices with
  | [] => Ret res
  | i :: indices' =>
      if bool_decide (i ≠ pos)
         && bool_decide (String.get pos digits = Some "0"%char)
      then Ret res (* break *)
      else
        let cur := JS.parseInt (String.substring pos (i + 1 - pos) digits) in
        if bool_decide (pos = 0%nat) then
          res ←ᵣ call res (path +:+ text cur) (i + 1)%nat cur cur;
          candidates call path pos evaluated multed indices' res
        else
          res ←ᵣ call res (path +:+ "+" +:+ text cur) (i + 1)%nat
                   (add evaluated cur) cur;
          res ←ᵣ call res (path +:+ "-" +:+ text cur) (i + 1)%nat
                   (sub evaluated cur) (neg cur);
          res ←ᵣ call res (path +:+ "*" +:+ text cur) (i + 1)%nat
                   (add (sub evaluated multed) (mul multed cur)) (mul multed cur);
          candidates call path pos evaluated multed indices' res
  end.

(** [helper(res, path, num, target, pos, evaluated, multed)]; the array
    [res], extended in place by the source, is passed through. *)
Fixpoint helper (fuel : nat) (res : list string) (path : string) (pos : nat)
    (evaluated multed : num) : result (list string) :=
  match fuel with
  | O => OutOfFuel
  | S f =>
      if bool_decide (pos = String.length digits) then
        Ret (if bool_decide (Some target = evaluated)
             then (res ++ [path])%list else res)
      else
        candidates (helper f) path pos evaluated multed
          (seq pos (String.length digits - pos)) res
  end.

End helper.

Definition state : Type := string * Z.

(** The array [result]. *)
Definition reference (data : state) : result (list string) :=
  helper data.1 data.2 (S (String.length data.1)) [] EmptyString 0
         (Some 0) (Some 0).

(** The array [sanitizedPlayerAnsArr]: empty entries are dropped before the
    quotes are removed. *)
Definition canonical (ans : string) : list string :=
  let sanitizedPlayerAns := removeBracketsFromArrayString ans in
  (λ s, removeQuotesFromString (JS.remove_white s))
    <$> filterTruthy (JS.split "," sanitizedPlayerAns).

Definition solver (data : state) (ans : string) : result bool :=
  let sanitizedPlayerAnsArr := canonical ans in
  if bool_decide (String.length data.1 = 0%nat) then
    if bool_decide (length sanitizedPlayerAnsArr = 0%nat) then Ret true
    else if bool_decide (length sanitizedPlayerAnsArr = 1%nat
                         ∧ sanitizedPlayerAnsArr !! 0%nat = Some EmptyString)
    then Ret true
    else Ret false
  else
    result ←ᵣ reference data;
    if bool_decide (length result ≠ length sanitizedPlayerAnsArr) then Ret false
    else Ret (forallb (λ expr, bool_decide (expr ∈ result)) sanitizedPlayerAnsArr).

(** What [generate] returns: 4..12 digits, the first not 0, and a target
    in -100..100. *)
Definition generated (data : state) : Prop :=
  (4 ≤ String.length data.1 ≤ 12)%nat ∧ JS.all_digits 10 data.1 = true ∧
  JS.startsWith "0" data.1 = false ∧ -100 ≤ data.2 ≤ 100.

End MathExpressions.

(** ** Arrays of numbers that may hold [undefined] or [NaN] *)

Module Arr.

(** An entry, or the result of arithmetic on entries: [None] stands for
    [undefined] and for [NaN] (arithmetic and comparisons treat the two
    alike, and neither is [===] to a number). *)
Definition num : Type := option Z.

Definition add (a b : num) : num := x ← a; y ← b; Some (x + y).
Definition min (a b : num) : num := x ← a; y ← b; Some (Z.min x y).

(** [arr[i]]: outside the array the read gives [undefined]. *)
Definition get (arr : list num) (i : nat) : num := default None (arr !! i).

(** [arr[i] = v]: past the end the array grows, with holes in between. *)
Definition store (arr : list num) (i : nat) (v : num) : list num :=
  if decide (i < length arr)%nat then <[i := v]> arr
  else (arr ++ replicate (i - length arr) None ++ [v])%list.

(** [x === y] for two entries: both numbers, and equal. *)
Definition same (a b : num) : bool :=
  match a, b with
  | Some x, Some y => bool_decide (x = y)
  | _, _ => false
  end.

End Arr.

(** ** Subarray with Maximum Sum *)

Module MaxSubarray.

(** [for (let i = 1; i < nums.length; i++)
      nums[i] = Math.max(nums[i], nums[i] + nums[i - 1])] *)
Definition sums (data : list Z) : list Z :=
  foldl (λ nums i, <[i := Z.max (nums !!! i) (nums !!! i + nums !!! (i - 1)%nat)]> nums)
        data (seq 1 (length data - 1)).

(** [Math.max(...nums)]: [None] is the [-Infinity] of the empty array. *)
Definition maximum (nums : list Z) : option Z :=
  match nums with
  | [] => None
  | x :: rest => Some (foldl Z.max x rest)
  end.

Definition reference (data : list Z) : option Z := maximum (sums data).

Definition solver (data : list Z) (ans : string) : result bool :=
  Ret (Arr.same (JS.parseInt10 ans) (reference data)).

(** What [generate] returns: 5..40 numbers in -10..10. *)
Definition generated (data : list Z) : Prop :=
  (5 ≤ length data ≤ 40)%nat ∧ Forall (λ x, -10 ≤ x ≤ 10) data.

End MaxSubarray.

(** ** Total Ways to Sum *)

Module TotalWays.

(** The stored state, before [typeof data] is known to be ["number"]; the
    number is the non-negative integer that the arrays are sized by. *)
Inductive stored : Type :=
  | Number (n : nat)
  | NotNumber.

(** [for (let j = from; j <= n; ++j) ways[j] += ways[j - step]] *)
Definition add_ways (n step from : nat) (ways : list Z) : list Z :=
  foldl (λ ways j, <[j := ways !!! j + ways !!! (j - step)%nat]> ways)
        ways (seq from (S n - from)).

(** [ways = [1]; ways.length = n + 1; ways.fill(0, 1)] *)
Definition initial (n : nat) : list Z := 1 :: replicate n 0.

(** [for (let i = 1; i < data; ++i) for (let j = i; j <= data; ++j) ...] *)
Definition ways (n : nat) : list Z :=
  foldl (λ ways i, add_ways n i i ways) (initial n) (seq 1 (n - 1)).

Definition solver (data : stored) (ans : string) : result bool :=
  match data with
  | NotNumber => Throw  (* throw new Error("solver expected number") *)
  | Number n => Ret (bool_decide (Some (ways n !!! n) = JS.parseInt10 ans))
  end.

(** What [generate] returns: [getRandomIntInclusive(8, 100)]. *)
Definition generated (data : stored) : Prop :=
  ∃ n, data = Number n ∧ (8 ≤ n ≤ 100)%nat.

End TotalWays.

(** ** Total Ways to Sum II *)

Module TotalWaysII.

(** [data = [n, s]]: the target and the set of non-negative integers. *)
Definition state : Type := nat * list nat.

(** [for (let i = 0; i < s.length; i++)
      for (let j = s[i]; j <= n; j++) ways[j] += ways[j - s[i]]] *)
Definition ways (data : state) : list Z :=
  foldl (λ ways si, TotalWays.add_ways data.1 si si ways)
        (TotalWays.initial data.1) data.2.

Definition solver (data : state) (ans : string) : result bool :=
  Ret (bool_decide (Some (ways data !!! data.1) = JS.parseInt10 ans)).

(** What [generate] returns: [n] in 12..200 and at most 12 distinct
    integers between 1 and [n]. *)
Definition generated (data : state) : Prop :=
  (12 ≤ data.1 ≤ 200)%nat ∧ (length data.2 ≤ 12)%nat ∧
  Forall (λ x, 1 ≤ x ≤ data.1)%nat data.2.

End TotalWaysII.

(** ** Spiralize Matrix *)

Module Spiralize.

(** [data[row]]: a row that does not exist is [undefined], and indexing it
    throws a TypeError. *)
Definition row_of (data : list (list Z)) (row : Z) : result (list Z) :=
  if row <? 0 then Throw
  else match data !! Z.to_nat row with
       | Some line => Ret line
       | None => Throw
       end.

(** [data[row][col]]: [None] is the [undefined] of a missing column. *)
Definition entry (data : list (list Z)) (row col : Z) : result Arr.num :=
  line ←ᵣ row_of data row;
  Ret (if col <? 0 then None else line !! Z.to_nat col).

(** A sweep [spiral[k] = data[row][col]; ++k] over the given positions;
    [k] is always the length of [spiral]. *)
Fixpoint sweep (data : list (list Z)) (cells : list (Z * Z))
    (spiral : list Arr.num) : result (list Arr.num) :=
  match cells with
  | [] => Ret spiral
  | (row, col) :: cells' =>
      x ←ᵣ entry data row col;
      sweep data cells' (spiral ++ [x])
  end.

(** The integers from [a] up to [b]. *)
Definition upto (a b : Z) : list Z := seqZ a (b - a + 1).
(** The integers from [a] down to [b]. *)
Definition downto (a b : Z) : list Z := reverse (seqZ b (a - b + 1)).

(** [while (!done)] *)
Fixpoint loop (fuel : nat) (data : list (list Z)) (u d l r : Z)
    (spiral : list Arr.num) : result (list Arr.num) :=
  match fuel with
  | O => OutOfFuel
  | S f =>
      (* Up *)
      spiral ←ᵣ sweep data ((λ col, (u, col)) <$> upto l r) spiral;
      let u := u + 1 in
      if d <? u then Ret spiral else
      (* Right *)
      spiral ←ᵣ sweep data ((λ row, (row, r)) <$> upto u d) spiral;
      let r := r - 1 in
      if r <? l then Ret spiral else
      (* Down *)
      spiral ←ᵣ sweep data ((λ col, (d, col)) <$> downto r l) spiral;
      let d := d - 1 in
      if d <? u then Ret spiral else
      (* Left *)
      spiral ←ᵣ sweep data ((λ row, (row, l)) <$> downto d u) spiral;
      let l := l + 1 in
      if r <? l then Ret spiral else
      loop f data u d l r spiral
  end.

(** The array [spiral]. *)
Definition reference (data : list (list Z)) : result (list Arr.num) :=
  match data with
  | [] => Throw  (* [data[0].length] *)
  | row0 :: _ =>
      let m := Z.of_nat (length data) in
      let n := Z.of_nat (length row0) in
      loop (S (length data)) data 0 (m - 1) 0 (n - 1) []
  end.

(** The element-wise comparison of [spiral] with [playerAns]. *)
Fixpoint same_elements (spiral playerAns : list Arr.num) : bool :=
  match spiral, playerAns with
  | [], _ => true
  | x :: spiral', y :: playerAns' => Arr.same x y && same_elements spiral' playerAns'
  | _ :: _, [] => false
  end.

Definition solver (data : list (list Z)) (ans : string) : result bool :=
  spiral ←ᵣ reference data;
  let sanitizedPlayerAns := JS.remove_white (removeBracketsFromArrayString ans) in
  let playerAns := JS.parseInt <$> JS.split "," sanitizedPlayerAns in
  if bool_decide (length spiral ≠ length playerAns) then Ret false
  else Ret (same_elements spiral playerAns).

(** What [generate] returns: [m] rows of [n] entries, [m] and [n] in 1..15,
    the entries in 1..50. *)
Definition generated (data : list (list Z)) : Prop :=
  (1 ≤ length data ≤ 15)%nat ∧
  ∃ n, (1 ≤ n ≤ 15)%nat ∧
       Forall (λ line, length line = n ∧ Forall (λ x, 1 ≤ x ≤ 50) line) data.

End Spiralize.

(** ** Array Jumping Game *)

Module ArrayJump.

(** [for (let reach = 0; i < n && i <= reach; ++i)
      reach = Math.max(i + data[i], reach)] on the entries from index [i]
    on; the result is the final [i]. *)
Fixpoint run (rest : list Z) (i reach : Z) : Z :=
  match rest with
  | [] => i
  | x :: rest' =>
      if i <=? reach then run rest' (i + 1) (Z.max (i + x) reach) else i
  end.

Definition solver (data : list Z) (ans : string) : result bool :=
  let n := Z.of_nat (length data) in
  let i := run data 0 0 in
  let solution := bool_decide (i = n) in
  Ret (bool_decide (ans = "1") && solution || bool_decide (ans = "0") && negb solution).

(** What [generate] returns: 3..25 numbers in 0..10. *)
Definition generated (data : list Z) : Prop :=
  (3 ≤ length data ≤ 25)%nat ∧ Forall (λ x, 0 ≤ x ≤ 10) data.

End ArrayJump.

(** ** Array Jumping Game II *)

Module ArrayJumpII.

(** [for (let i = reach; i > lastJump; i--)], on [(reach, jumpedFrom)]; the
    indices are those between the old [reach], which is below [n - 1], and
    [lastJump + 1 >= 0], all inside the array. *)
Definition scan (data : list Z) (reach lastJump : Z) : Z * Z :=
  foldl (λ st i,
           let '(reach, jumpedFrom) := st in
           if reach <? i + data !!! Z.to_nat i
           then (i + data !!! Z.to_nat i, i) else (reach, jumpedFrom))
        (reach, -1) (Spiralize.downto reach (lastJump + 1)).

(** [while (reach < n - 1)]; the result is [jumps]. *)
Fixpoint loop (fuel : nat) (data : list Z) (reach jumps lastJump : Z) : result Z :=
  match fuel with
  | O => OutOfFuel
  | S f =>
      if reach <? Z.of_nat (length data) - 1 then
        let '(reach, jumpedFrom) := scan data reach lastJump in
        if jumpedFrom =? -1 then Ret 0
        else loop f data reach (jumps + 1) jumpedFrom
      else Ret jumps
  end.

Definition reference (data : list Z) : result Z :=
  loop (S (length data)) data 0 0 (-1).

Definition solver (data : list Z) (ans : string) : result bool :=
  jumps ←ᵣ reference data;
  Ret (bool_decide (Some jumps = JS.parseInt10 ans)).

(** What [generate] returns: 3..25 numbers in 0..9. *)
Definition generated (data : list Z) : Prop :=
  (3 ≤ length data ≤ 25)%nat ∧ Forall (λ x, 0 ≤ x ≤ 9) data.

End ArrayJumpII.

(** ** Merge Overlapping Intervals *)

Module MergeIntervals.

(** An interval [[start, end]]. *)
Definition interval : Type := Z * Z.

(** [intervals.sort((a, b) => a[0] - b[0])]: a stable sort by the start,
    here by insertion. *)
Fixpoint insert (x : interval) (sorted : list interval) : list interval :=
  match sorted with
  | [] => [x]
  | y :: sorted' => if x.1 <? y.1 then x :: y :: sorted' else y :: insert x sorted'
  end.
Definition sort (intervals : list interval) : list interval :=
  foldl (λ sorted x, insert x sorted) [] intervals.

(** [for (const interval of intervals)], on [(result, start, end)], with
    [res] for the array [result]. *)
Definition merge_step (st : list interval * Z * Z) (x : interval)
    : list interval * Z * Z :=
  let '(res, start, stop) := st in
  if x.1 <=? stop then (res, start, Z.max stop x.2)
  else ((res ++ [(start, stop)])%list, x.1, x.2).

(** The array [result]. *)
Definition reference (data : list interval) : result (list interval) :=
  match sort data with
  | [] => Throw  (* [intervals[0][0]] *)
  | first :: _ as intervals =>
      let '(res, start, stop) :=
        foldl merge_step ([], first.1, first.2) intervals in
      Ret (res ++ [(start, stop)])%list
  end.

(** [components.join(",")] *)
Fixpoint join (sep : string) (components : list string) : string :=
  match components with
  | [] => EmptyString
  | [s] => s
  | s :: rest => s +:+ sep +:+ join sep rest
  end.

(** [convert2DArrayToString(arr)] *)
Definition convert2DArrayToString (arr : list interval) : string :=
  JS.remove_white
    (join "," ((λ e, "[" +:+ JS.toString e.1 +:+ "," +:+ JS.toString e.2 +:+ "]") <$> arr)).

Definition solver (data : list interval) (ans : string) : result bool :=
  res ←ᵣ reference data;
  let sanitizedResult := convert2DArrayToString res in
  let sanitizedAns := JS.remove_white ans in
  Ret (bool_decide (sanitizedResult = sanitizedAns)
       || bool_decide (sanitizedResult = removeBracketsFromArrayString sanitizedAns)).

(** What [generate] returns: 3..20 intervals that start in 1..25 and are
    1..10 long. *)
Definition generated (data : list interval) : Prop :=
  (3 ≤ length data ≤ 20)%nat ∧
  Forall (λ x, 1 ≤ x.1 ≤ 25 ∧ 1 ≤ x.2 - x.1 ≤ 10) data.

End MergeIntervals.

(** ** Generate IP Addresses *)

Module GenerateIP.

(** [A.toString()] of a number that may be [NaN]. *)
Definition text (a : Arr.num) : string :=
  match a with
  | Some x => JS.toString x
  | None => "NaN"
  end.

(** [A <= 255] *)
Definition octet (a : Arr.num) : bool :=
  match a with
  | Some x => x <=? 255
  | None => false
  end.

(** The body of the four nested loops, for one choice of the lengths. *)
Definition candidate (data : string) (ret : list string) (abcd : nat * nat * nat * nat)
    : list string :=
  let '(a, b, c, d) := abcd in
  if bool_decide (a + b + c + d = String.length data)%nat then
    let A := JS.parseInt10 (String.substring 0 a data) in
    let B := JS.parseInt10 (String.substring a b data) in
    let C := JS.parseInt10 (String.substring (a + b) c data) in
    let D := JS.parseInt10 (String.substring (a + b + c) d data) in
    if octet A && octet B && octet C && octet D then
      let ip := text A +:+ "." +:+ text B +:+ "." +:+ text C +:+ "." +:+ text D in
      if bool_decide (String.length ip = String.length data + 3)%nat
      then (ret ++ [ip])%list else ret
    else ret
  else ret.

(** The choices of [(a, b, c, d)], each from 1 to 3, in loop order. *)
Definition lengths : list (nat * nat * nat * nat) :=
  a ← [1; 2; 3]%nat; b ← [1; 2; 3]%nat; c ← [1; 2; 3]%nat; d ← [1; 2; 3]%nat;
  [(a, b, c, d)].

(** The array [ret]. *)
Definition reference (data : string) : list string :=
  foldl (candidate data) [] lengths.

Fixpoint all_chars (P : ascii → bool) (s : string) : bool :=
  match s with
  | EmptyString => true
  | String c rest => P c && all_chars P rest
  end.

(** The [ip.replace] of the answer pieces: its regular expression matches a
    text of digits and dots between two equal quotes, single or double, and
    the replacement keeps the text without the quotes. *)
Definition unquote (ip : string) : string :=
  match ip with
  | String q rest =>
      if (bool_decide (q = "'"%char) || bool_decide (q = JS.dquote))
         && JS.endsWith q rest
         && all_chars (λ c, bool_decide (48 ≤ JS.code c ≤ 57) || bool_decide (c = "."%char))
                      (JS.slice_init rest)
      then JS.slice_init rest
      else ip
  | EmptyString => ip
  end.

Definition solver (data ans : string) : result bool :=
  let ret := reference data in
  let sanitizedAns := JS.remove_white (removeBracketsFromArrayString ans) in
  let ansArr := unquote <$> JS.split "," sanitizedAns in
  if bool_decide (length ansArr ≠ length ret) then Ret false
  else Ret (forallb (λ ipInAns, bool_decide (ipInAns ∈ ret)) ansArr).

(** What [generate] returns: the decimal texts of four numbers in 0..255,
    one after the other. *)
Definition generated (data : string) : Prop :=
  ∃ n1 n2 n3 n4,
    0 ≤ n1 ≤ 255 ∧ 0 ≤ n2 ≤ 255 ∧ 0 ≤ n3 ≤ 255 ∧ 0 ≤ n4 ≤ 255 ∧
    data = JS.toString n1 +:+ JS.toString n2 +:+ JS.toString n3 +:+ JS.toString n4.

End GenerateIP.

(** ** Algorithmic Stock Trader II and III *)

Module StockII.

Definition solver (data : list Z) (ans : string) : result bool :=
  Ret (bool_decide (JS.toString (StockIV.greedy data) = ans)).

End StockII.

Module StockIII.

(** [for (const price of data)], on [(hold1, hold2, release1, release2)]. *)
Definition step (st : Z * Z * Z * Z) (price : Z) : Z * Z * Z * Z :=
  let '(hold1, hold2, release1, release2) := st in
  let release2 := Z.max release2 (hold2 + price) in
  let hold2 := Z.max hold2 (release1 - price) in
  let release1 := Z.max release1 (hold1 + price) in
  let hold1 := Z.max hold1 (price * -1) in
  (hold1, hold2, release1, release2).

Definition release2 (data : list Z) : Z :=
  snd (foldl step (StockIV.MIN_SAFE_INTEGER, StockIV.MIN_SAFE_INTEGER, 0, 0) data).

Definition solver (data : list Z) (ans : string) : result bool :=
  Ret (bool_decide (JS.toString (release2 data) = ans)).

End StockIII.

(** ** Minimum Path Sum in a Triangle *)

Module Triangle.

(** [for (let j = 0; j < data[i].length; ++j)
      dp[j] = Math.min(dp[j], dp[j + 1]) + data[i][j]] for the row [data[i]]. *)
Definition reduce_row (dp : list Arr.num) (row : list Z) : list Arr.num :=
  foldl (λ dp j,
           Arr.store dp j
             (Arr.add (Arr.min (Arr.get dp j) (Arr.get dp (j + 1))) (row !! j)))
        dp (seq 0 (length row)).

(** The array [dp] at the end: [for (let i = n - 2; i > -1; --i)] visits the
    rows above the last one from the bottom up. *)
Definition reference (data : list (list Z)) : result (list Arr.num) :=
  match reverse data with
  | [] => Throw  (* [data[n - 1].slice()] with [n = 0] *)
  | last :: above => Ret (foldl reduce_row (Some <$> last) above)
  end.

Definition solver (data : list (list Z)) (ans : string) : result bool :=
  dp ←ᵣ reference data;
  Ret (Arr.same (Arr.get dp 0) (JS.parseInt ans)).

(** What [generate] returns: 3..12 rows, row [i] of [i + 1] entries in 1..9. *)
Definition generated (data : list (list Z)) : Prop :=
  (3 ≤ length data ≤ 12)%nat ∧
  ∀ i row, data !! i = Some row →
           length row = S i ∧ Forall (λ x, 1 ≤ x ≤ 9) row.

End Triangle.

(** ** Unique Paths in a Grid I *)

Module UniquePathsI.

(** [data = [numRows, numColumns]]. *)
Definition state : Type := nat * nat.

(** [for (let i = 1; i < n; i++) currentRow[i] += currentRow[i - 1]] *)
Definition add_row (n : nat) (currentRow : list Z) : list Z :=
  foldl (λ row i, <[i := row !!! i + row !!! (i - 1)%nat]> row)
        currentRow (seq 1 (n - 1)).

Definition reference (data : state) : Arr.num :=
  let n := data.1 in
  let m := data.2 in
  let currentRow := replicate n 1 in
  let currentRow := foldl (λ row _, add_row n row) currentRow (seq 1 (m - 1)) in
  if bool_decide (n = 0%nat) then None  (* [currentRow[-1]] *)
  else currentRow !! (n - 1)%nat.

Definition solver (data : state) (ans : string) : result bool :=
  Ret (Arr.same (JS.parseInt ans) (reference data)).

(** What [generate] returns: rows and columns in 2..14. *)
Definition generated (data : state) : Prop :=
  (2 ≤ data.1 ≤ 14)%nat ∧ (2 ≤ data.2 ≤ 14)%nat.

End UniquePathsI.

(** ** Unique Paths in a Grid II *)

Module UniquePathsII.

(** [obstacleGrid[i][j]] for a row [i] that exists. *)
Definition get2 (grid : list (list Arr.num)) (i j : nat) : Arr.num :=
  Arr.get (grid !!! i) j.

(** [obstacleGrid[i][j] = v] for a row [i] that exists. *)
Definition store2 (grid : list (list Arr.num)) (i j : nat) (v : Arr.num)
    : list (list Arr.num) :=
  <[i := Arr.store (grid !!! i) j v]> grid.

(** The body of the two nested loops. *)
Definition fill (grid : list (list Arr.num)) (ij : nat * nat)
    : list (list Arr.num) :=
  let '(i, j) := ij in
  if bool_decide (get2 grid i j = Some 1) then store2 grid i j (Some 0)
  else if bool_decide (i = 0%nat) && bool_decide (j = 0%nat)
  then store2 grid 0 0 (Some 1)
  else store2 grid i j
         (Arr.add (if bool_decide (0 < i)%nat then get2 grid (i - 1) j else Some 0)
                  (if bool_decide (0 < j)%nat then get2 grid i (j - 1) else Some 0)).

(** The array [obstacleGrid] after the loops; the width [obstacleGrid[0].length]
    does not change, the stores into row 0 being inside it. *)
Definition reference (data : list (list Z)) : result (list (list Arr.num)) :=
  match data with
  | [] => Throw  (* [obstacleGrid[0].length] in the final read *)
  | row0 :: _ =>
      let obstacleGrid : list (list Arr.num) :=
        (λ row : list Z, Some <$> row) <$> data in
      Ret (foldl fill obstacleGrid
                 (i ← seq 0 (length data); j ← seq 0 (length row0); [(i, j)]))
  end.

Definition solver (data : list (list Z)) (ans : string) : result bool :=
  obstacleGrid ←ᵣ reference data;
  let width := length (data !!! 0%nat) in
  let last :=
    if bool_decide (width = 0%nat) then None
    else get2 obstacleGrid (length data - 1) (width - 1) in
  Ret (Arr.same last (JS.parseInt ans)).

(** What [generate] returns: 2..12 rows of 2..12 entries, each 0 or 1. *)
Definition generated (data : list (list Z)) : Prop :=
  (2 ≤ length data ≤ 12)%nat ∧
  ∃ n, (2 ≤ n ≤ 12)%nat ∧
       Forall (λ row, length row = n ∧ Forall (λ x, x = 0 ∨ x = 1) row) data.

End UniquePathsII.

(** ** Encryption I and II *)

Module Caesar.

(** [String.fromCharCode(n)] for [0 <= n < 256]. *)
Definition fromCharCode (n : Z) : ascii := ascii_of_N (Z.to_N n).

(** [data = [plaintext, shift]]. *)
Definition state : Type := string * Z.

Fixpoint cipher (plain : string) (shift : Z) : string :=
  match plain with
  | EmptyString => EmptyString
  | String a rest =>
      String (if bool_decide (a = " "%char) then a
              else fromCharCode (Z.rem (JS.code a - 65 - shift + 26) 26 + 65))
             (cipher rest shift)
  end.

Definition solver (data : state) (ans : string) : result bool :=
  Ret (bool_decide (cipher data.1 data.2 = ans)).

(** What [generate] returns: five words of capital letters separated by
    spaces, and a shift in 1..25. *)
Definition generated (data : state) : Prop :=
  1 ≤ data.2 ≤ 25 ∧
  ∀ i c, String.get i data.1 = Some c → c = " "%char ∨ 65 ≤ JS.code c ≤ 90.

End Caesar.

Module Vigenere.

(** [data = [plaintext, keyword]]. *)
Definition state : Type := string * string.

(** [data[1].charCodeAt(i % data[1].length)]: [None] is the [NaN] of an
    empty keyword. *)
Definition key_code (key : string) (i : nat) : Arr.num :=
  if bool_decide (String.length key = 0%nat) then None
  else JS.code <$> String.get (i mod String.length key) key.

(** The character at index [i]; arithmetic on [NaN] gives [NaN], and
    [String.fromCharCode(NaN)] is the character of code 0. *)
Definition encrypt (key : string) (i : nat) (a : ascii) : ascii :=
  if bool_decide (a = " "%char) then a
  else match key_code key i with
       | Some k => Caesar.fromCharCode (Z.rem (JS.code a - 2 * 65 + k) 26 + 65)
       | None => Caesar.fromCharCode 0
       end.

Fixpoint cipher_from (key : string) (i : nat) (plain : string) : string :=
  match plain with
  | EmptyString => EmptyString
  | String a rest => String (encrypt key i a) (cipher_from key (S i) rest)
  end.

Definition solver (data : state) (ans : string) : result bool :=
  Ret (bool_decide (cipher_from data.2 0 data.1 = ans)).

(** What [generate] returns: capital letters, and a non-empty keyword of
    capital letters. *)
Definition generated (data : state) : Prop :=
  data.2 ≠ EmptyString ∧
  (∀ i c, String.get i data.1 = Some c → 65 ≤ JS.code c ≤ 90) ∧
  (∀ i c, String.get i data.2 = Some c → 65 ≤ JS.code c ≤ 90).

End Vigenere.

(** ** The kinds whose solvers call the codecs *)

(** Modelled from the spec: [HammingEncode], [HammingDecode] (of
    utils/HammingCodeTools) and [comprLZDecode], [comprLZEncode] (of
    utils/CompressionContracts) are not among the sources.  The spec makes
    every part of a solver a pure function of its arguments that never
    raises (sections 3 and 7), and describes the codecs as such functions
    (section 4.5); they enter here as functions, and nothing below depends
    on their values. *)
Record codecs : Type := {
  HammingEncode : Z → string;
  HammingDecode : string → Arr.num;
  comprLZDecode : string → string;
  comprLZEncode : string → string;
}.

Module Codec.
Section solvers.
Context (C : codecs).

(** HammingCodes: Integer to Encoded Binary *)
Definition hamming_encode_solver (data : Z) (ans : string) : result bool :=
  Ret (bool_decide (ans = HammingEncode C data)).

(** HammingCodes: Encoded Binary to Integer *)
Definition hamming_decode_solver (data ans : string) : result bool :=
  Ret (Arr.same (JS.parseInt10 ans) (HammingDecode C data)).

(** Compression II: LZ Decompression *)
Definition lz_decompression_solver (compr ans : string) : result bool :=
  Ret (bool_decide (ans = comprLZDecode C compr)).

(** Compression III: LZ Compression *)
Definition lz_compression_solver (plain ans : string) : result bool :=
  Ret (bool_decide (comprLZDecode C ans = plain)
       && bool_decide (String.length ans ≤ String.length (comprLZEncode C plain))%nat).

End solvers.
End Codec.

(** ** The registry *)

(** An entry of [codingContractTypesMetadata]: its name and solver, with the
    type of its states and the states that its [generate] can return. *)
Record CodingContractType : Type := {
  name : string;
  State : Type;
  generated : State → Prop;
  solver : State → string → result bool;
}.

Definition codingContractTypesMetadata (C : codecs) : list CodingContractType := [
  {| name := "Find Largest Prime Factor";
     generated := LargestPrimeFactor.generated;
     solver := LargestPrimeFactor.solver |};
  {| name := "Subarray with Maximum Sum";
     generated := MaxSubarray.generated;
     solver := MaxSubarray.solver |};
  {| name := "Total Ways to Sum";
     generated := TotalWays.generated;
     solver := TotalWays.solver |};
  {| name := "Total Ways to Sum II";
     generated := TotalWaysII.generated;
     solver := TotalWaysII.solver |};
  {| name := "Spiralize Matrix";
     generated := Spiralize.generated;
     solver := Spiralize.solver |};
  {| name := "Array Jumping Game";
     generated := ArrayJump.generated;
     solver := ArrayJump.solver |};
  {| name := "Array Jumping Game II";
     generated := ArrayJumpII.generated;
     solver := ArrayJumpII.solver |};
  {| name := "Merge Overlapping Intervals";
     generated := MergeIntervals.generated;
     solver := MergeIntervals.solver |};
  {| name := "Generate IP Addresses";
     generated := GenerateIP.generated;
     solver := GenerateIP.solver |};
  {| name := "Algorithmic Stock Trader I";
     generated := StockI.generated;
     solver := λ data ans, Ret (StockI.solver data ans) |};
  {| name := "Algorithmic Stock Trader II";
     generated := StockI.generated;
     solver := StockII.solver |};
  {| name := "Algorithmic Stock Trader III";
     generated := StockI.generated;
     solver := StockIII.solver |};
  {| name := "Algorithmic Stock Trader IV";
     generated := StockIV.generated;
     solver := λ data ans, Ret (StockIV.solver data ans) |};
  {| name := "Minimum Path Sum in a Triangle";
     generated := Triangle.generated;
     solver := Triangle.solver |};
  {| name := "Unique Paths in a Grid I";
     generated := UniquePathsI.generated;
     solver := UniquePathsI.solver |};
  {| name := "Unique Paths in a Grid II";
     generated := UniquePathsII.generated;
     solver := UniquePathsII.solver |};
  {| name := "Shortest Path in a Grid";
     generated := ShortestPath.generated;
     solver := ShortestPath.solver |};
  {| name := "Sanitize Parentheses in Expression";
     generated := SanitizeParentheses.generated;
     solver := λ data ans, Ret (SanitizeParentheses.solver data ans) |};
  {| name := "Find All Valid Math Expressions";
     generated := MathExpressions.generated;
     solver := MathExpressions.solver |};
  {| name := "HammingCodes: Integer to Encoded Binary";
     generated := λ data : Z, 2 ≤ data ≤ 2 ^ 57;
     solver := Codec.hamming_encode_solver C |};
  {| name := "HammingCodes: Encoded Binary to Integer";
     generated := λ _ : string, True;
     solver := Codec.hamming_decode_solver C |};
  {| name := "Proper 2-Coloring of a Graph";
     generated := TwoColoring.generated;
     solver := TwoColoring.solver |};
  {| name := "Compression I: RLE Compression";
     generated := RLE.generated;
     solver := RLE.solver |};
  {| name := "Compression II: LZ Decompression";
     generated := λ _ : string, True;
     solver := Codec.lz_decompression_solver C |};
  {| name := "Compression III: LZ Compression";
     generated := λ _ : string, True;
     solver := Codec.lz_compression_solver C |};
  {| name := "Encryption I: Caesar Cipher";
     generated := Caesar.generated;
     solver := Caesar.solver |};
  {| name := "Encryption II: Vigenère Cipher";
     generated := Vigenere.generated;
     solver := Vigenere.solver |};
  {| name := "Square Root";
     generated := SquareRoot.generated;
     solver := λ st ans, Ret (SquareRoot.solver st ans) |}
].

(** The solver of [kind] returns a boolean, without an exception and
    within the loop bounds of the model, on every state that [generate] can
    return and for every answer. *)
Definition total (kind : CodingContractType) : Prop :=
  ∀ (st : State kind) (ans : string),
    generated kind st → ∃ b : bool, solver kind st ans = Ret b.

(** ** Notions used to state what the solvers compute *)









(** The positions of Array Jumping Game that can be reached from the start:
    from [i] one jumps to any position up to [i + data[i]]. *)
Inductive reachable (data : list Z) : nat → Prop :=
  | reach_start : reachable data 0
  | reach_jump i j :
      reachable data i → (i < j < length data)%nat →
      Z.of_nat j ≤ Z.of_nat i + data !!! i →
      reachable data j.

(** Invariant of the loop of Array Jumping Game when it tests index [i]:
    the positions before [i] and those up to [reach] can be reached, and no
    jump from a position before [i] goes beyond [reach]. *)
Definition jump_inv (data : list Z) (i : nat) (reach : Z) : Prop :=
  0 ≤ reach ∧
  (∀ p, (p < i)%nat → reachable data p) ∧
  (∀ p, (p < length data)%nat → Z.of_nat p ≤ reach → reachable data p) ∧
  (∀ q p, (q < i)%nat → (q < p < length data)%nat →
          Z.of_nat p ≤ Z.of_nat q + data !!! q → Z.of_nat p ≤ reach).

(** The number [x] lies in one of the intervals. *)
Definition covers (l : list MergeIntervals.interval) (x : Z) : Prop :=
  ∃ iv, iv ∈ l ∧ iv.1 ≤ x ≤ iv.2.

(** Each interval ends before the next one starts. *)
Fixpoint separated (l : list MergeIntervals.interval) : Prop :=
  match l with
  | a :: (b :: _) as l' => a.2 < b.1 ∧ separated l'
  | _ => True
  end.

(** The intervals are in the order of their starts. *)
Fixpoint by_start (l : list MergeIntervals.interval) : Prop :=
  match l with
  | [] => True
  | a :: l' => Forall (λ b, a.1 ≤ b.1) l' ∧ by_start l'
  end.

(** Invariant of the outer loop of Find Largest Prime Factor, on [n] and
    [fac]: [n] divides [data] and has no divisor between 2 and [fac - 1];
    a prime factor of [data] is below [fac] or still divides [n]; when [n]
    is 1, the last divisor [fac - 1] was a prime factor of [data]. *)
Definition factor_inv (data n fac : Z) : Prop :=
  1 ≤ n ∧ 2 ≤ fac ∧ (n | data) ∧
  (∀ q, Z.prime q → (q | data) → q < fac ∨ (q | n)) ∧
  (∀ d, 2 ≤ d < fac → ¬ (d | n)) ∧
  (n = 1 → Z.prime (fac - 1) ∧ (fac - 1 | data)).





(** A string of capital letters and spaces, a string of capital letters. *)
Fixpoint capitals_or_spaces (s : string) : Prop :=
  match s with
  | EmptyString => True
  | String a rest => (a = " "%char ∨ 65 ≤ JS.code a ≤ 90) ∧ capitals_or_spaces rest
  end.
Fixpoint capitals (s : string) : Prop :=
  match s with
  | EmptyString => True
  | String a rest => 65 ≤ JS.code a ≤ 90 ∧ capitals rest
  end.

(** The keyword whose letters undo those of [key]: the letter at distance
    [d] from A becomes the one at distance [26 - d], A stays A. *)
Fixpoint inverse_key (key : string) : string :=
  match key with
  | EmptyString => EmptyString
  | String k rest =>
      String (Caesar.fromCharCode ((26 - (JS.code k - 65)) mod 26 + 65))
             (inverse_key rest)
  end.

(** Every distance that the search has set is the length of a walk from
    the top-left cell. *)
Definition realised (data : ShortestPath.grid)
    (distance : list (list ShortestPath.cell)) : Prop :=
  ∀ q d, ShortestPath.get2 distance q = ShortestPath.Dist d →
         ∃ ans, ShortestPath.walks data (0, 0) ans q
                ∧ Z.of_nat (String.length ans) = d.

(** The character of the digit [n], for [n] in 0..9. *)
Definition digit_char (n : nat) : ascii := Caesar.fromCharCode (48 + Z.of_nat n).

(** A run of [n] characters [c] written in chunks of nine and a last chunk
    of what is left, as the description of Compression I asks for. *)
Fixpoint encode_run (fuel : nat) (c : ascii) (n : nat) : string :=
  match fuel with
  | O => EmptyString
  | S f =>
      if decide (n = 0)%nat then EmptyString
      else if decide (n ≤ 9)%nat then String (digit_char n) (String c EmptyString)
      else String (digit_char 9) (String c (encode_run f c (n - 9)))
  end.

Fixpoint encode_runs (rs : list (ascii * nat)) : string :=
  match rs with
  | [] => EmptyString
  | (c, n) :: rs' => encode_run n c n +:+ encode_runs rs'
  end.

Definition rle_encode (plain : string) : string := encode_runs (RLE.runs plain).

(** The depth of open parentheses after the text [t], entered at depth
    [d]; [None] when a closing parenthesis has no partner. *)
Fixpoint paren_depth (t : string) (d : Z) : option Z :=
  match t with
  | EmptyString => Some d
  | String c rest =>
      if bool_decide (c = "("%char) then paren_depth rest (d + 1)
      else if bool_decide (c = ")"%char) then
        if 0 <? d then paren_depth rest (d - 1) else None
      else paren_depth rest d
  end.

(** [t] is [s] without [l] of its opening and [r] of its closing
    parentheses. *)
Inductive removed : string → string → Z → Z → Prop :=
  | removed_nil : removed EmptyString EmptyString 0 0
  | removed_keep c s t l r :
      removed s t l r → removed (String c s) (String c t) l r
  | removed_left s t l r :
      removed s t l r → removed (String "(" s) t (l + 1) r
  | removed_right s t l r :
      removed s t l r → removed (String ")" s) t l (r + 1).






(** The positions of Array Jumping Game II that can be reached from the
    start with at most [k] jumps. *)
Inductive within (data : list Z) : nat → nat → Prop :=
  | within_start k : within data k 0
  | within_jump k i j :
      within data k i → (i < j < length data)%nat →
      Z.of_nat j ≤ Z.of_nat i + data !!! i →
      within data (S k) j.

(** What one pass [for (let i = reach; i > lastJump; i--)] has found after
    the indices [seen], from the value [reach0] of [reach]. *)
Definition scan_inv (data : list Z) (reach0 : Z) (seen : list Z)
    (st : Z * Z) : Prop :=
  reach0 ≤ st.1 ∧
  (∀ i, i ∈ seen → i + data !!! Z.to_nat i ≤ st.1) ∧
  ((st.2 = -1 ∧ st.1 = reach0) ∨
   (st.2 ∈ seen ∧ st.1 = st.2 + data !!! Z.to_nat st.2 ∧ reach0 < st.1)).

(** Invariant of the loop [while (reach < n - 1)]: the positions up to
    [reach] are those within [jumps] jumps, no jump from a position up to
    [lastJump] goes beyond [reach], and fewer jumps do not reach the end. *)
Definition jumps_inv (data : list Z) (reach jumps lastJump : Z) : Prop :=
  0 ≤ reach ∧ 0 ≤ jumps ∧ -1 ≤ lastJump ≤ reach ∧
  (∀ p, (p < length data)%nat → Z.of_nat p ≤ reach →
        within data (Z.to_nat jumps) p) ∧
  (∀ p, within data (Z.to_nat jumps) p → Z.of_nat p ≤ reach) ∧
  (∀ i j, Z.of_nat i ≤ lastJump → (i < j < length data)%nat →
          Z.of_nat j ≤ Z.of_nat i + data !!! i → Z.of_nat j ≤ reach) ∧
  (∀ k, (k < Z.to_nat jumps)%nat → ¬ within data k (length data - 1)).




(** The plan that buys before every rise and sells after it. *)
Fixpoint daily_plan (data : list Z) (a len : nat) : list (nat * nat) :=
  match len with
  | O => []
  | S len' =>
      (if 0 <? data !!! S a - data !!! a then [(a, S a)] else [])
        ++ daily_plan data (S a) len'
  end.









(** The columns of a matrix, the last one first, each read from the top:
    the matrix after a quarter turn counter-clockwise. *)
Definition turn (M : list (list Z)) : list (list Z) :=
  (λ j, (λ row : list Z, row !!! j) <$> M)
    <$> reverse (seq 0 (length (M !!! 0%nat))).

(** The spiral order of a matrix: its first row, then the spiral order of
    the rest after a quarter turn; [fuel] bounds the number of turns. *)
Fixpoint spiral_order (fuel : nat) (M : list (list Z)) : list Z :=
  match fuel, M with
  | S f, row :: rest => (row ++ spiral_order f (turn rest))%list
  | _, _ => []
  end.

(** The matrix of [h] rows and [w] columns with the entries [g i j]. *)
Definition tabulate (h w : nat) (g : nat → nat → Z) : list (list Z) :=
  (λ i, g i <$> seq 0 w) <$> seq 0 h.

(** The entry [data[row][col]] of a row and a column that exist. *)
Definition cell (data : list (list Z)) (row col : Z) : Z :=
  (data !!! Z.to_nat row) !!! Z.to_nat col.

(** The part of [data] below the row [u] and right of the column [l], as a
    function of the indices inside it. *)
Definition window (data : list (list Z)) (u l : Z) (i j : nat) : Z :=
  cell data (u + Z.of_nat i) (l + Z.of_nat j).







(** * Properties *)

(** ** Sanity checks of the string primitives *)

Example parseInt10_42abc : JS.parseInt10 "42abc" = Some 42.
Proof. reflexivity. Qed.
Example parseInt_hex : JS.parseInt "0x1f" = Some 31.
Proof. reflexivity. Qed.
Example parseInt_0xyz : JS.parseInt "0xyz" = None.
Proof. reflexivity. Qed.
Example parseInt10_neg : JS.parseInt10 "  -7," = Some (-7).
Proof. reflexivity. Qed.
Example split_empty : JS.split "," "" = [""].
Proof. reflexivity. Qed.
Example split_abc : JS.split "," "a,,bc" = ["a"; ""; "bc"].
Proof. reflexivity. Qed.
Example toString_neg : JS.toString (-120) = "-120".
Proof. reflexivity. Qed.
Example BigInt_neg : JS.BigInt "-120" = Some (-120).
Proof. reflexivity. Qed.
Example trim_end_ex : JS.trim_end " 12 3  " = " 12 3".
Proof. reflexivity. Qed.
Example removeBrackets_ex : removeBracketsFromArrayString "[1,2]" = "1,2".
Proof. reflexivity. Qed.
Example removeBrackets_only : removeBracketsFromArrayString "[]" = "".
Proof. reflexivity. Qed.
Example removeQuotes_ex : removeQuotesFromString "'ab'" = "ab".
Proof. reflexivity. Qed.
Example BigInt_hex : JS.BigInt " 0x1F " = Some 31.
Proof. reflexivity. Qed.
Example BigInt_bad : JS.BigInt "12n" = None.
Proof. reflexivity. Qed.
Example BigInt_neg_hex : JS.BigInt "-0x10" = None.
Proof. reflexivity. Qed.
Example BigInt_empty : JS.BigInt "" = Some 0.
Proof. reflexivity. Qed.

(** ** Decimal text and the parsers *)

Section decimal_text.

Lemma string_app_cons c (s t : string) : String c s +:+ t = String c (s +:+ t).
Proof. reflexivity. Qed.

Lemma string_app_empty_r (s : string) : s +:+ "" = s.
Proof. induction s as [|c s IH]; [done|]. by rewrite string_app_cons, IH. Qed.

Lemma string_app_assoc (s t u : string) : (s +:+ t) +:+ u = s +:+ (t +:+ u).
Proof. induction s as [|c s IH]; [done|]. by rewrite !string_app_cons, IH. Qed.

Lemma string_app_length (s t : string) :
  String.length (s +:+ t) = (String.length s + String.length t)%nat.
Proof.
  induction s as [|c s IH]; [done|]. rewrite string_app_cons. simpl. by rewrite IH.
Qed.

Lemma digit_char_val d :
  (d < 10)%N → JS.radix_digit 10 (pretty_N_char d) = Some (Z.of_N d).
Proof.
  intros Hd.
  assert (d = 0 ∨ d = 1 ∨ d = 2 ∨ d = 3 ∨ d = 4 ∨ d = 5 ∨ d = 6 ∨ d = 7
          ∨ d = 8 ∨ d = 9)%N as Hc by lia.
  repeat (destruct Hc as [-> | Hc]; [reflexivity |]). subst d. reflexivity.
Qed.

Lemma digit_char_not_white d : JS.is_white (pretty_N_char d) = false.
Proof. unfold pretty_N_char. repeat case_match; reflexivity. Qed.

(** Parsing the digits that [pretty_N_go] puts in front of [s]. *)
Lemma pretty_go_value x s :
  JS.digits_value 10 0 (pretty_N_go x s) = JS.digits_value 10 (Z.of_N x) s.
Proof.
  revert s. induction (N.lt_wf_0 x) as [x _ IH]. intros s.
  destruct (decide (x = 0%N)) as [-> | Hx].
  - by rewrite pretty_N_go_0.
  - rewrite pretty_N_go_step by lia.
    rewrite IH by (apply N.div_lt; lia).
    simpl. rewrite digit_char_val by (apply N.mod_lt; lia).
    f_equal. rewrite (N.div_mod x 10) at 3 by lia. lia.
Qed.

Lemma pretty_go_all_digits x s :
  JS.all_digits 10 (pretty_N_go x s) = JS.all_digits 10 s.
Proof.
  revert s. induction (N.lt_wf_0 x) as [x _ IH]. intros s.
  destruct (decide (x = 0%N)) as [-> | Hx].
  - by rewrite pretty_N_go_0.
  - rewrite pretty_N_go_step by lia.
    rewrite IH by (apply N.div_lt; lia).
    simpl. rewrite digit_char_val by (apply N.mod_lt; lia).
    rewrite bool_decide_eq_true_2; eauto.
Qed.

Lemma pretty_go_app x s t : pretty_N_go x s +:+ t = pretty_N_go x (s +:+ t).
Proof.
  revert s. induction (N.lt_wf_0 x) as [x _ IH]. intros s.
  destruct (decide (x = 0%N)) as [-> | Hx].
  - by rewrite !pretty_N_go_0.
  - rewrite (pretty_N_go_step x s), (pretty_N_go_step x (s +:+ t)) by lia.
    rewrite IH by (apply N.div_lt; lia). done.
Qed.

Lemma pretty_go_head x s :
  (0 < x)%N → ∃ d r, (d < 10)%N ∧ pretty_N_go x s = String (pretty_N_char d) r.
Proof.
  revert s. induction (N.lt_wf_0 x) as [x _ IH]. intros s Hx.
  rewrite pretty_N_go_step by lia.
  destruct (decide (x `div` 10 = 0)%N) as [E | E].
  - rewrite E, pretty_N_go_0. eexists _, _. split; [|done]. by apply N.mod_lt.
  - apply IH; [apply N.div_lt; lia|].
    destruct (x `div` 10)%N; [done | lia].
Qed.

Lemma digits_value_stop R acc s : ¬ match s with
                                     | String c _ => is_Some (JS.radix_digit R c)
                                     | EmptyString => False
                                     end → JS.digits_value R acc s = acc.
Proof.
  destruct s as [|c r]; [done|]. simpl.
  destruct (JS.radix_digit R c); [|done]. intros []. eauto.
Qed.

Lemma parse_digits_pretty_go x s :
  (0 < x)%N →
  JS.parse_digits 10 (pretty_N_go x s) = Some (JS.digits_value 10 (Z.of_N x) s).
Proof.
  intros Hx. rewrite <- pretty_go_value.
  destruct (pretty_go_head x s Hx) as (d & r & Hd & ->).
  simpl. rewrite digit_char_val by done. simpl. done.
Qed.

(** The text of a natural number, followed by anything that does not start
    with a digit, parses to the number. *)
Lemma parse_digits_pretty_N (x : N) suffix :
  ¬ JS.starts_with_digit suffix →
  JS.parse_digits 10 (pretty x +:+ suffix) = Some (Z.of_N x).
Proof.
  intros Hs. unfold pretty, pretty_N. case_decide as Hx.
  - subst x. simpl. by rewrite digits_value_stop.
  - rewrite pretty_go_app. simpl.
    rewrite parse_digits_pretty_go by lia. by rewrite digits_value_stop.
Qed.

Lemma pretty_N_head (x : N) :
  ∃ d r, (d < 10)%N ∧ pretty x = String (pretty_N_char d) r.
Proof.
  unfold pretty, pretty_N. case_decide as Hx.
  - by exists 0%N, "".
  - apply pretty_go_head. lia.
Qed.

(** White space and sign of the decimal text of an integer. *)
Lemma strip_sign_toString (z : Z) suffix :
  JS.strip_sign (JS.trim_start (JS.toString z +:+ suffix))
  = (if bool_decide (z < 0) then -1 else 1, pretty (Z.abs_N z) +:+ suffix).
Proof.
  unfold JS.toString, pretty at 1, pretty_Z.
  destruct z as [|p|p]; [done|..].
  - change (pretty p) with (pretty (Npos p)). cbn [Z.abs_N].
    destruct (pretty_N_head (Npos p)) as (d & r & Hd & E).
    rewrite E, string_app_cons. cbn [JS.trim_start].
    rewrite digit_char_not_white.
    unfold pretty_N_char. by repeat case_match.
  - done.
Qed.

(** [parseInt(t + suffix, 10)] for the decimal text [t] of an integer. *)
Lemma parseInt10_toString (z : Z) suffix :
  ¬ JS.starts_with_digit suffix →
  JS.parseInt10 (JS.toString z +:+ suffix) = Some z.
Proof.
  intros Hs. unfold JS.parseInt10. rewrite strip_sign_toString.
  rewrite parse_digits_pretty_N by done. simpl. f_equal.
  case_bool_decide; lia.
Qed.

Lemma parseInt10_toString_exact (z : Z) : JS.parseInt10 (JS.toString z) = Some z.
Proof.
  pose proof (parseInt10_toString z "") as H.
  rewrite string_app_empty_r in H. apply H. simpl. tauto.
Qed.

Lemma digit10_char c :
  is_Some (JS.radix_digit 10 c) → ∃ d, (d < 10)%N ∧ c = pretty_N_char d.
Proof.
  intros [v Hv].
  destruct c as [[] [] [] [] [] [] [] []]; vm_compute in Hv; try discriminate;
    first [ by exists 0%N | by exists 1%N | by exists 2%N | by exists 3%N
          | by exists 4%N | by exists 5%N | by exists 6%N | by exists 7%N
          | by exists 8%N | by exists 9%N ].
Qed.

Lemma all_digits_trim_start s : JS.all_digits 10 s = true → JS.trim_start s = s.
Proof.
  destruct s as [|c r]; [done|]. simpl. intros [Hc _]%andb_prop.
  apply bool_decide_eq_true_1, digit10_char in Hc as (d & _ & ->).
  by rewrite digit_char_not_white.
Qed.

Lemma all_digits_trim_end s : JS.all_digits 10 s = true → JS.trim_end s = s.
Proof.
  induction s as [|c r IH]; [done|]. simpl. intros [Hc Hr]%andb_prop.
  rewrite IH by done.
  apply bool_decide_eq_true_1, digit10_char in Hc as (d & _ & ->).
  destruct r; [|done]. by rewrite digit_char_not_white.
Qed.

Lemma digit_char_plain d :
  pretty_N_char d ≠ "-"%char ∧ pretty_N_char d ≠ "+"%char ∧
  pretty_N_char d ≠ "x"%char ∧ pretty_N_char d ≠ "X"%char ∧
  pretty_N_char d ≠ "o"%char ∧ pretty_N_char d ≠ "O"%char ∧
  pretty_N_char d ≠ "b"%char ∧ pretty_N_char d ≠ "B"%char.
Proof. unfold pretty_N_char. repeat case_match; repeat split; discriminate. Qed.

Lemma radix_prefix_digits t : JS.all_digits 10 t = true → JS.radix_prefix t = None.
Proof.
  destruct t as [|c [|x r]]; [done..|]. simpl.
  intros [_ [Hx _]%andb_prop]%andb_prop.
  apply bool_decide_eq_true_1, digit10_char in Hx as (d & _ & ->).
  destruct (digit_char_plain d) as (_ & _ & ? & ? & ? & ? & ? & ?).
  case_bool_decide; [|done].
  rewrite !bool_decide_eq_false_2; [done|tauto..].
Qed.

(** [BigInt] of a non-empty string of decimal digits. *)
Lemma BigInt_digits t :
  t ≠ "" → JS.all_digits 10 t = true → JS.BigInt t = Some (JS.digits_value 10 0 t).
Proof.
  intros Hne Hd. unfold JS.BigInt.
  rewrite (all_digits_trim_start t), (all_digits_trim_end t) by done.
  destruct t as [|c r] eqn:E; [done|]. rewrite <- E in *.
  assert (is_Some (JS.radix_digit 10 c)) as (d & _ & ->)%digit10_char.
  { subst t. simpl in Hd. apply andb_prop in Hd as [Hc _].
    by apply bool_decide_eq_true_1 in Hc. }
  destruct (digit_char_plain d) as (? & ? & _).
  rewrite !bool_decide_eq_false_2 by done.
  rewrite radix_prefix_digits by done.
  unfold JS.literal. rewrite Hd. by rewrite E.
Qed.

Lemma pretty_N_digits (x : N) :
  pretty x ≠ "" ∧ JS.all_digits 10 (pretty x) = true ∧
  JS.digits_value 10 0 (pretty x) = Z.of_N x.
Proof.
  destruct (pretty_N_head x) as (d & r & _ & E). split; [by rewrite E|].
  unfold pretty, pretty_N. case_decide as Hx; [by subst x|].
  by rewrite pretty_go_all_digits, pretty_go_value.
Qed.

(** [BigInt(z.toString())] gives [z] back. *)
Lemma BigInt_toString (z : Z) : JS.BigInt (JS.toString z) = Some z.
Proof.
  unfold JS.toString, pretty, pretty_Z. destruct z as [|p|p]; [done|..].
  - change (pretty p) with (pretty (Npos p)).
    destruct (pretty_N_digits (Npos p)) as (Hne & Hd & Hv).
    by rewrite BigInt_digits, Hv.
  - change (pretty p) with (pretty (Npos p)).
    destruct (pretty_N_digits (Npos p)) as (Hne & Hd & Hv).
    unfold JS.BigInt. rewrite string_app_cons.
    change ("" +:+ pretty (N.pos p)) with (pretty (N.pos p)).
    assert (JS.trim_start (String "-" (pretty (N.pos p))) = String "-" (pretty (N.pos p))) as -> by done.
    assert (JS.trim_end (String "-" (pretty (N.pos p))) = String "-" (pretty (N.pos p))) as ->.
    { simpl. rewrite all_digits_trim_end by done.
      destruct (pretty (N.pos p)); done. }
    rewrite bool_decide_eq_true_2 by done.
    unfold JS.literal. rewrite Hd, Hv. by destruct (pretty (N.pos p)).
Qed.




End decimal_text.

(** ** Square Root *)

(** C5: [getData] is the square of [BigInt(state[0])] plus [BigInt(state[1])]
    (on the decimal texts a generator stores, [root * root + offset]); the
    solver accepts exactly the answer that is the stored root string, and its
    verdict does not depend on the offset, hence not on the displayed data. *)
Theorem square_root_spec :
  (∀ st d, SquareRoot.getData st = Some d ↔
           ∃ a b, JS.BigInt st.1 = Some a ∧ JS.BigInt st.2 = Some b ∧ d = a * a + b)
  ∧ (∀ root offset : Z,
       SquareRoot.getData (JS.toString root, JS.toString offset)
       = Some (root * root + offset))
  ∧ (∀ st ans, SquareRoot.solver st ans = true ↔ ans = st.1)
  ∧ (∀ root off1 off2 ans,
       SquareRoot.solver (root, off1) ans = SquareRoot.solver (root, off2) ans).
Proof.
  split; [|split; [|split]].
  - intros [r o] d. unfold SquareRoot.getData. simpl. split.
    + destruct (JS.BigInt r) as [a|]; [|done]. simpl.
      destruct (JS.BigInt o) as [b|]; [|done]. simpl.
      intros [= <-]. by exists a, b.
    + intros (a & b & -> & -> & ->). done.
  - intros root offset. unfold SquareRoot.getData. simpl.
    by rewrite !BigInt_toString.
  - intros st ans. unfold SquareRoot.solver.
    rewrite bool_decide_eq_true. split; congruence.
  - done.
Qed.

Example square_root_data : SquareRoot.getData ("12", "-5") = Some 139.
Proof. reflexivity. Qed.
Example square_root_accept : SquareRoot.solver ("12", "-5") "12" = true.
Proof. reflexivity. Qed.
Example square_root_reject : SquareRoot.solver ("12", "-5") "12.0" = false.
Proof. reflexivity. Qed.

(** ** Find Largest Prime Factor *)

Section largest_prime_factor.
Import LargestPrimeFactor.

Lemma divide_out_terminates fuel n fac :
  2 ≤ fac → 1 ≤ n → (Z.to_nat n < fuel)%nat →
  ∃ n', divide_out fuel n fac = Ret n' ∧ 1 ≤ n' ≤ n.
Proof.
  intros Hfac. revert n. induction fuel as [|f IH]; intros n Hn Hfuel; [lia|].
  simpl. destruct (Z.eqb_spec (Z.rem n fac) 0) as [Hrem|Hrem].
  - rewrite Z.rem_mod_nonneg in Hrem by lia.
    assert (n = fac * (n / fac)) as Hdiv.
    { rewrite (Z.div_mod n fac) at 1 by lia. lia. }
    assert (1 ≤ n / fac < n) as [? ?] by nia.
    destruct (IH (n / fac)) as (n' & -> & ?); [lia..|].
    exists n'. split; [done|lia].
  - exists n. split; [done|lia].
Qed.

Lemma factor_loop_terminates fuel n fac :
  2 ≤ fac → (Z.to_nat (n - fac + 1) < fuel)%nat →
  ∃ p, factor_loop fuel n fac = Ret p.
Proof.
  revert n fac. induction fuel as [|f IH]; intros n fac Hfac Hfuel; [lia|].
  cbn [factor_loop]. destruct (Z.ltb_spec ((fac - 1) * (fac - 1)) n) as [Hlt|Hge]; [|eauto].
  assert (fac ≤ n) by nia.
  destruct (divide_out_terminates (S (Z.to_nat n)) n fac) as (n' & E & ?); [lia..|].
  rewrite E. simpl. apply IH; lia.
Qed.

(** The reference value is always computed: the loops end within the fuel. *)
Lemma largest_total data : ∃ v, largest data = Ret v.
Proof.
  unfold largest.
  destruct (factor_loop_terminates (S (Z.to_nat data)) data 2) as ([n fac] & ->);
    [lia..|].
  simpl. eauto.
Qed.

Lemma solver_total data ans : ∃ b, solver data ans = Ret b.
Proof.
  unfold solver. destruct (largest_total data) as [v ->]. simpl. eauto.
Qed.

End largest_prime_factor.

Example largest_prime_factor_600 : LargestPrimeFactor.largest 600 = Ret 5.
Proof. vm_compute. reflexivity. Qed.
Example largest_prime_factor_997 : LargestPrimeFactor.largest 997 = Ret 997.
Proof. vm_compute. reflexivity. Qed.
Example largest_prime_factor_accepts :
  LargestPrimeFactor.solver 600 "5 apples" = Ret true.
Proof. vm_compute. reflexivity. Qed.

(** ** Integer answers: tolerant and exact comparison *)

Lemma stockIV_solver_reference data ans :
  StockIV.solver data ans
  = bool_decide (JS.parseInt ans = Some (StockIV.reference data)).
Proof.
  unfold StockIV.solver, StockIV.reference, StockIV.general_branch.
  by repeat case_bool_decide.
Qed.


Example stockI_profit : StockI.maxProfit [1; 43; 1] = 42.
Proof. reflexivity. Qed.
Example stockI_accepts_42 : StockI.solver [1; 43; 1] "42" = true.
Proof. reflexivity. Qed.
Example stockIV_reference_ex : StockIV.reference (2%nat, [1; 43; 1]) = 42.
Proof. reflexivity. Qed.
Example stockIV_dp_ex : StockIV.dp 2 [3; 2; 6; 5; 0; 3] = 7.
Proof. reflexivity. Qed.
Example stockIV_dp_ex1 : StockIV.dp 1 [3; 2; 6; 5; 0; 3] = 4.
Proof. reflexivity. Qed.




(** ** Algorithmic Stock Trader IV: the two branches agree *)

Section stock_trader_IV.
Import StockIV.








End stock_trader_IV.

Example stockIV_greedy_ex : StockIV.greedy [3; 2; 6; 5; 0; 3] = 7.
Proof. reflexivity. Qed.
Example stockIV_dp_ex4 : StockIV.dp 4 [3; 2; 6; 5; 0; 3] = 7.
Proof. reflexivity. Qed.




(** ** Compression I: RLE Compression *)

Section rle.
Import RLE.

(** Induction on a string two characters at a time, as the decoding loop
    walks it. *)
Lemma string_pair_ind (P : string → Prop) :
  P "" → (∀ c, P (String c "")) →
  (∀ d c rest, P rest → P (String d (String c rest))) →
  ∀ s, P s.
Proof.
  intros H0 H1 H2 s.
  enough (P s ∧ ∀ c, P (String c s)) by tauto.
  induction s as [|c s [IH1 IH2]]; [by split|].
  split; [apply IH2|]. intros d. by apply H2.
Qed.

Lemma digit_length_test d :
  (JS.code d - 48 <? 0) || (9 <? JS.code d - 48) = false ↔ is_digit d.
Proof.
  unfold is_digit. rewrite orb_false_iff, !Z.ltb_ge. lia.
Qed.

Lemma decode_Some ans : ∀ acc r,
  decode ans acc = Some r →
  Forall (λ p, is_digit p.1) (chunks ans) ∧ r = acc +:+ spec_decode ans.
Proof.
  induction ans as [| c | d c rest IH] using string_pair_ind; intros acc r.
  - simpl. intros [= <-]. by rewrite string_app_empty_r.
  - simpl. intros [= <-]. by rewrite string_app_empty_r.
  - cbn [decode chunks]. destruct (_ || _) eqn:E; [done|].
    apply digit_length_test in E. intros [Hf ->]%IH. split.
    + by constructor.
    + unfold spec_decode. cbn [chunks expand_chunks].
      by rewrite string_app_assoc.
Qed.

Lemma decode_digits ans : ∀ acc,
  Forall (λ p, is_digit p.1) (chunks ans) →
  decode ans acc = Some (acc +:+ spec_decode ans).
Proof.
  induction ans as [| c | d c rest IH] using string_pair_ind; intros acc.
  - simpl. by rewrite string_app_empty_r.
  - simpl. by rewrite string_app_empty_r.
  - cbn [decode chunks]. intros [Hd Hf]%Forall_cons_1. simpl in Hd.
    apply digit_length_test in Hd. rewrite Hd, IH by done.
    unfold spec_decode. cbn [chunks expand_chunks].
    by rewrite string_app_assoc.
Qed.

(** In a text of even length the characters at even indices are the length
    characters of the chunks. *)
Lemma even_index_chunks ans :
  (String.length ans mod 2 = 0)%nat →
  (∀ i c, Nat.even i = true → String.get i ans = Some c → is_digit c)
  ↔ Forall (λ p, is_digit p.1) (chunks ans).
Proof.
  induction ans as [| c | d c rest IH] using string_pair_ind; intros Hlen.
  - simpl. split; [constructor|]. intros _ i c _. by destruct i.
  - simpl in Hlen. lia.
  - cbn [chunks]. rewrite list.Forall_cons. simpl fst.
    assert (String.length rest mod 2 = 0)%nat as Hrest.
    { cbn [String.length] in Hlen.
      replace (S (S (String.length rest))) with (String.length rest + 1 * 2)%nat in Hlen by lia.
      by rewrite Nat.Div0.mod_add in Hlen. }
    rewrite <- (IH Hrest). split.
    + intros H. split; [by apply (H 0%nat)|].
      intros i x Hi Hx. by apply (H (S (S i))).
    + intros [Hd H] [|[|i]] x Hi Hx.
      * simpl in Hx. by injection Hx as <-.
      * done.
      * by apply (H i).
Qed.

(** *** The maximal runs *)

Lemma runs_cons c rest :
  runs (String c rest)
  = match runs rest with
    | (d, n) :: tl => if bool_decide (d = c) then (c, S n) :: tl
                      else (c, 1%nat) :: (d, n) :: tl
    | [] => [(c, 1%nat)]
    end.
Proof. reflexivity. Qed.

Lemma runs_head c rest : ∃ n tl, runs (String c rest) = (c, n) :: tl.
Proof.
  simpl. destruct (runs rest) as [|[d n] tl]; [by eexists _, _|].
  case_bool_decide; by eexists _, _.
Qed.

Lemma runs_expand plain : expand_runs (runs plain) = plain.
Proof.
  induction plain as [|c rest IH]; [done|]. simpl.
  destruct (runs rest) as [|[d n] tl].
  - simpl in *. by rewrite <- IH.
  - case_bool_decide as E.
    + subst d. simpl in *. by rewrite <- IH.
    + simpl in *. by rewrite <- IH.
Qed.

Lemma runs_are_maximal plain : runs_maximal (runs plain).
Proof.
  induction plain as [|c rest IH]; [done|]. simpl.
  destruct (runs rest) as [|[d n] tl]; [simpl; lia|].
  case_bool_decide as E.
  - subst d. simpl in *. destruct IH as (? & ? & ?). repeat split; (done || lia).
  - simpl in *. destruct IH as (? & ? & ?). repeat split; (done || lia || congruence).
Qed.

Lemma runs_repeat c k rest' :
  match rest' with String d _ => d ≠ c | EmptyString => True end →
  runs (String c (JS.repeat_char c k +:+ rest')) = (c, S k) :: runs rest'.
Proof.
  intros Hrest. induction k as [|k IH].
  - change (JS.repeat_char c 0 +:+ rest') with rest'.
    destruct rest' as [|d r]; [done|].
    destruct (runs_head d r) as (n & tl & E).
    rewrite runs_cons, E. by rewrite bool_decide_eq_false_2.
  - change (JS.repeat_char c (S k) +:+ rest')
      with (String c (JS.repeat_char c k +:+ rest')).
    rewrite runs_cons, IH. by rewrite bool_decide_eq_true_2.
Qed.

(** *** The loops that compute the minimum length *)

Lemma scan_run_spec c rest : ∀ n,
  ∃ k rest',
    scan_run c rest n = (n + Z.of_nat k, rest') ∧
    rest = JS.repeat_char c k +:+ rest' ∧
    match rest' with String d _ => d ≠ c | EmptyString => True end.
Proof.
  induction rest as [|d rest IH]; intros n.
  - exists 0%nat, "". simpl. split; [f_equal; lia|done].
  - simpl. case_bool_decide as E.
    + subst d. destruct (IH (n + 1)) as (k & rest' & -> & -> & H).
      exists (S k), rest'. split; [f_equal; lia|]. done.
    + exists 0%nat, (String d rest). split; [f_equal; lia|]. done.
Qed.

Lemma chunk_loop_spec fuel : ∀ run_length length,
  (Z.to_nat run_length < fuel)%nat →
  chunk_loop fuel run_length length
  = Ret (length + 2 * Z.max 0 (ceil_div run_length 9)).
Proof.
  unfold ceil_div.
  induction fuel as [|f IH]; intros run len Hfuel; [lia|].
  simpl. destruct (Z.ltb_spec 0 run) as [Hpos|Hneg].
  - rewrite IH by lia. f_equal.
    replace (run + 9 - 1) with (run - 9 + 9 - 1 + 1 * 9) by lia.
    rewrite Z.div_add by lia.
    assert (0 ≤ (run - 9 + 9 - 1) `div` 9) by (apply Z.div_pos; lia).
    lia.
  - f_equal. assert ((run + 9 - 1) `div` 9 < 1); [|lia].
    apply Z.div_lt_upper_bound; lia.
Qed.

Lemma length_loop_spec fuel : ∀ plain length,
  (String.length plain < fuel)%nat →
  length_loop fuel plain length = Ret (length + spec_min_length plain).
Proof.
  induction fuel as [|f IH]; intros plain len Hfuel; [lia|].
  destruct plain as [|c rest]; [simpl; f_equal; unfold spec_min_length; simpl; lia|].
  cbn [length_loop].
  destruct (scan_run_spec c rest 1) as (k & rest' & -> & Hrest & Hne).
  rewrite chunk_loop_spec by lia. cbn [rbind].
  subst rest. rewrite IH.
  - f_equal. unfold spec_min_length. rewrite runs_repeat by done.
    cbn [spec_min_length_of].
    assert (0 ≤ ceil_div (1 + Z.of_nat k) 9) by (apply Z.div_pos; lia).
    replace (Z.of_nat (S k)) with (1 + Z.of_nat k) by lia. lia.
  - simpl in Hfuel. rewrite string_app_length in Hfuel. lia.
Qed.

Lemma min_length_spec plain : min_length plain = Ret (spec_min_length plain).
Proof. unfold min_length. by rewrite length_loop_spec by lia. Qed.

End rle.

Example rle_runs : RLE.runs "aaaaabccc" = [("a"%char, 5%nat); ("b"%char, 1%nat); ("c"%char, 3%nat)].
Proof. reflexivity. Qed.
Example rle_min_length : RLE.min_length "zzzzzzzzzzzzzzzzzzz" = Ret 6.
Proof. reflexivity. Qed.
Example rle_accepts_split : RLE.solver "zzzzzzzzzzzzzzzzzzz" "9z8z2z" = Ret true.
Proof. reflexivity. Qed.

(** C3: the RLE solver always returns, and it accepts exactly the answers
    of even length whose characters at even indices are digits, whose
    decoding (each chunk's character repeated chunk-length times) is the
    plaintext, and whose length is at most the sum over the maximal runs of
    the plaintext of [ceil(run_length / 9) * 2]; for the plaintext
    "aaaaabccc" it accepts "5a1b3c" and rejects "5a1b2c1c". *)
Theorem rle_solver_spec :
  (∀ plain ans,
     ∃ b, RLE.solver plain ans = Ret b ∧
          (b = true ↔
           (String.length ans mod 2 = 0)%nat
           ∧ (∀ i c, Nat.even i = true → String.get i ans = Some c → RLE.is_digit c)
           ∧ RLE.spec_decode ans = plain
           ∧ Z.of_nat (String.length ans) ≤ RLE.spec_min_length plain))
  ∧ RLE.solver "aaaaabccc" "5a1b3c" = Ret true
  ∧ RLE.solver "aaaaabccc" "5a1b2c1c" = Ret false.
Proof.
  split; [|split; reflexivity].
  intros plain ans. unfold RLE.solver.
  case_bool_decide as Hlen.
  { exists false. split; [done|]. split; [done|]. intros (? & _). done. }
  assert (String.length ans mod 2 = 0)%nat as Hlen' by lia.
  destruct (RLE.decode ans "") as [r|] eqn:Hdec.
  - apply decode_Some in Hdec as [Hdig Hr].
    change ("" +:+ RLE.spec_decode ans) with (RLE.spec_decode ans) in Hr. subst r.
    case_bool_decide as Hplain.
    { exists false. split; [done|]. split; [done|]. intros (_ & _ & ? & _). done. }
    rewrite min_length_spec. cbn [rbind].
    eexists. split; [done|]. rewrite bool_decide_eq_true.
    rewrite even_index_chunks by done. tauto.
  - exists false. split; [done|]. split; [done|].
    intros (_ & Hdig & _). rewrite even_index_chunks in Hdig by done.
    by rewrite (decode_digits ans "" Hdig) in Hdec.
Qed.

(** The runs used by the specification are the maximal runs of the text. *)
Lemma rle_runs_sound plain :
  RLE.expand_runs (RLE.runs plain) = plain ∧ RLE.runs_maximal (RLE.runs plain).
Proof. split; [apply runs_expand | apply runs_are_maximal]. Qed.

(** ** Proper 2-Coloring of a Graph *)

Section two_coloring.
Import TwoColoring.

Implicit Types (m : gmap nat Z) (F : list nat) (edges : list (nat * nat)).

Lemma elem_of_neighbourhood edges v u :
  u ∈ neighbourhood edges v ↔ (v, u) ∈ edges ∨ (u, v) ∈ edges.
Proof.
  unfold neighbourhood. rewrite elem_of_app, !list_elem_of_fmap. split.
  - intros [Hl|Hr]; [destruct Hl as ([a b] & Hu & Hf)|destruct Hr as ([a b] & Hu & Hf)];
      apply list_elem_of_filter in Hf as [E Hin]; simpl in *; subst; auto.
  - intros [H|H]; [left; exists (v, u) | right; exists (u, v)];
      (split; [done|]); apply list_elem_of_filter; done.
Qed.

Lemma size_list_to_set_le (l : list nat) :
  (size (list_to_set l : gset nat) ≤ length l)%nat.
Proof.
  induction l as [|x l IH]; [by rewrite list_to_set_nil, size_empty|].
  rewrite list_to_set_cons, size_union_alt, size_singleton. simpl.
  assert ((list_to_set l : gset nat) ∖ {[x]} ⊆ list_to_set l) as Hs
    by apply subseteq_difference_l, reflexivity.
  pose proof (subseteq_size _ _ Hs). lia.
Qed.

Lemma size_universe data : (size (universe data) + 2 ≤ fuel_bound data)%nat.
Proof.
  unfold universe, fuel_bound.
  pose proof (size_list_to_set_le (seq 0 data.1 ++ data.2.*1 ++ data.2.*2)) as H.
  rewrite !length_app, length_seq, !length_fmap in H. lia.
Qed.

Lemma neighbourhood_universe data v u :
  u ∈ neighbourhood data.2 v → u ∈ universe data.
Proof.
  rewrite elem_of_neighbourhood. unfold universe.
  rewrite elem_of_list_to_set, !elem_of_app, !list_elem_of_fmap.
  intros [H|H]; right; [right; by exists (v, u) | left; by exists (u, v)].
Qed.

Lemma size_dom_insert_fresh m u c :
  m !! u = None → size (dom (<[u := c]> m)) = S (size (dom m)).
Proof.
  intros H. rewrite dom_insert_L, size_union, size_singleton; [done|].
  apply not_elem_of_dom in H. set_solver.
Qed.

(** One round over the neighbours of [v]: what it colours it pushes. *)
Lemma visit_progress (U : gset nat) v nbrs : ∀ m F m' F',
  (∀ u, u ∈ nbrs → u ∈ U) → dom m ⊆ U →
  visit v nbrs m F = inr (m', F') →
  dom m ⊆ dom m' ∧ dom m' ⊆ U ∧
  (size (dom m') + length F = size (dom m) + length F')%nat.
Proof.
  induction nbrs as [|u nbrs IH]; intros m F m' F' Hn Hm.
  { simpl. intros [= <- <-]. done. }
  simpl. destruct (m !! u) as [cu|] eqn:Hu.
  - case_bool_decide; [done|]. apply IH; [|done].
    intros w Hw. apply Hn. by right.
  - intros Hv. apply IH in Hv as (H1 & H2 & H3).
    + rewrite size_dom_insert_fresh in H3 by done. simpl in H3.
      split; [|split; [done|lia]].
      etrans; [apply (dom_insert_subseteq m u)|done].
    + intros w Hw. apply Hn. by right.
    + rewrite dom_insert_L. apply union_least; [|done].
      apply singleton_subseteq_l, Hn. by left.
Qed.

Lemma propagate_terminates data fuel : ∀ m F,
  dom m ⊆ universe data →
  (size (universe data) - size (dom m) + length F < fuel)%nat →
  ∃ r, propagate fuel data.2 m F = Ret r ∧
       ∀ m', r = inr m' → dom m ⊆ dom m' ∧ dom m' ⊆ universe data.
Proof.
  induction fuel as [|f IH]; intros m F Hm Hfuel; [lia|].
  destruct F as [|v F]; [exists (inr m); split; [done|]; by intros ? [= <-]|].
  cbn [propagate].
  destruct (visit v (neighbourhood data.2 v) m F) as [c|[m1 F1]] eqn:Hv.
  { exists (inl c). done. }
  apply (visit_progress (universe data)) in Hv as (H1 & H2 & H3);
    [|intros u; apply neighbourhood_universe|done].
  pose proof (subseteq_size _ _ H2). pose proof (subseteq_size _ _ Hm).
  destruct (IH m1 F1) as (r & -> & Hr); [done|simpl in Hfuel; lia|].
  exists r. split; [done|]. intros m' E. destruct (Hr m' E). split; [|done].
  by etrans.
Qed.

Lemma first_uncolored_Some n m i :
  first_uncolored n m = Some i → (i < n)%nat ∧ m !! i = None.
Proof.
  unfold first_uncolored. intros [Hin Hb]%find_some.
  apply in_seq in Hin. apply bool_decide_eq_true_1 in Hb. split; [lia|done].
Qed.

Lemma first_uncolored_None n m i :
  first_uncolored n m = None → (i < n)%nat → is_Some (m !! i).
Proof.
  unfold first_uncolored. intros H Hi.
  pose proof (find_none _ _ H i) as Hb. simpl in Hb.
  rewrite bool_decide_eq_false in Hb.
  destruct (m !! i); [eauto|]. exfalso. apply Hb; [|done]. apply in_seq. lia.
Qed.

Lemma below_n_universe data i : (i < data.1)%nat → i ∈ universe data.
Proof.
  intros Hi. unfold universe. rewrite elem_of_list_to_set, elem_of_app.
  left. apply list_elem_of_In, in_seq. lia.
Qed.

Lemma components_terminates data fuel : ∀ m,
  dom m ⊆ universe data →
  (size (universe data) - size (dom m) < fuel)%nat →
  ∃ r, components fuel data m = Ret r.
Proof.
  induction fuel as [|f IH]; intros m Hm Hfuel; [lia|].
  cbn [components].
  destruct (first_uncolored data.1 m) as [i|] eqn:Hi; [|eauto].
  apply first_uncolored_Some in Hi as [Hi Hmi].
  assert (dom (<[i := 0]> m) ⊆ universe data) as Hm1.
  { rewrite dom_insert_L. apply union_least; [|done].
    by apply singleton_subseteq_l, below_n_universe. }
  pose proof (size_universe data).
  pose proof (subseteq_size _ _ Hm1) as Hs1.
  rewrite size_dom_insert_fresh in Hs1 by done.
  destruct (propagate_terminates data (fuel_bound data) (<[i := 0]> m) [i])
    as (r & -> & Hr); [done| simpl; lia|].
  cbn [rbind]. destruct r as [c|m']; [eauto|].
  destruct (Hr m' eq_refl) as [H1 H2].
  apply IH; [done|].
  pose proof (subseteq_size _ _ H1) as Hs2. pose proof (subseteq_size _ _ H2).
  rewrite size_dom_insert_fresh in Hs2 by done. lia.
Qed.

(** The attempt always ends within the fuel. *)
Lemma greedy_total data : ∃ r, greedy data = Ret r.
Proof.
  unfold greedy. apply components_terminates.
  - rewrite dom_empty_L. set_solver.
  - pose proof (size_universe data). rewrite dom_empty_L, size_empty. lia.
Qed.

(** *** What a conflict is *)





(** *** The attempt decides 2-colourability *)

Lemma neighbourhood_sym edges u v :
  u ∈ neighbourhood edges v ↔ v ∈ neighbourhood edges u.
Proof. rewrite !elem_of_neighbourhood. tauto. Qed.

Lemma proper_neighbour edges c u v :
  proper edges c → u ∈ neighbourhood edges v → c u = negb (c v).
Proof.
  intros Hc [H|H]%elem_of_neighbourhood; apply Hc in H;
    destruct (c u), (c v); done.
Qed.

Lemma differ_mono m m' u w : m ⊆ m' → differ m u w → differ m' u w.
Proof.
  intros Hsub (x & y & Hx & Hy & Hne). exists x, y.
  split; [|split; [|done]]; by eapply lookup_weaken.
Qed.

Lemma closed_mono edges m m' u : m ⊆ m' → closed edges m u → closed edges m' u.
Proof. intros Hsub H w Hw. eapply differ_mono; [done|]. by apply H. Qed.

(** One round over the neighbours of [v], which has a colour: either a
    conflict, which no proper 2-coloring that agrees with the colours of
    the stack and of [v] allows, or the neighbours now differ from [v]. *)
Lemma visit_invariant edges v nbrs : ∀ m F,
  two_colors m →
  (∀ w, w ∈ nbrs → w ∈ neighbourhood edges v) →
  (∀ u, is_Some (m !! u) → u ∉ F → u ≠ v → closed edges m u) →
  (∀ w, w ∈ F → is_Some (m !! w)) →
  is_Some (m !! v) →
  match visit v nbrs m F with
  | inl _ =>
      ∀ c s, proper edges c → (∀ w, w ∈ v :: F → agrees c s m w) → False
  | inr (m', F') =>
      m ⊆ m' ∧ two_colors m' ∧
      (∀ w, w ∈ nbrs → differ m' v w) ∧
      (∀ u, is_Some (m' !! u) → u ∉ F' → u ≠ v → closed edges m' u) ∧
      (∀ w, w ∈ F' → is_Some (m' !! w)) ∧
      (∀ c s, proper edges c → (∀ w, w ∈ v :: F → agrees c s m w) →
              ∀ w, w ∈ v :: F' → agrees c s m' w)
  end.
Proof.
  induction nbrs as [|u nbrs IH]; intros m F H2 Hn Hcl HF [cv Hv].
  { simpl. repeat split; try done. intros w Hw. by apply elem_of_nil in Hw. }
  assert (u ∈ neighbourhood edges v) as Hu by (apply Hn; by left).
  assert (∀ w, w ∈ nbrs → w ∈ neighbourhood edges v) as Hn'
    by (intros w Hw; apply Hn; by right).
  cbn [visit]. destruct (m !! u) as [cu|] eqn:Hmu.
  - case_bool_decide as Heq.
    + (* conflict *)
      intros c s Hc Hag. rewrite Hv in Heq. injection Heq as ->.
      pose proof (proper_neighbour _ _ _ _ Hc Hu) as Hcu.
      destruct (decide (u = v)) as [-> | Hne]; [by destruct (c v)|].
      destruct (decide (u ∈ F)) as [HuF | HuF].
      * pose proof (Hag u ltac:(by right)) as Hau.
        pose proof (Hag v ltac:(by left)) as Hav.
        unfold agrees in Hau, Hav. rewrite Hmu in Hau. rewrite Hv in Hav.
        rewrite Hcu in Hau. destruct (c v), s; simpl in *; congruence.
      * destruct (Hcl u ltac:(eauto) HuF Hne v) as (x & y & Hx & Hy & Hxy).
        { by apply neighbourhood_sym. }
        congruence.
    + specialize (IH m F H2 Hn' Hcl HF ltac:(eauto)).
      destruct (visit v nbrs m F) as [cf|[m' F']]; [done|].
      destruct IH as (Hsub & H2' & Hd & Hcl' & HF' & Hag).
      repeat split; try done.
      intros w [-> | Hw]%elem_of_cons; [|by apply Hd].
      exists cv, cu. split; [by eapply lookup_weaken|].
      split; [by eapply lookup_weaken|]. congruence.
  - set (cnew := if bool_decide (m !! v = Some 0) then 1 else 0).
    assert (u ≠ v) as Hne by congruence.
    assert (m ⊆ <[u := cnew]> m) as Hsub0 by (by apply insert_subseteq).
    assert (cnew ≠ cv ∧ (cnew = 0 ∨ cnew = 1)) as [Hcnew Hc01].
    { unfold cnew. rewrite Hv. case_bool_decide as E; [injection E as ->|]; split; try lia.
      destruct (H2 v cv Hv); [congruence|lia]. }
    assert (two_colors (<[u := cnew]> m)) as P1.
    { intros w x. rewrite lookup_insert. case_decide; [by intros [= <-]|apply H2]. }
    assert (∀ u0, is_Some (<[u := cnew]> m !! u0) → u0 ∉ u :: F → u0 ≠ v →
                  closed edges (<[u := cnew]> m) u0) as P3.
    { intros w Hw Hw1 Hw2. apply not_elem_of_cons in Hw1 as [Hwu Hw1].
      rewrite lookup_insert_ne in Hw by done.
      eapply closed_mono; [done|]. by apply Hcl. }
    assert (∀ w, w ∈ u :: F → is_Some (<[u := cnew]> m !! w)) as P4.
    { intros w [-> | Hw]%elem_of_cons; [rewrite lookup_insert_eq; eauto|].
      destruct (HF w Hw) as [x Hx]. exists x. by eapply lookup_weaken. }
    assert (is_Some (<[u := cnew]> m !! v)) as P5.
    { rewrite lookup_insert_ne by done. eauto. }
    assert (∀ c s, proper edges c → (∀ w, w ∈ v :: F → agrees c s m w) →
                   ∀ w, w ∈ v :: u :: F → agrees c s (<[u := cnew]> m) w) as Pag.
    { intros c s Hc Hag w Hw. unfold agrees.
      pose proof (Hag v ltac:(by left)) as Hav. unfold agrees in Hav.
      destruct (decide (w = u)) as [-> | Hwu].
      - rewrite lookup_insert_eq. f_equal.
        rewrite (proper_neighbour _ _ _ _ Hc Hu).
        unfold cnew. rewrite Hav.
        destruct (c v), s; simpl;
          by rewrite ?bool_decide_eq_true_2, ?bool_decide_eq_false_2.
      - rewrite lookup_insert_ne by done. apply Hag.
        apply elem_of_cons in Hw as [-> | [-> | Hw]%elem_of_cons];
          [by left | done | by right]. }
    specialize (IH (<[u := cnew]> m) (u :: F) P1 Hn' P3 P4 P5).
    destruct (visit v nbrs (<[u := cnew]> m) (u :: F)) as [cf|[m' F']] eqn:Hvis.
    + intros c s Hc Hag. eapply IH; [done|]. by apply Pag.
    + destruct IH as (Hsub & H2' & Hd & Hcl' & HF' & Hag).
      split; [by etrans|]. split; [done|]. split; [|split; [done|split; [done|]]].
      * intros w [-> | Hw]%elem_of_cons; [|by apply Hd].
        exists cv, cnew.
        split; [eapply lookup_weaken; [|done]; by rewrite lookup_insert_ne|].
        split; [eapply lookup_weaken; [|done]; by rewrite lookup_insert_eq|].
        congruence.
      * intros c s Hc Hag0. apply Hag; [done|]. by apply Pag.
Qed.

Lemma propagate_invariant edges fuel : ∀ m F,
  two_colors m →
  (∀ u, is_Some (m !! u) → u ∉ F → closed edges m u) →
  (∀ w, w ∈ F → is_Some (m !! w)) →
  match propagate fuel edges m F with
  | Ret (inl _) =>
      ∀ c s, proper edges c → (∀ w, w ∈ F → agrees c s m w) → False
  | Ret (inr m') =>
      m ⊆ m' ∧ two_colors m' ∧ ∀ u, is_Some (m' !! u) → closed edges m' u
  | _ => True
  end.
Proof.
  induction fuel as [|f IH]; intros m F H2 Hcl HF; [done|].
  destruct F as [|v F].
  { simpl. split; [done|]. split; [done|]. intros u Hu. apply Hcl; [done|].
    apply not_elem_of_nil. }
  cbn [propagate].
  pose proof (visit_invariant edges v (neighbourhood edges v) m F H2) as Hvis.
  destruct (visit v (neighbourhood edges v) m F) as [cf|[m1 F1]].
  - apply Hvis; [done| |intros w Hw; apply HF; by right|apply HF; by left].
    intros u Hu HuF Huv. apply Hcl; [done|]. by apply not_elem_of_cons.
  - destruct Hvis as (Hsub & H2' & Hd & Hcl' & HF' & Hag);
      [done| |intros w Hw; apply HF; by right|apply HF; by left|].
    { intros u Hu HuF Huv. apply Hcl; [done|]. by apply not_elem_of_cons. }
    specialize (IH m1 F1 H2').
    destruct (propagate f edges m1 F1) as [[cf|m']| |]; [| |done..].
    + intros c s Hc Hag0. eapply IH; [| done | done |].
      * intros u Hu HuF. destruct (decide (u = v)) as [-> | Huv]; [|by apply Hcl'].
        intros w Hw. by apply Hd.
      * intros w Hw. apply (Hag c s Hc Hag0). by right.
    + destruct IH as (Hsub' & H2'' & Hcl''); [|done|].
      * intros u Hu HuF. destruct (decide (u = v)) as [-> | Huv]; [|by apply Hcl'].
        intros w Hw. by apply Hd.
      * split; [by etrans|done].
Qed.

Lemma components_invariant data fuel : ∀ m,
  two_colors m →
  (∀ u, is_Some (m !! u) → closed data.2 m u) →
  match components fuel data m with
  | Ret (inl _) => ∀ c, proper data.2 c → False
  | Ret (inr m') =>
      two_colors m' ∧ (∀ u, is_Some (m' !! u) → closed data.2 m' u) ∧
      ∀ i, (i < data.1)%nat → is_Some (m' !! i)
  | _ => True
  end.
Proof.
  induction fuel as [|f IH]; intros m H2 Hcl; [done|].
  cbn [components].
  destruct (first_uncolored data.1 m) as [i|] eqn:Hi.
  2:{ split; [done|]. split; [done|]. intros i. by apply first_uncolored_None. }
  apply first_uncolored_Some in Hi as [Hi Hmi].
  assert (two_colors (<[i := 0]> m)) as P1.
  { intros w x. rewrite lookup_insert. case_decide; [intros [= <-]; by left|apply H2]. }
  assert (∀ u, is_Some (<[i := 0]> m !! u) → u ∉ [i] →
               closed data.2 (<[i := 0]> m) u) as P2.
  { intros u Hu Hui. rewrite list_elem_of_singleton in Hui.
    rewrite lookup_insert_ne in Hu by done.
    eapply closed_mono; [by apply insert_subseteq|]. by apply Hcl. }
  assert (∀ w, w ∈ [i] → is_Some (<[i := 0]> m !! w)) as P3.
  { intros w ->%list_elem_of_singleton. rewrite lookup_insert_eq. eauto. }
  pose proof (propagate_invariant data.2 (fuel_bound data) (<[i := 0]> m) [i]
                P1 P2 P3) as Hp.
  destruct (propagate (fuel_bound data) data.2 (<[i := 0]> m) [i])
    as [[cf|m']| |]; cbn [rbind]; [| |done..].
  - intros c Hc. apply (Hp c (c i) Hc).
    intros w ->%list_elem_of_singleton. unfold agrees.
    rewrite lookup_insert_eq. by destruct (c i).
  - destruct Hp as (Hsub & H2' & Hcl'). by apply IH.
Qed.

(** On a well-formed state the attempt ends in a conflict exactly when the
    graph has no proper 2-coloring. *)
Lemma greedy_decides data :
  well_formed data →
  ∃ r, greedy data = Ret r ∧
       (is_conflict r = true ↔ ¬ ∃ c, proper data.2 c).
Proof.
  intros Hwf. destruct (greedy_total data) as [r Hr]. exists r. split; [done|].
  pose proof (components_invariant data (fuel_bound data) ∅) as Hinv.
  unfold greedy in Hr. rewrite Hr in Hinv.
  destruct r as [cf|m']; simpl.
  - split; [|done]. intros _ [c Hc]. eapply Hinv; [| |done].
    + intros u x. by rewrite lookup_empty.
    + intros u [x Hx]. by rewrite lookup_empty in Hx.
  - split; [done|]. intros Hno. exfalso. apply Hno.
    destruct Hinv as (H2 & Hcl & Hall).
    { intros u x. by rewrite lookup_empty. }
    { intros u [x Hx]. by rewrite lookup_empty in Hx. }
    exists (λ u, bool_decide (m' !! u = Some 1)).
    intros a b Hab. destruct (Hwf a b Hab) as [Ha Hb].
    destruct (Hcl a (Hall a Ha) b) as (x & y & Hx & Hy & Hxy).
    { apply elem_of_neighbourhood. by left. }
    rewrite Hx, Hy.
    destruct (H2 a x Hx) as [-> | ->], (H2 b y Hy) as [-> | ->]; done.
Qed.

(** *** The check of a submitted colouring *)

Lemma valid_color_spec x :
  valid_color x = true ↔ ∃ c, x = Some (Some c) ∧ (c = 0 ∨ c = 1).
Proof.
  unfold valid_color. rewrite bool_decide_eq_true. split.
  - intros [-> | ->]; eexists; (split; [done|]); auto.
  - intros (c & -> & [-> | ->]); auto.
Qed.

Lemma edge_ok_spec coloring a b :
  edge_ok coloring (a, b) = true ↔
  ∃ ca cb, coloring !! a = Some (Some ca) ∧ coloring !! b = Some (Some cb) ∧
           (ca = 0 ∨ ca = 1) ∧ (cb = 0 ∨ cb = 1) ∧ ca ≠ cb.
Proof.
  unfold edge_ok. cbn [fst snd].
  rewrite !andb_true_iff, !valid_color_spec, bool_decide_eq_true. split.
  - intros [[(ca & Ha & Hca) (cb & Hb & Hcb)] Hne].
    exists ca, cb. rewrite Ha, Hb in Hne |- *. repeat split; try done. congruence.
  - intros (ca & cb & Ha & Hb & Hca & Hcb & Hne). rewrite Ha, Hb.
    repeat split; eauto. congruence.
Qed.

Lemma edge_ok_agree c1 c2 e :
  c1 !! e.1 = c2 !! e.1 → c1 !! e.2 = c2 !! e.2 → edge_ok c1 e = edge_ok c2 e.
Proof. unfold edge_ok. by intros -> ->. Qed.

End two_coloring.

Example two_coloring_triangle :
  TwoColoring.solver (3%nat, [(0, 1); (0, 2); (1, 2)]%nat) "[]" = Ret true.
Proof. vm_compute. reflexivity. Qed.
Example two_coloring_square_no :
  TwoColoring.solver (4%nat, [(0, 2); (0, 3); (1, 2); (1, 3)]%nat) "[]" = Ret false.
Proof. vm_compute. reflexivity. Qed.
Example two_coloring_swapped :
  TwoColoring.solver (4%nat, [(0, 2); (0, 3); (1, 2); (1, 3)]%nat) "[1,1,0,0]" = Ret true.
Proof. vm_compute. reflexivity. Qed.



(** The solver's verdict on an empty answer is the truth about the graph:
    on a state whose edges join vertices below [n], it returns true exactly
    when no proper 2-coloring exists. *)
Theorem two_coloring_empty_answer_sound n edges ans :
  TwoColoring.well_formed (n, edges) →
  removeBracketsFromArrayString ans = "" →
  ∃ b, TwoColoring.solver (n, edges) ans = Ret b ∧
       (b = true ↔ ¬ ∃ c, TwoColoring.proper edges c).
Proof.
  intros Hwf Hans. destruct (greedy_decides (n, edges) Hwf) as (r & Hr & Hiff).
  exists (TwoColoring.is_conflict r). split; [|done].
  unfold TwoColoring.solver. rewrite bool_decide_eq_true_2 by done.
  rewrite Hr. by destruct r.
Qed.

(** C10: two submitted colourings of length [n] that agree at both
    endpoints of every edge get the same verdict, whatever their entries
    at the vertices that are on no edge: other integers, or tokens that
    parse to NaN. *)
Theorem two_coloring_unconstrained n edges ans1 ans2 :
  removeBracketsFromArrayString ans1 ≠ "" →
  removeBracketsFromArrayString ans2 ≠ "" →
  let c1 := JS.parseInt <$> JS.split "," (removeBracketsFromArrayString ans1) in
  let c2 := JS.parseInt <$> JS.split "," (removeBracketsFromArrayString ans2) in
  length c1 = n → length c2 = n →
  Forall (λ e, c1 !! e.1 = c2 !! e.1 ∧ c1 !! e.2 = c2 !! e.2) edges →
  TwoColoring.solver (n, edges) ans1 = TwoColoring.solver (n, edges) ans2.
Proof.
  intros H1 H2 c1 c2 Hl1 Hl2 Hag. unfold TwoColoring.solver.
  rewrite (bool_decide_eq_false_2 _ H1), (bool_decide_eq_false_2 _ H2).
  cbn [fst snd]. fold c1 c2.
  rewrite (bool_decide_eq_true_2 _ Hl1), (bool_decide_eq_true_2 _ Hl2). f_equal.
  induction Hag as [|e edges [Ha Hb] _ IH]; [done|].
  simpl. by rewrite IH, (edge_ok_agree c1 c2 e).
Qed.

Lemma two_coloring_unconstrained_witness :
  TwoColoring.solver (3%nat, [(0, 1)]%nat) "[0,1,7]"
  = TwoColoring.solver (3%nat, [(0, 1)]%nat) "[0,1,x]".
Proof.
  apply (two_coloring_unconstrained 3 [(0, 1)]%nat "[0,1,7]" "[0,1,x]").
  - vm_compute. discriminate.
  - vm_compute. discriminate.
  - reflexivity.
  - reflexivity.
  - repeat constructor.
Defined.

(** ** Shortest Path in a Grid *)

Section shortest_path.
Import ShortestPath.

Implicit Types (D : list (list cell)) (Q : list pos) (p q : pos).

(** *** Reads and writes of the array [distance] *)

Section array.
Context (H W : nat).

Lemma dims_lookup D p :
  dims H W D → in_range (Z.of_nat H) (Z.of_nat W) p →
  ∃ row, D !! Z.to_nat p.1 = Some row ∧ length row = W ∧
         (Z.to_nat p.2 < length row)%nat.
Proof.
  intros [Hlen Hrows] [Hy Hx].
  destruct (lookup_lt_is_Some_2 D (Z.to_nat p.1)) as [row Hrow]; [lia|].
  exists row. split; [done|].
  assert (length row = W) as Hr
    by (by apply (Forall_lookup_1 _ _ _ _ Hrows Hrow)).
  split; [done|lia].
Qed.

Lemma dims_set2 D p v :
  dims H W D → in_range (Z.of_nat H) (Z.of_nat W) p → dims H W (set2 D p v).
Proof.
  intros Hd Hp. destruct (dims_lookup D p Hd Hp) as (row & Hrow & Hr & Hx).
  destruct Hd as [Hlen Hrows]. unfold set2. rewrite Hrow. split.
  - by rewrite length_insert.
  - apply Forall_insert; [done|]. unfold row_store.
    rewrite decide_True by done. by rewrite length_insert.
Qed.

Lemma get2_set2_eq D p v :
  dims H W D → in_range (Z.of_nat H) (Z.of_nat W) p → get2 (set2 D p v) p = v.
Proof.
  intros Hd Hp. destruct (dims_lookup D p Hd Hp) as (row & Hrow & Hr & Hx).
  destruct Hp as [Hy Hx']. unfold get2, set2. rewrite Hrow.
  destruct (Z.ltb_spec p.1 0); [lia|]. destruct (Z.ltb_spec p.2 0); [lia|].
  simpl. rewrite list_lookup_insert_eq by (by eapply lookup_lt_Some).
  simpl. unfold row_store. rewrite decide_True by done.
  by rewrite list_lookup_insert_eq.
Qed.

Lemma get2_set2_ne D p q v :
  dims H W D → in_range (Z.of_nat H) (Z.of_nat W) p → q ≠ p →
  get2 (set2 D p v) q = get2 D q.
Proof.
  intros Hd Hp Hne. destruct (dims_lookup D p Hd Hp) as (row & Hrow & Hr & Hx).
  destruct Hp as [Hy Hx']. unfold get2, set2. rewrite Hrow.
  destruct (_ || _) eqn:Hneg; [done|].
  apply orb_false_iff in Hneg as [Hq1%Z.ltb_ge Hq2%Z.ltb_ge].
  destruct (decide (Z.to_nat q.1 = Z.to_nat p.1)) as [E1|E1].
  - rewrite E1, list_lookup_insert_eq by (by eapply lookup_lt_Some).
    rewrite Hrow. simpl. unfold row_store. rewrite decide_True by done.
    rewrite list_lookup_insert_ne; [done|].
    intros E2. apply Hne. destruct p, q; simpl in *. f_equal; lia.
  - by rewrite list_lookup_insert_ne.
Qed.

Lemma count_row_insert (row : list cell) x v :
  row !! x = Some Infinity → v ≠ Infinity →
  S (length (filter (λ c, c = Infinity) (<[x := v]> row)))
  = length (filter (λ c, c = Infinity) row).
Proof.
  intros Hx Hv. pose proof (lookup_lt_Some _ _ _ Hx) as Hlt.
  rewrite insert_take_drop by done.
  rewrite <- (take_drop_middle row x Infinity Hx) at 3.
  rewrite !filter_app, !filter_cons, !length_app.
  rewrite decide_False by done. rewrite decide_True by done. simpl. lia.
Qed.

Lemma count_inf_set2 D p v :
  dims H W D → in_range (Z.of_nat H) (Z.of_nat W) p →
  get2 D p = Infinity → v ≠ Infinity →
  S (count_inf (set2 D p v)) = count_inf D.
Proof.
  intros Hd Hp Hget Hv.
  destruct (dims_lookup D p Hd Hp) as (row & Hrow & Hr & Hx).
  destruct Hp as [Hy Hx']. unfold get2 in Hget. rewrite Hrow in Hget.
  destruct (Z.ltb_spec p.1 0); [lia|]. destruct (Z.ltb_spec p.2 0); [lia|].
  simpl in Hget.
  destruct (row !! Z.to_nat p.2) as [c|] eqn:Hc; simpl in Hget; [subst c|done].
  unfold set2, count_inf. rewrite Hrow.
  pose proof (lookup_lt_Some _ _ _ Hrow) as Hlt.
  rewrite insert_take_drop by done.
  rewrite <- (take_drop_middle D _ row Hrow) at 3.
  rewrite !sum_list_with_app. cbn [sum_list_with].
  unfold row_store. rewrite decide_True by done.
  pose proof (count_row_insert row (Z.to_nat p.2) v Hc Hv). lia.
Qed.

Lemma count_row_replicate w :
  length (filter (λ c, c = Infinity) (replicate w Infinity)) = w.
Proof.
  induction w as [|w IHw]; [done|].
  cbn [replicate]. rewrite filter_cons, decide_True by done. simpl. by f_equal.
Qed.

Lemma count_inf_replicate h w :
  count_inf (replicate h (replicate w Infinity)) = (h * w)%nat.
Proof.
  unfold count_inf. induction h as [|h IH]; [done|].
  cbn [replicate sum_list_with]. rewrite IH, count_row_replicate. lia.
Qed.

Lemma dims_replicate (c : cell) : dims H W (replicate H (replicate W c)).
Proof.
  split; [by rewrite length_replicate|].
  apply Forall_replicate. by rewrite length_replicate.
Qed.

Lemma get2_replicate p :
  in_range (Z.of_nat H) (Z.of_nat W) p →
  get2 (replicate H (replicate W Infinity)) p = Infinity.
Proof.
  intros [Hy Hx]. unfold get2.
  destruct (Z.ltb_spec p.1 0); [lia|]. destruct (Z.ltb_spec p.2 0); [lia|].
  simpl. rewrite lookup_replicate_2 by lia. simpl.
  by rewrite lookup_replicate_2 by lia.
Qed.

(** Inside the array every entry is [Infinity] or a distance. *)
Lemma get2_out_of_range D p :
  dims H W D → ¬ in_range (Z.of_nat H) (Z.of_nat W) p → get2 D p = NotNumber.
Proof.
  intros [Hlen Hrows] Hp. unfold get2, in_range in *.
  destruct (Z.ltb_spec p.1 0); [done|]. destruct (Z.ltb_spec p.2 0); [done|].
  simpl. destruct (D !! Z.to_nat p.1) as [row|] eqn:Hrow; [|done]. simpl.
  pose proof (lookup_lt_Some _ _ _ Hrow).
  pose proof (Forall_lookup_1 _ _ _ _ Hrows Hrow) as Hr. simpl in Hr.
  rewrite lookup_ge_None_2; [done|]. lia.
Qed.

End array.
(** *** The search *)

Section search.
Context (data : grid) (H W : nat).

Local Abbreviation valid := (validPosition data (Z.of_nat W) (Z.of_nat H)).
Local Abbreviation nbrs := (neighbors data (Z.of_nat W) (Z.of_nat H)).
Local Abbreviation inside := (in_range (Z.of_nat H) (Z.of_nat W)).

Lemma valid_inside p : valid p = true → inside p.
Proof.
  unfold validPosition, in_range.
  rewrite !andb_true_iff, !Z.leb_le, !Z.ltb_lt. tauto.
Qed.

Lemma elem_of_nbrs p q : q ∈ nbrs p → valid q = true.
Proof. unfold neighbors. by intros [? _]%list_elem_of_filter. Qed.

Lemma extends_refl D : extends D D.
Proof. by intros p d. Qed.

Lemma extends_trans D1 D2 D3 : extends D1 D2 → extends D2 D3 → extends D1 D3.
Proof. intros H12 H23 p d Hp. by apply H23, H12. Qed.

Lemma closed_extends D D' p : extends D D' → closed data H W D p → closed data H W D' p.
Proof.
  intros Hext Hcl q Hq. destruct (Hcl q Hq) as (dp & dq & Hp & Hq' & Hle).
  exists dp, dq. split; [by apply Hext|]. split; [by apply Hext|done].
Qed.

Lemma queue_ok_weaken D lo lo' Q : lo' ≤ lo → queue_ok D lo Q → queue_ok D lo' Q.
Proof.
  destruct Q as [|p Q]; [done|]. simpl. intros Hle (d & Hd & Hlo & Hq).
  exists d. split; [done|]. split; [lia|done].
Qed.

Lemma queue_ok_snoc D D' Q q hi : ∀ lo,
  queue_ok D lo Q → extends D D' → lo ≤ hi →
  (∀ r d, get2 D r = Dist d → d ≤ hi) →
  get2 D' q = Dist hi →
  queue_ok D' lo (Q ++ [q]).
Proof.
  induction Q as [|p Q IH]; intros lo HQ Hext Hlo Hbound Hq.
  - simpl. exists hi. done.
  - simpl in *. destruct HQ as (d & Hd & Hlod & HQ).
    exists d. split; [by apply Hext|]. split; [done|].
    apply IH; [done|done| |done|done]. by eapply Hbound.
Qed.

Lemma queue_ok_visited D lo Q p : queue_ok D lo Q → p ∈ Q → visited D p.
Proof.
  revert lo. induction Q as [|r Q IH]; intros lo HQ Hp.
  - by apply elem_of_nil in Hp.
  - simpl in HQ. destruct HQ as (d & Hd & _ & HQ).
    apply elem_of_cons in Hp as [-> | Hp]; [by exists d|by eapply IH].
Qed.

(** One neighbour [q] of [p] is examined. *)
Lemma reach_inner p dp D Q q :
  inner_inv data H W p dp D Q → valid q = true →
  ∃ D' Q', reach p (D, Q) q = (D', Q') ∧
    inner_inv data H W p dp D' Q' ∧ extends D D' ∧ visited D' q ∧
    (∀ r, visited D' r → visited D r ∨ r ∈ Q') ∧
    (∀ r, r ∈ Q → r ∈ Q') ∧
    (count_inf D' + length Q' = count_inf D + length Q)%nat.
Proof.
  intros [Hd Hnum H0 Hp HQ Hb Hcl] Hq.
  pose proof (valid_inside q Hq) as Hin.
  unfold reach. destruct (decide (get2 D q = Infinity)) as [Hinf|Hinf].
  - rewrite Hp. cbn [succ_cell].
    assert (extends D (set2 D q (Dist (dp + 1)))) as Hext.
    { intros r d Hr. rewrite (get2_set2_ne H W) by (done || congruence). done. }
    eexists _, _. split; [done|]. split; [split|].
    + by apply dims_set2.
    + intros r Hr. destruct (decide (r = q)) as [-> | Hne].
      * by rewrite (get2_set2_eq H W).
      * rewrite (get2_set2_ne H W) by done. by apply Hnum.
    + by apply Hext.
    + by apply Hext.
    + apply (queue_ok_snoc D _ Q q (dp + 1) dp HQ Hext); [lia|done|].
      by rewrite (get2_set2_eq H W).
    + intros r d. destruct (decide (r = q)) as [-> | Hne].
      * rewrite (get2_set2_eq H W) by done. intros [= <-]. lia.
      * rewrite (get2_set2_ne H W) by done. apply Hb.
    + intros r [d Hr] HrQ Hrp.
      apply not_elem_of_app in HrQ as [HrQ Hrq%not_elem_of_cons].
      destruct Hrq as [Hrq _].
      rewrite (get2_set2_ne H W) in Hr by done.
      eapply closed_extends; [done|]. apply Hcl; [by exists d|done..].
    + split; [done|]. split.
      { exists (dp + 1). by rewrite (get2_set2_eq H W). }
      split; [|split].
      * intros r [d Hr]. destruct (decide (r = q)) as [-> | Hne].
        -- right. apply elem_of_app. right. by left.
        -- left. rewrite (get2_set2_ne H W) in Hr by done. by exists d.
      * intros r Hr. apply elem_of_app. by left.
      * pose proof (count_inf_set2 H W D q (Dist (dp + 1)) Hd Hin Hinf ltac:(done)).
        rewrite length_app. simpl. lia.
  - exists D, Q. split; [done|]. split; [done|]. split; [apply extends_refl|].
    split; [|split; [by left|split; [done|done]]].
    specialize (Hnum q Hin). destruct (get2 D q) as [| |d] eqn:E; [done..|].
    by exists d.
Qed.

(** The neighbours in [ns] are examined in turn. *)
Lemma reach_fold p dp ns : ∀ D Q,
  inner_inv data H W p dp D Q → (∀ q, q ∈ ns → valid q = true) →
  ∃ D' Q', foldl (reach p) (D, Q) ns = (D', Q') ∧
    inner_inv data H W p dp D' Q' ∧ extends D D' ∧
    (∀ q, q ∈ ns → visited D' q) ∧
    (∀ r, visited D' r → visited D r ∨ r ∈ Q') ∧
    (∀ r, r ∈ Q → r ∈ Q') ∧
    (count_inf D' + length Q' = count_inf D + length Q)%nat.
Proof.
  induction ns as [|q ns IH]; intros D Q Hinv Hns.
  { exists D, Q. split; [done|]. split; [done|]. split; [apply extends_refl|].
    split; [intros q Hq; by apply elem_of_nil in Hq|]. split; [by left|done]. }
  destruct (reach_inner p dp D Q q Hinv) as
    (D1 & Q1 & E1 & Hinv1 & Hext1 & Hq1 & Hv1 & Hsub1 & Hc1);
    [apply Hns; by left|].
  destruct (IH D1 Q1 Hinv1) as (D2 & Q2 & E2 & Hinv2 & Hext2 & Hq2 & Hv2 & Hsub2 & Hc2);
    [intros r Hr; apply Hns; by right|].
  exists D2, Q2. cbn [foldl]. rewrite E1. split; [done|]. split; [done|].
  split; [by eapply extends_trans|]. split; [|split; [|split]].
  - intros r [-> | Hr]%elem_of_cons; [|by apply Hq2].
    destruct Hq1 as [d Hd]. exists d. by apply Hext2.
  - intros r Hr. destruct (Hv2 r Hr) as [Hr1 | Hr1]; [|by right].
    destruct (Hv1 r Hr1) as [Hr0 | Hr0]; [by left|]. right. by apply Hsub2.
  - intros r Hr. by apply Hsub2, Hsub1.
  - lia.
Qed.

(** One iteration of the [while] loop. *)
Lemma bfs_step p D Q :
  outer_inv data H W D (p :: Q) →
  ∃ D' Q', foldl (reach p) (D, Q) (nbrs p) = (D', Q') ∧
    outer_inv data H W D' Q' ∧ extends D D' ∧
    (count_inf D' + length Q' = count_inf D + length Q)%nat.
Proof.
  intros [Hd Hnum H0 [lo HQ] Hb Hcl]. simpl in HQ.
  destruct HQ as (dp & Hp & _ & HQ).
  assert (inner_inv data H W p dp D Q) as Hinner.
  { split; try done.
    - intros q d Hq. by eapply (Hb p dp q d).
    - intros q Hq HqQ Hqp. apply Hcl; [done|]. by apply not_elem_of_cons. }
  destruct (reach_fold p dp (nbrs p) D Q Hinner) as
    (D' & Q' & E & [Hd' Hnum' H0' Hp' HQ' Hb' Hcl'] & Hext & Hvis & Hnew & Hsub & Hc).
  { intros q. apply elem_of_nbrs. }
  exists D', Q'. split; [done|]. split; [|done]. split; try done.
  - by exists dp.
  - intros h dh q d Hh Hdh Hq. destruct Q' as [|h' Q']; [done|].
    injection Hh as ->. simpl in HQ'. destruct HQ' as (d' & Hd'' & Hle & _).
    rewrite Hdh in Hd''. injection Hd'' as <-.
    specialize (Hb' q d Hq). lia.
  - intros q Hq HqQ. destruct (decide (q = p)) as [-> | Hne]; [|by apply Hcl'].
    intros r Hr. destruct (Hvis r Hr) as [dr Hdr].
    exists dp, dr. split; [done|]. split; [done|]. by eapply Hb'.
Qed.

(** The search ends within the fuel, with every visited cell closed. *)
Lemma bfs_terminates fuel : ∀ D Q,
  outer_inv data H W D Q → (count_inf D + length Q < fuel)%nat →
  ∃ D', bfs data (Z.of_nat W) (Z.of_nat H) fuel D Q = Ret D' ∧
        outer_inv data H W D' [] ∧ extends D D'.
Proof.
  induction fuel as [|f IH]; intros D Q Hinv Hfuel; [lia|].
  destruct Q as [|p Q].
  { exists D. split; [done|]. split; [done|apply extends_refl]. }
  cbn [bfs].
  destruct (bfs_step p D Q Hinv) as (D1 & Q1 & -> & Hinv1 & Hext1 & Hc).
  destruct (IH D1 Q1 Hinv1) as (D' & E & Hinv' & Hext'); [simpl in Hfuel; lia|].
  exists D'. split; [done|]. split; [done|by eapply extends_trans].
Qed.

(** The state in which the loop is entered. *)
Lemma initial_inv :
  (1 ≤ H)%nat → (1 ≤ W)%nat →
  let D0 := set2 (replicate H (replicate W Infinity)) (0, 0) (Dist 0) in
  outer_inv data H W D0 [(0, 0)] ∧ (count_inf D0 + 1 = H * W)%nat.
Proof.
  intros HH HW D0.
  assert (inside (0, 0)) as Hin0 by (unfold in_range; simpl; lia).
  pose proof (dims_replicate H W Infinity) as Hd.
  assert (get2 D0 (0, 0) = Dist 0) as H00 by (by apply (get2_set2_eq H W)).
  assert (∀ q d, get2 D0 q = Dist d → q = (0, 0) ∧ d = 0) as Honly.
  { intros q d Hq. destruct (decide (q = (0, 0))) as [-> | Hne].
    - rewrite H00 in Hq. by injection Hq as <-.
    - unfold D0 in Hq. rewrite (get2_set2_ne H W) in Hq by done.
      destruct (decide (inside q)) as [Hin | Hout].
      + by rewrite (get2_replicate H W) in Hq.
      + by rewrite (get2_out_of_range H W) in Hq. }
  split; [split|].
  - by apply dims_set2.
  - intros q Hq. destruct (decide (q = (0, 0))) as [-> | Hne]; [by rewrite H00|].
    unfold D0. rewrite (get2_set2_ne H W) by done.
    by rewrite (get2_replicate H W).
  - done.
  - exists 0. simpl. exists 0. done.
  - intros h dh q d [= <-] Hh Hq. destruct (Honly q d Hq) as [_ ->].
    destruct (Honly _ _ Hh) as [_ ->]. lia.
  - intros q [d Hq] Hne. destruct (Honly q d Hq) as [-> _].
    exfalso. apply Hne. by left.
  - pose proof (count_inf_set2 H W (replicate H (replicate W Infinity)) (0, 0)
                  (Dist 0) Hd Hin0 (get2_replicate H W _ Hin0) ltac:(done)) as Hc.
    rewrite count_inf_replicate in Hc. fold D0 in Hc. lia.
Qed.

(** *** The answer check *)

Lemma move_spec c p q :
  move c p = Some q ↔
  (c = "U"%char ∨ c = "D"%char ∨ c = "L"%char ∨ c = "R"%char) ∧
  q = match c with
      | "U"%char => (p.1 - 1, p.2)
      | "D"%char => (p.1 + 1, p.2)
      | "L"%char => (p.1, p.2 - 1)
      | _ => (p.1, p.2 + 1)
      end.
Proof.
  unfold move. split.
  - repeat case_bool_decide; subst; intros [= <-]; auto.
  - intros [[-> | [-> | [-> | ->]]] ->]; reflexivity.
Qed.

End search.

Lemma valid_spec data q :
  validPosition data (Z.of_nat (length (data !!! 0%nat))) (Z.of_nat (length data)) q
  = true ↔
  0 ≤ q.1 < Z.of_nat (length data) ∧
  0 ≤ q.2 < Z.of_nat (length (data !!! 0%nat)) ∧
  (row ← data !! Z.to_nat q.1; row !! Z.to_nat q.2) = Some 0.
Proof.
  unfold validPosition, cell_free.
  rewrite !andb_true_iff, !Z.leb_le, !Z.ltb_lt, bool_decide_eq_true. tauto.
Qed.

(** The loop over the answer computes the walk of the specification. *)
Lemma walk_spec data ans : ∀ p r,
  walk data (Z.of_nat (length (data !!! 0%nat))) (Z.of_nat (length data)) ans p
  = Some r ↔ walks data p ans r.
Proof.
  induction ans as [|c rest IH]; intros p r.
  - simpl. split; [intros [= <-]; constructor|]. by inversion 1.
  - cbn [walk]. split.
    + destruct (move c p) as [q|] eqn:Hm; [|done].
      apply move_spec in Hm as [Hc Hq].
      destruct (validPosition _ _ _ q) eqn:Hv; [|done].
      apply valid_spec in Hv as (? & ? & ?).
      intros Hw%IH. by eapply walks_step.
    + intros Hw. inversion Hw as [|p' c' q rest' r' Hq Hc Hy Hx Hfree Hw'].
      rewrite (proj2 (move_spec c p q) (conj Hc Hq)).
      rewrite (proj2 (valid_spec data q) (conj Hy (conj Hx Hfree))).
      by apply IH.
Qed.

(** The distance that the search gives to a cell is at most the length of
    any walk that reaches it. *)
Lemma walks_lower_bound data D p ans r :
  outer_inv data (length data) (length (data !!! 0%nat)) D [] →
  walks data p ans r →
  ∀ dp, get2 D p = Dist dp →
  ∃ dr, get2 D r = Dist dr ∧ dr ≤ dp + Z.of_nat (String.length ans).
Proof.
  intros Hinv. induction 1 as [p|p c q rest r Hq Hc Hy Hx Hfree Hw IH]; intros dp Hp.
  - exists dp. split; [done|simpl; lia].
  - assert (q ∈ neighbors data (Z.of_nat (length (data !!! 0%nat)))
                  (Z.of_nat (length data)) p) as Hn.
    { unfold neighbors. apply list_elem_of_filter. split.
      - by apply valid_spec.
      - destruct Hc as [-> | [-> | [-> | ->]]]; subst q;
          repeat (first [by left | right]). }
    destruct (outer_closed _ _ _ _ _ Hinv p) with (q := q)
      as (dp' & dq & Hp' & Hdq & Hle); [by exists dp|apply not_elem_of_nil|done|].
    rewrite Hp in Hp'. injection Hp' as <-.
    destruct (IH dq Hdq) as (dr & Hdr & Hle').
    exists dr. split; [done|]. cbn [String.length]. lia.
Qed.

(** The search returns, with every entry inside the grid a number. *)
Lemma distances_spec data :
  data ≠ [] → data !!! 0%nat ≠ [] →
  ∃ D, distances data = Ret D ∧
       outer_inv data (length data) (length (data !!! 0%nat)) D [].
Proof.
  intros Hdata Hrow. destruct data as [|row0 rest]; [done|].
  change ((row0 :: rest) !!! 0%nat) with row0 in *.
  assert (1 ≤ length row0)%nat by (destruct row0; [done|simpl; lia]).
  destruct (initial_inv (row0 :: rest) (length (row0 :: rest)) (length row0))
    as [Hinv Hcount]; [simpl; lia|done|].
  unfold distances.
  destruct (bfs_terminates (row0 :: rest) _ _
              (fuel_bound (length row0) (length (row0 :: rest))) _ _ Hinv)
    as (D & E & HinvD & _).
  { unfold fuel_bound. simpl length in *. lia. }
  exists D. split; [exact E|done].
Qed.

End shortest_path.

Example shortest_path_example :
  ShortestPath.solver [[0; 1; 0; 0; 0]; [0; 0; 0; 1; 0]] "DRRURRD" = Ret true.
Proof. vm_compute. reflexivity. Qed.
Example shortest_path_longer :
  ShortestPath.solver [[0; 0]; [0; 0]] "DRUR" = Ret false.
Proof. vm_compute. reflexivity. Qed.
Example shortest_path_either :
  ShortestPath.solver [[0; 0]; [0; 0]] "DR" = Ret true
  ∧ ShortestPath.solver [[0; 0]; [0; 0]] "RD" = Ret true.
Proof. split; vm_compute; reflexivity. Qed.
Example shortest_path_no_grid : ShortestPath.solver [] "" = Throw.
Proof. reflexivity. Qed.

Section shortest_path_solver.
Import ShortestPath.

Lemma destination_inside data :
  data ≠ [] → data !!! 0%nat ≠ [] →
  in_range (Z.of_nat (length data)) (Z.of_nat (length (data !!! 0%nat)))
           (destination data).
Proof.
  intros Hdata Hrow. unfold in_range, destination. simpl.
  destruct data as [|row0 rest]; [done|].
  change ((row0 :: rest) !!! 0%nat) with row0 in *.
  destruct row0; [done|]. simpl. lia.
Qed.

(** The verdict in terms of the final array [distance]. *)
Lemma solver_cases data ans D :
  data ≠ [] → data !!! 0%nat ≠ [] →
  distances data = Ret D →
  outer_inv data (length data) (length (data !!! 0%nat)) D [] →
  (get2 D (destination data) = Infinity ∧
   solver data ans = Ret (bool_decide (ans = "")))
  ∨ (∃ d, get2 D (destination data) = Dist d ∧
          ∃ b, solver data ans = Ret b ∧
               (b = true ↔ walks data (0, 0) ans (destination data)
                           ∧ Z.of_nat (String.length ans) ≤ d)).
Proof.
  intros Hdata Hrow HD Hinv. unfold solver. rewrite HD. cbn [rbind].
  fold (destination data).
  pose proof (outer_numbers _ _ _ _ _ Hinv _ (destination_inside data Hdata Hrow)) as Hnum.
  destruct (get2 D (destination data)) as [| |d] eqn:Hdst; [done|by left|].
  right. exists d. split; [done|].
  destruct (Z.ltb_spec d (Z.of_nat (String.length ans))) as [Hlt|Hge].
  { exists false. split; [done|]. split; [done|]. lia. }
  destruct (walk _ _ _ ans (0, 0)) as [[ansY ansX]|] eqn:Hw.
  - eexists. split; [done|]. rewrite bool_decide_eq_true.
    apply walk_spec in Hw. split.
    + intros [-> ->]. done.
    + intros [Hw' _]. apply walk_spec in Hw, Hw'. rewrite Hw in Hw'.
      by injection Hw' as -> ->.
  - exists false. split; [done|]. split; [done|].
    intros [Hw'%walk_spec _]. by rewrite Hw in Hw'.
Qed.

End shortest_path_solver.



(** C9: an accepted non-empty answer has exactly the length that the
    search found for the bottom-right cell: the check bounds it from above,
    and the answer is a walk to that cell, which the distance of the search
    bounds from below. *)
Theorem shortest_path_exact data ans :
  data ≠ [] → data !!! 0%nat ≠ [] → ans ≠ "" →
  ShortestPath.solver data ans = Ret true →
  ∃ D, ShortestPath.distances data = Ret D ∧
       ShortestPath.get2 D (ShortestPath.destination data)
       = ShortestPath.Dist (Z.of_nat (String.length ans)).
Proof.
  intros Hdata Hrow Hans Hacc.
  destruct (distances_spec data Hdata Hrow) as (D & HD & Hinv).
  exists D. split; [done|].
  destruct (solver_cases data ans D Hdata Hrow HD Hinv)
    as [[Hinf Hs] | (d & Hd & b & Hs & Hb)]; rewrite Hs in Hacc.
  - injection Hacc as Hacc. by apply bool_decide_eq_true in Hacc.
  - injection Hacc as ->. destruct (proj1 Hb eq_refl) as [Hw Hle].
    destruct (walks_lower_bound data D (0, 0) ans _ Hinv Hw 0) as (dr & Hdr & Hge).
    { by destruct Hinv. }
    rewrite Hd in Hdr. injection Hdr as <-. rewrite Hd. f_equal. lia.
Qed.

Lemma shortest_path_exact_witness :
  ∃ D, ShortestPath.distances [[0; 0]; [0; 0]] = Ret D ∧
       ShortestPath.get2 D (ShortestPath.destination [[0; 0]; [0; 0]])
       = ShortestPath.Dist (Z.of_nat (String.length "DR")).
Proof.
  apply (shortest_path_exact [[0; 0]; [0; 0]] "DR").
  - discriminate.
  - simpl. discriminate.
  - discriminate.
  - vm_compute. reflexivity.
Defined.

(** ** Answers that are lists of strings *)

Section math_expressions.
Import MathExpressions.
Context (digits : string) (target : Z).

(** The loop over [i] returns when the recursive calls that it makes do. *)
Lemma candidates_terminates call path pos evaluated multed indices :
  (∀ i, i ∈ indices →
        ∀ res path' ev mu, ∃ r, call res path' (i + 1)%nat ev mu = Ret r) →
  ∀ res, ∃ r, candidates digits call path pos evaluated multed indices res = Ret r.
Proof.
  induction indices as [|i indices IH]; intros Hcall res; [by eexists|].
  cbn [candidates].
  assert (∀ j, j ∈ indices →
            ∀ res path' ev mu, ∃ r, call res path' (j + 1)%nat ev mu = Ret r)
    as Hcall' by (intros j Hj; apply Hcall; by right).
  assert (∀ res path' ev mu, ∃ r, call res path' (i + 1)%nat ev mu = Ret r)
    as Hi by (apply Hcall; by left).
  destruct (_ && _); [by eexists|].
  case_bool_decide.
  - destruct (Hi res (path +:+ text (JS.parseInt (String.substring pos (i + 1 - pos) digits)))
                (JS.parseInt (String.substring pos (i + 1 - pos) digits))
                (JS.parseInt (String.substring pos (i + 1 - pos) digits))) as [r1 ->].
    cbn [rbind]. by apply IH.
  - set (cur := JS.parseInt (String.substring pos (i + 1 - pos) digits)).
    destruct (Hi res (path +:+ "+" +:+ text cur) (add evaluated cur) cur) as [r1 ->].
    cbn [rbind].
    destruct (Hi r1 (path +:+ "-" +:+ text cur) (sub evaluated cur) (neg cur)) as [r2 ->].
    cbn [rbind].
    destruct (Hi r2 (path +:+ "*" +:+ text cur)
                (add (sub evaluated multed) (mul multed cur)) (mul multed cur)) as [r3 ->].
    cbn [rbind]. by apply IH.
Qed.

Lemma helper_terminates fuel : ∀ res path pos evaluated multed,
  (pos ≤ String.length digits)%nat →
  (String.length digits - pos < fuel)%nat →
  ∃ r, helper digits target fuel res path pos evaluated multed = Ret r.
Proof.
  induction fuel as [|f IH]; intros res path pos ev mu Hpos Hfuel; [lia|].
  cbn [helper]. case_bool_decide; [by eexists|].
  apply candidates_terminates. intros i Hi res' path' ev' mu'.
  apply list_elem_of_In, in_seq in Hi. apply IH; lia.
Qed.

End math_expressions.

(** The reference list of expressions is always computed. *)
Lemma math_reference_total data : ∃ result, MathExpressions.reference data = Ret result.
Proof. apply helper_terminates; lia. Qed.

Example math_expressions_123 :
  MathExpressions.reference ("123", 6) = Ret ["1+2+3"; "1*2*3"].
Proof. vm_compute. reflexivity. Qed.
Example math_expressions_105 :
  MathExpressions.reference ("105", 5) = Ret ["1*0+5"; "10-5"].
Proof. vm_compute. reflexivity. Qed.
Example math_expressions_none : MathExpressions.reference ("1234", 1000) = Ret [].
Proof. vm_compute. reflexivity. Qed.
Example math_expressions_quoted_empty : MathExpressions.canonical "['']" = [""].
Proof. reflexivity. Qed.
Example sanitize_reference_1 :
  SanitizeParentheses.reference "()())()" = ["(())()"; "()()()"].
Proof. vm_compute. reflexivity. Qed.
Example sanitize_reference_2 : SanitizeParentheses.reference ")(" = [""].
Proof. vm_compute. reflexivity. Qed.
Example sanitize_accepts :
  SanitizeParentheses.solver "()())()" "[()()(), (())()]" = true.
Proof. vm_compute. reflexivity. Qed.

(** C7, as stated, at Sanitize Parentheses in Expression: the answers ""
    and "[]" canonicalize to the one-element list holding the empty
    string, and for the state ")))(((", which the generator can return and
    whose reference list [[""]] is not empty, they are accepted. *)
Lemma empty_answer_counterexample :
  ¬ (∀ ans, ans = "" ∨ ans = "[]" →
       SanitizeParentheses.canonical ans = []
       ∧ ∀ data, SanitizeParentheses.generated data →
                 SanitizeParentheses.reference data ≠ [] →
                 SanitizeParentheses.solver data ans = false).
Proof.
  intros H. destruct (H "" ltac:(by left)) as [Hc _]. discriminate Hc.
Qed.

Lemma empty_answer_accepted_sanitize :
  SanitizeParentheses.generated ")))(((" ∧
  SanitizeParentheses.reference ")))(((" = [""] ∧
  SanitizeParentheses.canonical "" = [""] ∧
  SanitizeParentheses.canonical "[]" = [""] ∧
  SanitizeParentheses.solver ")))(((" "" = true ∧
  SanitizeParentheses.solver ")))(((" "[]" = true.
Proof.
  split; [|by vm_compute].
  split; [simpl; lia|]. split; [by right|].
  intros i c Hi.
  do 6 (destruct i as [|i]; [injection Hi as <-; auto|]). done.
Qed.

(** C7, amended: in Find All Valid Math Expressions, whose parsing drops
    the empty entries, the answers "" and "[]" canonicalize to the empty
    list; for a state with a non-empty digit string they are accepted when
    the reference list of expressions is empty and rejected when it is
    not. *)
Theorem empty_answer_math_expressions :
  MathExpressions.canonical "" = []
  ∧ MathExpressions.canonical "[]" = []
  ∧ ∀ data ans,
      data.1 ≠ "" → ans = "" ∨ ans = "[]" →
      ∃ result, MathExpressions.reference data = Ret result ∧
                MathExpressions.solver data ans = Ret (bool_decide (result = [])).
Proof.
  split; [done|]. split; [done|].
  intros [digits target] ans Hne Hans. simpl in Hne.
  destruct (math_reference_total (digits, target)) as [result Hr].
  exists result. split; [done|].
  unfold MathExpressions.solver. cbn [fst snd].
  rewrite bool_decide_eq_false_2 by (by destruct digits).
  rewrite Hr. cbn [rbind].
  assert (MathExpressions.canonical ans = []) as -> by (by destruct Hans as [-> | ->]).
  destruct result as [|e result]; done.
Qed.

Lemma empty_answer_math_expressions_witness :
  ∃ result, MathExpressions.reference ("1234", 1000) = Ret result ∧
            MathExpressions.solver ("1234", 1000) "[]" = Ret (bool_decide (result = [])).
Proof.
  destruct empty_answer_math_expressions as (_ & _ & H).
  apply (H ("1234", 1000) "[]").
  - discriminate.
  - right. reflexivity.
Defined.

(** ** Every solver returns *)

(** *** The solvers on the examples of their descriptions *)

Example spiralize_accepts :
  Spiralize.solver [[1; 2; 3]; [4; 5; 6]; [7; 8; 9]] "[1, 2, 3, 6, 9, 8, 7, 4, 5]"
  = Ret true.
Proof. vm_compute. reflexivity. Qed.
Example spiralize_wide :
  Spiralize.solver [[1; 2; 3; 4]; [5; 6; 7; 8]; [9; 10; 11; 12]]
                   "1,2,3,4,8,12,11,10,9,5,6,7" = Ret true.
Proof. vm_compute. reflexivity. Qed.
Example spiralize_rejects_NaN :
  Spiralize.solver [[1; 2; 3]; [4; 5; 6]; [7; 8; 9]] "[1, 2, 3, 6, 9, 8, 7, 4, x]"
  = Ret false.
Proof. vm_compute. reflexivity. Qed.
Example merge_accepts :
  MergeIntervals.solver [(1, 3); (8, 10); (2, 6); (10, 16)] "[[1, 6], [8, 16]]"
  = Ret true.
Proof. vm_compute. reflexivity. Qed.
Example merge_rejects :
  MergeIntervals.solver [(1, 3); (8, 10); (2, 6); (10, 16)] "[[1, 6], [8, 10]]"
  = Ret false.
Proof. vm_compute. reflexivity. Qed.
Example generate_ip_accepts :
  GenerateIP.solver "25525511135" "[255.255.11.135, 255.255.111.35]" = Ret true.
Proof. vm_compute. reflexivity. Qed.
Example generate_ip_rejects :
  GenerateIP.solver "1938718066" "192.168.010.1" = Ret false.
Proof. vm_compute. reflexivity. Qed.
Example triangle_accepts :
  Triangle.solver [[2]; [3; 4]; [6; 5; 7]; [4; 1; 8; 3]] "11" = Ret true.
Proof. vm_compute. reflexivity. Qed.
Example total_ways_4 : TotalWays.solver (TotalWays.Number 4) "4" = Ret true.
Proof. vm_compute. reflexivity. Qed.
Example total_ways_not_number : TotalWays.solver TotalWays.NotNumber "4" = Throw.
Proof. reflexivity. Qed.
Example total_ways_II_accepts : TotalWaysII.solver (4%nat, [1; 2]%nat) "3" = Ret true.
Proof. vm_compute. reflexivity. Qed.
Example max_subarray_accepts :
  MaxSubarray.solver [-2; 1; -3; 4; -1; 2; 1; -5; 4] "6" = Ret true.
Proof. vm_compute. reflexivity. Qed.
Example array_jump_reachable : ArrayJump.solver [2; 3; 1; 1; 4] "1" = Ret true.
Proof. vm_compute. reflexivity. Qed.
Example array_jump_stuck : ArrayJump.solver [3; 2; 1; 0; 4] "0" = Ret true.
Proof. vm_compute. reflexivity. Qed.
Example array_jump_II_two : ArrayJumpII.solver [2; 3; 1; 1; 4] "2" = Ret true.
Proof. vm_compute. reflexivity. Qed.
Example array_jump_II_stuck : ArrayJumpII.solver [3; 2; 1; 0; 4] "0" = Ret true.
Proof. vm_compute. reflexivity. Qed.
Example unique_paths_I_accepts : UniquePathsI.solver (3%nat, 7%nat) "28" = Ret true.
Proof. vm_compute. reflexivity. Qed.
Example unique_paths_II_accepts :
  UniquePathsII.solver [[0; 0; 0]; [0; 1; 0]; [0; 0; 0]] "2" = Ret true.
Proof. vm_compute. reflexivity. Qed.
Example stock_II_accepts : StockII.solver [7; 1; 5; 3; 6; 4] "7" = Ret true.
Proof. vm_compute. reflexivity. Qed.
Example stock_III_accepts : StockIII.solver [3; 3; 5; 0; 0; 3; 1; 4] "6" = Ret true.
Proof. vm_compute. reflexivity. Qed.
Example caesar_accepts : Caesar.solver ("DEFAULT", 3) "ABCXRIQ" = Ret true.
Proof. vm_compute. reflexivity. Qed.
Example vigenere_accepts :
  Vigenere.solver ("DASHBOARD", "LINUX") "OIFBYZIEX" = Ret true.
Proof. vm_compute. reflexivity. Qed.

(** *** Spiralize Matrix *)

Section spiralize.
Import Spiralize.
Context (data : list (list Z)).

Lemma sweep_returns cells : ∀ spiral,
  Forall (λ c, 0 ≤ c.1 < Z.of_nat (length data)) cells →
  ∃ spiral', sweep data cells spiral = Ret spiral'.
Proof.
  induction cells as [|[row col] cells IH]; intros spiral Hc; [by eexists|].
  apply Forall_cons_1 in Hc as [Hrow Hc]. simpl in Hrow.
  cbn [sweep]. unfold entry, row_of.
  destruct (Z.ltb_spec row 0); [lia|].
  destruct (lookup_lt_is_Some_2 data (Z.to_nat row)) as [line ->]; [lia|].
  cbn [rbind]. by apply IH.
Qed.

Lemma row_cells_ok (row : Z) (cols : list Z) :
  0 ≤ row < Z.of_nat (length data) →
  Forall (λ c : Z * Z, 0 ≤ c.1 < Z.of_nat (length data)) ((λ col, (row, col)) <$> cols).
Proof. intros Hrow. apply Forall_fmap, Forall_true. by intros col. Qed.

Lemma col_cells_ok (col : Z) (rows : list Z) :
  Forall (λ row, 0 ≤ row < Z.of_nat (length data)) rows →
  Forall (λ c : Z * Z, 0 ≤ c.1 < Z.of_nat (length data)) ((λ row, (row, col)) <$> rows).
Proof. intros Hrows. apply Forall_fmap. by eapply Forall_impl. Qed.

Lemma upto_range a b lo hi :
  lo ≤ a → b < hi → Forall (λ x, lo ≤ x < hi) (upto a b).
Proof.
  intros Ha Hb. apply Forall_forall. intros x Hx.
  unfold upto in Hx. apply elem_of_seqZ in Hx. lia.
Qed.

Lemma downto_range a b lo hi :
  lo ≤ b → a < hi → Forall (λ x, lo ≤ x < hi) (downto a b).
Proof.
  intros Ha Hb. apply Forall_forall. intros x Hx.
  unfold downto in Hx. apply elem_of_reverse, elem_of_seqZ in Hx. lia.
Qed.

(** The rows that the loop reads lie between [u] and [d], which stay
    inside the matrix. *)
Lemma loop_returns fuel : ∀ u d l r spiral,
  0 ≤ u → u ≤ d → d < Z.of_nat (length data) →
  (Z.to_nat (d - u) < fuel)%nat →
  ∃ spiral', loop fuel data u d l r spiral = Ret spiral'.
Proof.
  induction fuel as [|f IH]; intros u d l r spiral Hu Hud Hd Hfuel; [lia|].
  cbn [loop].
  destruct (sweep_returns ((λ col, (u, col)) <$> upto l r) spiral) as [s1 ->];
    [apply row_cells_ok; lia|]. cbn [rbind].
  destruct (Z.ltb_spec d (u + 1)); [by eexists|].
  destruct (sweep_returns ((λ row, (row, r)) <$> upto (u + 1) d) s1) as [s2 ->];
    [apply col_cells_ok, upto_range; lia|]. cbn [rbind].
  destruct (Z.ltb_spec (r - 1) l); [by eexists|].
  destruct (sweep_returns ((λ col, (d, col)) <$> downto (r - 1) l) s2) as [s3 ->];
    [apply row_cells_ok; lia|]. cbn [rbind].
  destruct (Z.ltb_spec (d - 1) (u + 1)); [by eexists|].
  destruct (sweep_returns ((λ row, (row, l)) <$> downto (d - 1) (u + 1)) s3) as [s4 ->];
    [apply col_cells_ok, downto_range; lia|]. cbn [rbind].
  destruct (Z.ltb_spec (r - 1) (l + 1)); [by eexists|].
  apply IH; lia.
Qed.

Lemma spiral_reference_returns :
  data ≠ [] → ∃ spiral, reference data = Ret spiral.
Proof.
  intros Hdata. unfold reference. destruct data as [|row0 rest] eqn:E; [done|].
  rewrite <- E in *. apply loop_returns; subst; simpl length; lia.
Qed.

Lemma spiral_solver_returns ans :
  data ≠ [] → ∃ b, solver data ans = Ret b.
Proof.
  intros Hdata. unfold solver.
  destruct (spiral_reference_returns Hdata) as [spiral ->]. cbn [rbind].
  case_bool_decide; by eexists.
Qed.

End spiralize.

(** *** Array Jumping Game II *)

Section array_jump_II.
Import ArrayJumpII.
Context (data : list Z).

(** A scan that jumps increases [reach]. *)
Lemma scan_progress reach lastJump :
  let '(reach', jumpedFrom) := scan data reach lastJump in
  (jumpedFrom = -1 ∧ reach' = reach) ∨ reach < reach'.
Proof.
  unfold scan.
  generalize (Spiralize.downto reach (lastJump + 1)). intros indices.
  assert (∀ st : Z * Z,
            ((st.2 = -1 ∧ st.1 = reach) ∨ reach < st.1) →
            let '(reach', jumpedFrom) :=
              foldl (λ st i,
                       let '(reach, jumpedFrom) := st in
                       if reach <? i + data !!! Z.to_nat i
                       then (i + data !!! Z.to_nat i, i) else (reach, jumpedFrom))
                    st indices in
            (jumpedFrom = -1 ∧ reach' = reach) ∨ reach < reach') as Hgen.
  { induction indices as [|i indices IH]; intros [r0 j0] Hst.
    - simpl in *. done.
    - cbn [foldl]. apply IH.
      destruct (Z.ltb_spec r0 (i + data !!! Z.to_nat i)); simpl in *; [|done].
      right. lia. }
  apply (Hgen (reach, -1)). by left.
Qed.

Lemma jump_loop_returns fuel : ∀ reach jumps lastJump,
  (Z.to_nat (Z.of_nat (length data) - 1 - reach) < fuel)%nat →
  ∃ v, loop fuel data reach jumps lastJump = Ret v.
Proof.
  induction fuel as [|f IH]; intros reach jumps lastJump Hfuel; [lia|].
  cbn [loop]. destruct (Z.ltb_spec reach (Z.of_nat (length data) - 1)); [|by eexists].
  pose proof (scan_progress reach lastJump) as Hscan.
  destruct (scan data reach lastJump) as [reach' jumpedFrom].
  destruct (Z.eqb_spec jumpedFrom (-1)); [by eexists|].
  apply IH. lia.
Qed.

Lemma jump_solver_returns ans : ∃ b, solver data ans = Ret b.
Proof.
  unfold solver, reference.
  destruct (jump_loop_returns (S (length data)) 0 0 (-1)) as [v ->]; [lia|].
  by eexists.
Qed.

End array_jump_II.

(** *** The other kinds with a fallible step *)

Lemma insert_not_nil x sorted : MergeIntervals.insert x sorted ≠ [].
Proof. destruct sorted as [|y sorted]; simpl; [done|]. by case_match. Qed.

Lemma merge_solver_returns data ans :
  data ≠ [] → ∃ b, MergeIntervals.solver data ans = Ret b.
Proof.
  intros Hdata. unfold MergeIntervals.solver, MergeIntervals.reference.
  assert (MergeIntervals.sort data ≠ []) as Hsort.
  { unfold MergeIntervals.sort.
    destruct data as [|x rest _] using rev_ind; [done|].
    rewrite foldl_app. simpl. apply insert_not_nil. }
  destruct (MergeIntervals.sort data) as [|first rest]; [done|].
  destruct (foldl _ _ _) as [[res start] stop]. by eexists.
Qed.

Lemma triangle_solver_returns data ans :
  data ≠ [] → ∃ b, Triangle.solver data ans = Ret b.
Proof.
  intros Hdata. unfold Triangle.solver, Triangle.reference.
  destruct (reverse data) as [|last above] eqn:E; [|by eexists].
  apply (f_equal length) in E. rewrite length_reverse in E.
  by destruct data.
Qed.

Lemma unique_paths_II_solver_returns data ans :
  data ≠ [] → ∃ b, UniquePathsII.solver data ans = Ret b.
Proof.
  intros Hdata. unfold UniquePathsII.solver, UniquePathsII.reference.
  destruct data; [done|]. by eexists.
Qed.

Lemma shortest_path_solver_returns data ans :
  data ≠ [] → data !!! 0%nat ≠ [] → ∃ b, ShortestPath.solver data ans = Ret b.
Proof.
  intros Hdata Hrow.
  destruct (distances_spec data Hdata Hrow) as (D & HD & Hinv).
  destruct (solver_cases data ans D Hdata Hrow HD Hinv)
    as [[_ Hs] | (d & _ & b & Hs & _)]; by eexists.
Qed.

Lemma math_solver_returns data ans : ∃ b, MathExpressions.solver data ans = Ret b.
Proof.
  unfold MathExpressions.solver.
  destruct (math_reference_total data) as [result ->]. cbn [rbind].
  repeat case_bool_decide; by eexists.
Qed.

Lemma two_coloring_solver_returns data ans : ∃ b, TwoColoring.solver data ans = Ret b.
Proof.
  unfold TwoColoring.solver.
  destruct (greedy_total data) as [r ->]. cbn [rbind].
  repeat case_bool_decide; by eexists.
Qed.

Lemma rle_solver_returns plain ans : ∃ b, RLE.solver plain ans = Ret b.
Proof.
  unfold RLE.solver. rewrite min_length_spec. cbn [rbind].
  case_bool_decide; [by eexists|].
  destruct (RLE.decode ans ""); [|by eexists].
  case_bool_decide; by eexists.
Qed.

(** *** Answers with a token that is not a number *)

Lemma same_NaN_r x : Arr.same x None = false.
Proof. by destruct x. Qed.

Lemma same_elements_NaN : ∀ spiral playerAns,
  length spiral = length playerAns → None ∈ playerAns →
  Spiralize.same_elements spiral playerAns = false.
Proof.
  induction spiral as [|x spiral IH]; intros [|y playerAns] Hlen Hin;
    try done; simpl in *.
  - by apply elem_of_nil in Hin.
  - apply elem_of_cons in Hin as [<- | Hin].
    + by destruct x.
    + rewrite IH by (done || lia). apply andb_false_r.
Qed.

Lemma edge_ok_NaN coloring a b :
  coloring !! a = Some None ∨ coloring !! b = Some None →
  TwoColoring.edge_ok coloring (a, b) = false.
Proof.
  intros Hnan. apply not_true_is_false. rewrite edge_ok_spec.
  intros (ca & cb & Ha & Hb & _). destruct Hnan; congruence.
Qed.

Example two_coloring_generated : TwoColoring.generated (6%nat, [(0%nat, 3%nat)]).
Proof.
  split; [simpl; lia|]. intros a b Hab. simpl in Hab.
  apply list_elem_of_singleton in Hab. injection Hab as -> ->. simpl. lia.
Qed.

(** C6, as stated, at Proper 2-Coloring of a Graph: for the graph on six
    vertices with the one edge [0, 3], which the generator can return, the
    answer [0,x,x,1,x,x] has four tokens that parse to NaN and is accepted;
    only the tokens at the ends of an edge are looked at. *)
Lemma nan_token_counterexample :
  ¬ (∀ data ans,
       TwoColoring.generated data →
       None ∈ (JS.parseInt <$> JS.split "," (removeBracketsFromArrayString ans)) →
       TwoColoring.solver data ans = Ret false).
Proof.
  intros H.
  specialize (H (6%nat, [(0%nat, 3%nat)]) "[0,x,x,1,x,x]" two_coloring_generated).
  assert (TwoColoring.solver (6%nat, [(0%nat, 3%nat)]) "[0,x,x,1,x,x]" = Ret true)
    as Hacc by (vm_compute; reflexivity).
  rewrite H in Hacc; [discriminate|].
  vm_compute. apply list_elem_of_further, list_elem_of_here.
Qed.

Local Ltac enter := intros st ans Hgen; cbn [State generated solver] in *.

(** C6, amended.  For every kind of the registry, every state that the
    kind's generator can return and every answer string, the solver returns
    a boolean: no exception escapes and every loop ends.  In particular the
    [throw] of Total Ways to Sum is not reached on a generated state.  An
    answer that parses to NaN is rejected by each kind that compares one
    parsed integer; Spiralize Matrix rejects an answer with a NaN token;
    Proper 2-Coloring of a Graph rejects a non-empty answer with a NaN
    token at an end of an edge, and does not look at the other tokens. *)
Theorem solvers_total (C : codecs) :
  Forall total (codingContractTypesMetadata C)
  ∧ (∀ data ans, TotalWays.generated data → TotalWays.solver data ans ≠ Throw)
  ∧ (∀ ans, JS.parseInt10 ans = None →
       (∀ data, LargestPrimeFactor.solver data ans = Ret false)
       ∧ (∀ data, MaxSubarray.solver data ans = Ret false)
       ∧ (∀ data, TotalWays.generated data → TotalWays.solver data ans = Ret false)
       ∧ (∀ data, TotalWaysII.solver data ans = Ret false)
       ∧ (∀ data, ArrayJumpII.solver data ans = Ret false)
       ∧ (∀ data, Codec.hamming_decode_solver C data ans = Ret false))
  ∧ (∀ ans, JS.parseInt ans = None →
       (∀ data, StockIV.solver data ans = false)
       ∧ (∀ data, Triangle.generated data → Triangle.solver data ans = Ret false)
       ∧ (∀ data, UniquePathsI.solver data ans = Ret false)
       ∧ (∀ data, UniquePathsII.generated data →
                  UniquePathsII.solver data ans = Ret false))
  ∧ (∀ data ans,
       Spiralize.generated data →
       None ∈ (JS.parseInt <$>
                 JS.split "," (JS.remove_white (removeBracketsFromArrayString ans))) →
       Spiralize.solver data ans = Ret false)
  ∧ (∀ data ans a b,
       removeBracketsFromArrayString ans ≠ "" →
       (a, b) ∈ data.2 →
       (JS.parseInt <$> JS.split "," (removeBracketsFromArrayString ans)) !! a = Some None
       ∨ (JS.parseInt <$> JS.split "," (removeBracketsFromArrayString ans)) !! b = Some None →
       TwoColoring.solver data ans = Ret false).
Proof.
  split; [|split; [|split; [|split; [|split]]]].
  - unfold codingContractTypesMetadata, total.
    repeat apply Forall_cons_2; try apply Forall_nil_2; enter.
    + apply solver_total.
    + by eexists.
    + destruct Hgen as (n & -> & _). by eexists.
    + by eexists.
    + apply spiral_solver_returns. destruct Hgen as [Hlen _].
      destruct st; simpl in Hlen; [lia|done].
    + by eexists.
    + apply jump_solver_returns.
    + apply merge_solver_returns. destruct Hgen as [Hlen _].
      destruct st; simpl in Hlen; [lia|done].
    + unfold GenerateIP.solver. case_bool_decide; by eexists.
    + by eexists.
    + by eexists.
    + by eexists.
    + by eexists.
    + apply triangle_solver_returns. destruct Hgen as [Hlen _].
      destruct st; simpl in Hlen; [lia|done].
    + by eexists.
    + apply unique_paths_II_solver_returns. destruct Hgen as [Hlen _].
      destruct st; simpl in Hlen; [lia|done].
    + destruct Hgen as (Hlen & (n & Hn & Hrows) & _).
      destruct st as [|row0 rest]; simpl in Hlen; [lia|].
      apply shortest_path_solver_returns; [done|].
      apply Forall_cons_1 in Hrows as [[Hrow0 _] _].
      change ((row0 :: rest) !!! 0%nat) with row0.
      destruct row0; simpl in Hrow0; [lia|done].
    + by eexists.
    + apply math_solver_returns.
    + by eexists.
    + by eexists.
    + apply two_coloring_solver_returns.
    + apply rle_solver_returns.
    + by eexists.
    + by eexists.
    + by eexists.
    + by eexists.
    + by eexists.
  - intros data ans (n & -> & _). done.
  - intros ans Hnan. repeat split; intros data.
    + unfold LargestPrimeFactor.solver.
      destruct (largest_total data) as [v ->]. cbn [rbind].
      by rewrite Hnan, bool_decide_eq_false_2.
    + unfold MaxSubarray.solver. by rewrite Hnan.
    + intros (n & -> & _). cbn [TotalWays.solver].
      by rewrite Hnan, bool_decide_eq_false_2.
    + unfold TotalWaysII.solver. by rewrite Hnan, bool_decide_eq_false_2.
    + unfold ArrayJumpII.solver, ArrayJumpII.reference.
      destruct (jump_loop_returns data (S (length data)) 0 0 (-1)) as [v ->]; [lia|].
      cbn [rbind]. by rewrite Hnan, bool_decide_eq_false_2.
    + unfold Codec.hamming_decode_solver. by rewrite Hnan.
  - intros ans Hnan. repeat split; intros data.
    + rewrite stockIV_solver_reference. by rewrite Hnan, bool_decide_eq_false_2.
    + intros [Hlen _].
      destruct (triangle_solver_returns data ans) as [b Hb];
        [destruct data; simpl in Hlen; [lia|done]|].
      unfold Triangle.solver in *. destruct (Triangle.reference data); try done.
      cbn [rbind]. by rewrite Hnan, same_NaN_r.
    + unfold UniquePathsI.solver. by rewrite Hnan.
    + intros [Hlen _]. unfold UniquePathsII.solver, UniquePathsII.reference.
      destruct data; simpl in Hlen; [lia|]. cbn [rbind].
      by rewrite Hnan, same_NaN_r.
  - intros data ans [Hlen _] Hnan. unfold Spiralize.solver.
    destruct (spiral_reference_returns data) as [spiral ->];
      [destruct data; simpl in Hlen; [lia|done]|].
    cbn [rbind]. case_bool_decide as Hl; [done|].
    f_equal. apply same_elements_NaN; [|done].
    by destruct (decide (length spiral = length (JS.parseInt <$>
      JS.split "," (JS.remove_white (removeBracketsFromArrayString ans))))).
  - intros data ans a b Hne Hedge Hnan. unfold TwoColoring.solver.
    rewrite bool_decide_eq_false_2 by done.
    case_bool_decide; [|done]. f_equal.
    apply not_true_is_false. rewrite forallb_forall. intros Hall.
    apply list_elem_of_In, Hall in Hedge.
    by rewrite edge_ok_NaN in Hedge.
Qed.

(** ** What the reference values are *)


(** *** Algorithmic Stock Trader I *)



(** *** Subarray with Maximum Sum *)









(** *** Total Ways to Sum I and II *)
















Example total_ways_8 : TotalWays.ways 8 !!! 8%nat = 21.
Proof. vm_compute. reflexivity. Qed.

(** *** Array Jumping Game *)

Lemma jump_inv_blocked data i reach p :
  jump_inv data i reach → reach < Z.of_nat i →
  reachable data p → Z.of_nat p ≤ reach.
Proof.
  intros (Hr & _ & _ & Hjump) Hi. induction 1 as [|q p Hq IH Hqp Hp]; [lia|].
  apply (Hjump q p); [lia|done|done].
Qed.

Lemma run_spec data : ∀ rest i reach,
  data ≠ [] → rest = drop i data → (i ≤ length data)%nat →
  jump_inv data i reach →
  ArrayJump.run rest (Z.of_nat i) reach = Z.of_nat (length data)
  ↔ reachable data (length data - 1).
Proof.
  intros rest. induction rest as [|x rest IH]; intros i reach Hne Hrest Hi Hinv.
  - assert (length (drop i data) = 0%nat) as Hl by (by rewrite <- Hrest).
    rewrite length_drop in Hl. simpl.
    assert (0 < length data)%nat by (destruct data; [done|simpl; lia]).
    split; [|lia]. intros _. destruct Hinv as (_ & Hbefore & _). apply Hbefore. lia.
  - assert (data !! i = Some x) as Hx.
    { rewrite <- (Nat.add_0_r i), <- lookup_drop, <- Hrest. done. }
    pose proof (lookup_lt_Some _ _ _ Hx) as Hlt.
    assert (data !!! i = x) as Hx' by (by apply list_lookup_total_correct).
    cbn [ArrayJump.run]. destruct (Z.leb_spec (Z.of_nat i) reach) as [Hle|Hgt].
    + replace (Z.of_nat i + 1) with (Z.of_nat (S i)) by lia.
      apply IH; [done| |lia|].
      * rewrite (drop_S _ _ _ Hx) in Hrest. by injection Hrest.
      * destruct Hinv as (Hr & Hbefore & Hupto & Hjump).
        assert (reachable data i) as Hreach_i by (apply Hupto; [done|lia]).
        split; [lia|]. split; [|split].
        -- intros p Hp. destruct (decide (p = i)) as [->|]; [done|].
           apply Hbefore. lia.
        -- intros p Hp Hpr. destruct (Z.le_gt_cases (Z.of_nat p) reach) as [?|Hbig].
           ++ by apply Hupto.
           ++ apply (reach_jump data i p); [done|lia|lia].
        -- intros q p Hq Hqp Hp. destruct (decide (q = i)) as [->|].
           ++ lia.
           ++ specialize (Hjump q p ltac:(lia) Hqp Hp). lia.
    + split; [lia|]. intros Hlast.
      pose proof (jump_inv_blocked data i reach _ Hinv Hgt Hlast). lia.
Qed.

(** X5: for a non-empty array, Array Jumping Game accepts the answer 1
    exactly when the last position can be reached from the first by jumps
    of at most [data[i]] positions forward from position [i], the answer 0
    exactly when it cannot, and no other answer. *)
Theorem array_jump_decides (data : list Z) (ans : string) :
  data ≠ [] →
  ∃ b, ArrayJump.solver data ans = Ret b ∧
       (b = true ↔
        (ans = "1" ∧ reachable data (length data - 1)) ∨
        (ans = "0" ∧ ¬ reachable data (length data - 1))).
Proof.
  intros Hne. unfold ArrayJump.solver. eexists. split; [done|].
  pose proof (run_spec data data 0 0 Hne eq_refl ltac:(lia)) as Hrun.
  cbn [Z.of_nat] in Hrun. rewrite <- Hrun.
  2:{ split; [lia|]. split; [intros p Hp; lia|]. split.
      - intros p _ Hp. replace p with 0%nat by lia. constructor.
      - intros q p Hq. lia. }
  rewrite orb_true_iff, !andb_true_iff, negb_true_iff,
    bool_decide_eq_false, !bool_decide_eq_true. done.
Qed.

Lemma array_jump_decides_witness :
  ∃ b, ArrayJump.solver [3; 2; 1; 0; 4] "0" = Ret b ∧
       (b = true ↔
        ("0" = "1" ∧ reachable [3; 2; 1; 0; 4] 4) ∨
        ("0" = "0" ∧ ¬ reachable [3; 2; 1; 0; 4] 4)).
Proof. apply (array_jump_decides [3; 2; 1; 0; 4] "0"). discriminate. Defined.

(** *** Brackets at the two ends of an answer *)

Lemma endsWith_snoc c (s : string) : JS.endsWith c (s +:+ String c "") = true.
Proof.
  induction s as [|d s IH]; [simpl; by rewrite bool_decide_eq_true_2|].
  rewrite string_app_cons. cbn [JS.endsWith].
  destruct (s +:+ String c "") eqn:E; [by destruct s|done].
Qed.

Lemma slice_init_snoc c (s : string) : JS.slice_init (s +:+ String c "") = s.
Proof.
  induction s as [|d s IH]; [done|]. rewrite string_app_cons. cbn [JS.slice_init].
  destruct (s +:+ String c "") eqn:E; [by destruct s|]. by rewrite IH.
Qed.

Lemma endsWith_inv c (s : string) :
  JS.endsWith c s = true → s = JS.slice_init s +:+ String c "".
Proof.
  induction s as [|d s IH]; [done|]. simpl. destruct s as [|e s].
  - rewrite bool_decide_eq_true. by intros ->.
  - intros H. rewrite string_app_cons. f_equal. by apply IH.
Qed.

Lemma endsWith_app c (s t : string) :
  t ≠ "" → JS.endsWith c (s +:+ t) = JS.endsWith c t.
Proof.
  intros Ht. induction s as [|d s IH]; [done|]. rewrite string_app_cons. simpl.
  destruct (s +:+ t) eqn:E; [|done].
  destruct s; [done|discriminate E].
Qed.

Lemma endsWith_remove_white c (s : string) :
  JS.is_white c = false → JS.endsWith c s = true →
  JS.endsWith c (JS.remove_white s) = true.
Proof.
  intros Hc. induction s as [|d s IH]; [done|]. simpl. destruct s as [|e s].
  - rewrite bool_decide_eq_true. intros <-. rewrite Hc. simpl.
    by rewrite bool_decide_eq_true_2.
  - intros H. specialize (IH H). destruct (JS.is_white d); [done|].
    change (JS.endsWith c (String d (JS.remove_white (String e s))) = true).
    destruct (JS.remove_white (String e s)) eqn:E; [done|]. done.
Qed.

Lemma remove_white_idemp (s : string) :
  JS.remove_white (JS.remove_white s) = JS.remove_white s.
Proof.
  induction s as [|c s IH]; [done|]. simpl.
  destruct (JS.is_white c) eqn:E; [done|]. simpl. by rewrite E, IH.
Qed.

Lemma remove_white_app (s t : string) :
  JS.remove_white (s +:+ t) = JS.remove_white s +:+ JS.remove_white t.
Proof.
  induction s as [|c s IH]; [done|]. rewrite string_app_cons. simpl.
  destruct (JS.is_white c); [done|]. by rewrite string_app_cons, IH.
Qed.

(** A text that begins with an opening and ends with a closing bracket is
    what [removeBracketsFromArrayString] makes of one string only: the text
    inside one more pair of brackets. *)
Lemma removeBrackets_eq_bracketed (s r : string) :
  JS.startsWith "[" r = true → JS.endsWith "]" r = true →
  removeBracketsFromArrayString s = r ↔ s = "[" +:+ r +:+ "]".
Proof.
  intros Hstart Hend. split.
  - unfold removeBracketsFromArrayString.
    destruct (JS.startsWith "[" s) eqn:Es.
    + destruct s as [|c t]; [done|]. simpl in Es.
      apply bool_decide_eq_true in Es as <-. cbn [JS.slice1].
      destruct (JS.endsWith "]" t) eqn:Et.
      * intros <-. change ("[" +:+ JS.slice_init t +:+ "]")
          with (String "["%char (JS.slice_init t +:+ "]")).
        f_equal. by apply endsWith_inv.
      * intros ->. congruence.
    + destruct (JS.endsWith "]" s) eqn:Et.
      * intros <-. apply endsWith_inv in Et. rewrite Et in Es.
        destruct (JS.slice_init s); [done|]. rewrite string_app_cons in Es.
        simpl in *. congruence.
      * intros ->. congruence.
  - intros ->. unfold removeBracketsFromArrayString.
    change ("[" +:+ r +:+ "]") with (String "["%char (r +:+ "]")).
    cbn [JS.startsWith]. rewrite bool_decide_eq_true_2 by done.
    cbn [JS.slice1]. by rewrite endsWith_snoc, slice_init_snoc.
Qed.

(** *** Merge Overlapping Intervals *)

Section merge_intervals.
Import MergeIntervals.

Lemma insert_perm x sorted : insert x sorted ≡ₚ x :: sorted.
Proof.
  induction sorted as [|y sorted IH]; simpl; [done|].
  case_match; [done|]. by rewrite IH, Permutation_swap.
Qed.

Lemma insert_by_start x sorted : by_start sorted → by_start (insert x sorted).
Proof.
  induction sorted as [|y sorted IH]; intros Hs.
  - by repeat split.
  - destruct Hs as [Hy Hs]. cbn [insert].
    destruct (Z.ltb_spec x.1 y.1) as [Hlt|Hge].
    + split; [|by split]. constructor; [lia|].
      eapply Forall_impl; [exact Hy|]. intros z Hz. simpl in Hz. lia.
    + split; [|by apply IH]. rewrite insert_perm. by constructor.
Qed.

Lemma sort_fold_spec data : ∀ acc,
  by_start acc →
  foldl (λ sorted x, insert x sorted) acc data ≡ₚ data ++ acc
  ∧ by_start (foldl (λ sorted x, insert x sorted) acc data).
Proof.
  induction data as [|x data IH]; intros acc Hacc; [done|].
  simpl. destruct (IH (insert x acc) (insert_by_start x acc Hacc)) as [Hp Hs].
  split; [|done]. rewrite Hp, insert_perm. by rewrite Permutation_middle.
Qed.

Lemma sort_spec data : sort data ≡ₚ data ∧ by_start (sort data).
Proof.
  destruct (sort_fold_spec data []) as [Hp Hs]; [done|].
  by rewrite app_nil_r in Hp.
Qed.

Lemma covers_app l1 l2 x : covers (l1 ++ l2) x ↔ covers l1 x ∨ covers l2 x.
Proof.
  unfold covers. split.
  - intros (iv & Hin & Hx). apply elem_of_app in Hin as [?|?]; eauto.
  - intros [(iv & Hin & Hx)|(iv & Hin & Hx)]; exists iv; rewrite elem_of_app; auto.
Qed.

Lemma covers_singleton iv x : covers [iv] x ↔ iv.1 ≤ x ≤ iv.2.
Proof.
  unfold covers. split.
  - intros (iv' & Hin & Hx). by apply list_elem_of_singleton in Hin as ->.
  - intros Hx. exists iv. split; [left|done].
Qed.

Lemma covers_cons iv l x : covers (iv :: l) x ↔ iv.1 ≤ x ≤ iv.2 ∨ covers l x.
Proof. by rewrite <- covers_singleton, <- covers_app. Qed.

Lemma separated_snoc l a b :
  separated (l ++ [a]) → a.2 < b.1 → separated ((l ++ [a]) ++ [b]).
Proof.
  intros Hsep Hab. induction l as [|c l IH]; [done|].
  destruct l as [|d l]; simpl in *; [tauto|]. split; [tauto|]. apply IH. tauto.
Qed.

Lemma separated_last l s e e' :
  separated (l ++ [(s, e)]) → separated (l ++ [(s, e')]).
Proof.
  induction l as [|c l IH]; [done|].
  destruct l as [|d l]; simpl in *; [tauto|]. intros [? ?]. split; [done|]. by apply IH.
Qed.

(** The loop over the sorted intervals, from any state whose [start] is
    not after the intervals still to come. *)
Lemma merge_fold_spec (l : list interval) : ∀ res start stop,
  by_start l → Forall (λ iv, start ≤ iv.1) l →
  ∃ res' start' stop',
    foldl merge_step (res, start, stop) l = (res', start', stop')
    ∧ (∀ x, covers (res' ++ [(start', stop')]) x
            ↔ covers (res ++ [(start, stop)]) x ∨ covers l x)
    ∧ (separated (res ++ [(start, stop)]) → separated (res' ++ [(start', stop')]))
    ∧ (Forall (λ iv, iv.1 ≤ iv.2) (res ++ [(start, stop)]) →
       Forall (λ iv, iv.1 ≤ iv.2) l →
       Forall (λ iv, iv.1 ≤ iv.2) (res' ++ [(start', stop')])).
Proof.
  induction l as [|iv l IH]; intros res start stop Hsorted Hstart.
  - exists res, start, stop. split; [done|]. split; [|done].
    intros x. split; [auto|]. intros [?|(iv & Hin & _)]; [done|].
    by apply elem_of_nil in Hin.
  - destruct Hsorted as [Hiv Hsorted].
    apply Forall_cons_1 in Hstart as [Hs Hstart].
    cbn [foldl merge_step]. destruct (Z.leb_spec iv.1 stop) as [Hle|Hgt].
    + destruct (IH res start (Z.max stop iv.2) Hsorted Hstart)
        as (res' & start' & stop' & E & Hcov & Hsep & Hwf).
      exists res', start', stop'. split; [done|]. split; [|split].
      * intros x. rewrite Hcov.
        rewrite !covers_app, !covers_singleton, covers_cons.
        cbn [fst snd]. split; intros H.
        -- destruct H as [[?|?]|?]; [tauto| |tauto].
           destruct (Z.le_gt_cases x stop); [left; right; lia|right; left; lia].
        -- destruct H as [[?|?]|[?|?]];
             [tauto | left; right; lia | left; right; lia | tauto].
      * intros H. apply Hsep. by eapply separated_last.
      * intros H1 H2. apply Forall_cons_1 in H2 as [H2 H3].
        apply Hwf; [|done]. apply Forall_app in H1 as [H1 H4].
        apply Forall_app. split; [done|]. apply Forall_singleton.
        apply Forall_singleton in H4. simpl in *. lia.
    + destruct (IH (res ++ [(start, stop)])%list iv.1 iv.2 Hsorted)
        as (res' & start' & stop' & E & Hcov & Hsep & Hwf).
      { eapply Forall_impl; [exact Hiv|]. intros z Hz. simpl in Hz. lia. }
      exists res', start', stop'. split; [done|]. split; [|split].
      * intros x. rewrite Hcov.
        rewrite !covers_app, !covers_singleton, covers_cons.
        cbn [fst snd]. tauto.
      * intros H. apply Hsep. apply separated_snoc; [done|]. simpl. lia.
      * intros H1 H2. apply Forall_cons_1 in H2 as [H2 H3].
        apply Hwf; [|done]. apply Forall_app. split; [done|].
        by apply Forall_singleton.
Qed.

(** The first iteration of [for (const interval of intervals)] is on
    [intervals[0]] itself, from which [start] and [end] were taken: when
    that interval has [start <= end] it changes nothing, and the loop is the
    one over the other intervals. *)
Lemma merge_first_iteration (first : interval) rest :
  first.1 ≤ first.2 →
  foldl merge_step ([], first.1, first.2) (first :: rest)
  = foldl merge_step ([], first.1, first.2) rest.
Proof.
  intros Hwf. cbn [foldl merge_step].
  destruct (Z.leb_spec first.1 first.2); [|lia]. by rewrite Z.max_id.
Qed.

Lemma merge_reference_spec (data : list interval) :
  data ≠ [] →
  ∃ res, reference data = Ret res
         ∧ (∀ x, covers res x ↔ covers data x)
         ∧ separated res
         ∧ (Forall (λ iv, iv.1 ≤ iv.2) data → Forall (λ iv, iv.1 ≤ iv.2) res)
         ∧ res ≠ [].
Proof.
  intros Hne. destruct (sort_spec data) as [Hperm Hsorted].
  unfold reference. destruct (sort data) as [|first rest] eqn:E.
  { apply Permutation_nil in Hperm. done. }
  destruct Hsorted as [Hfirst Hsorted].
  destruct (merge_fold_spec rest [] first.1 first.2 Hsorted Hfirst)
    as (res' & start' & stop' & Hfold & Hcov & Hsep & Hwf).
  destruct (foldl merge_step _ _) as [[res0 start0] stop0] eqn:Hfold0.
  injection Hfold as -> -> ->.
  exists (res' ++ [(start', stop')])%list. split; [reflexivity|].
  split; [|split; [|split]].
  - intros x. rewrite Hcov. simpl app. rewrite covers_singleton.
    cbn [fst snd]. rewrite <- covers_cons. unfold covers.
    by setoid_rewrite <- Hperm.
  - by apply Hsep.
  - intros Hdata. rewrite <- Hperm in Hdata.
    apply Forall_cons_1 in Hdata as [Hf Hr].
    apply Hwf; [|done]. by apply Forall_singleton.
  - by destruct res'.
Qed.

Lemma join_brackets (arr : list interval) :
  arr ≠ [] →
  let text := join "," ((λ e : interval,
                           "[" +:+ JS.toString e.1 +:+ "," +:+ JS.toString e.2 +:+ "]")
                          <$> arr) in
  JS.startsWith "[" text = true ∧ JS.endsWith "]" text = true.
Proof.
  intros Hne. cbn zeta. split.
  - destruct arr as [|e [|e' arr]]; [done| |]; by apply bool_decide_eq_true_2.
  - induction arr as [|e arr IH]; [done|].
    assert (∀ a b : string,
              JS.endsWith "]" ("[" +:+ a +:+ "," +:+ b +:+ "]") = true) as Hfmt.
    { intros a b. rewrite <- !string_app_assoc. apply endsWith_snoc. }
    destruct arr as [|e' arr]; [apply Hfmt|].
    specialize (IH ltac:(done)).
    change (JS.endsWith "]"
              (("[" +:+ JS.toString e.1 +:+ "," +:+ JS.toString e.2 +:+ "]")
               +:+ "," +:+
               join "," ((λ e : interval,
                            "[" +:+ JS.toString e.1 +:+ "," +:+ JS.toString e.2 +:+ "]")
                           <$> e' :: arr)) = true).
    rewrite endsWith_app; [by rewrite endsWith_app by (by intros E; rewrite E in IH)|].
    done.
Qed.

Lemma convert2DArrayToString_brackets (arr : list interval) :
  arr ≠ [] →
  JS.startsWith "[" (convert2DArrayToString arr) = true
  ∧ JS.endsWith "]" (convert2DArrayToString arr) = true.
Proof.
  intros Hne. destruct (join_brackets arr Hne) as [Hs He].
  unfold convert2DArrayToString. split.
  - destruct (join _ _) as [|c t]; [done|]. simpl in Hs.
    apply bool_decide_eq_true in Hs as <-. by apply bool_decide_eq_true_2.
  - by apply endsWith_remove_white.
Qed.

End merge_intervals.

(** X6: for a non-empty list of intervals with [start <= end], the list
    that Merge Overlapping Intervals compares the answer with covers exactly
    the numbers that the given intervals cover, its intervals have
    [start <= end], and each of them ends before the next one starts. *)
Theorem merge_intervals_reference (data : list MergeIntervals.interval) :
  data ≠ [] → Forall (λ iv, iv.1 ≤ iv.2) data →
  ∃ res, MergeIntervals.reference data = Ret res
         ∧ (∀ x, covers res x ↔ covers data x)
         ∧ Forall (λ iv, iv.1 ≤ iv.2) res
         ∧ separated res.
Proof.
  intros Hne Hdata.
  destruct (merge_reference_spec data Hne) as (res & E & Hcov & Hsep & Hwf & _).
  exists res. auto.
Qed.

Lemma merge_intervals_reference_witness :
  ∃ res, MergeIntervals.reference [(1, 3); (8, 10); (2, 6); (10, 16)] = Ret res
         ∧ (∀ x, covers res x ↔ covers [(1, 3); (8, 10); (2, 6); (10, 16)] x)
         ∧ Forall (λ iv, iv.1 ≤ iv.2) res
         ∧ separated res.
Proof.
  apply (merge_intervals_reference [(1, 3); (8, 10); (2, 6); (10, 16)]).
  - discriminate.
  - repeat constructor; simpl; lia.
Defined.

Example merge_intervals_example :
  MergeIntervals.reference [(1, 3); (8, 10); (2, 6); (10, 16)]
  = Ret [(1, 6); (8, 16)].
Proof. vm_compute. reflexivity. Qed.

(** X7: Merge Overlapping Intervals accepts an answer exactly when, once its
    white space is removed, it is the text [[a,b],[c,d],...] of the merged
    intervals, or that text inside one more pair of brackets. *)
Theorem merge_intervals_accepts (data : list MergeIntervals.interval) (ans : string) :
  data ≠ [] → Forall (λ iv, iv.1 ≤ iv.2) data →
  ∃ res, MergeIntervals.reference data = Ret res ∧
         MergeIntervals.solver data ans
         = Ret (bool_decide
                  (JS.remove_white ans = MergeIntervals.convert2DArrayToString res
                   ∨ JS.remove_white ans
                     = "[" +:+ MergeIntervals.convert2DArrayToString res +:+ "]")).
Proof.
  intros Hne _.
  destruct (merge_reference_spec data Hne) as (res & E & _ & _ & _ & Hres).
  exists res. split; [done|]. unfold MergeIntervals.solver. rewrite E. cbn [rbind].
  destruct (convert2DArrayToString_brackets res Hres) as [Hs He].
  f_equal. apply eq_true_iff_eq.
  rewrite orb_true_iff, !bool_decide_eq_true.
  rewrite <- (removeBrackets_eq_bracketed _ _ Hs He).
  split; intros [?|?]; auto.
Qed.

Lemma merge_intervals_accepts_witness :
  ∃ res, MergeIntervals.reference [(1, 3); (8, 10); (2, 6); (10, 16)] = Ret res ∧
         MergeIntervals.solver [(1, 3); (8, 10); (2, 6); (10, 16)] "[[1, 6], [8, 16]]"
         = Ret (bool_decide
                  (JS.remove_white "[[1, 6], [8, 16]]"
                   = MergeIntervals.convert2DArrayToString res
                   ∨ JS.remove_white "[[1, 6], [8, 16]]"
                     = "[" +:+ MergeIntervals.convert2DArrayToString res +:+ "]")).
Proof.
  apply (merge_intervals_accepts [(1, 3); (8, 10); (2, 6); (10, 16)]).
  - discriminate.
  - repeat constructor; simpl; lia.
Defined.

(** *** Find Largest Prime Factor *)

Section largest_prime_factor_value.
Import LargestPrimeFactor.

(** The inner loop removes every factor [fac] of [n] and nothing else. *)
Lemma divide_out_spec fuel fac : ∀ n,
  2 ≤ fac → 1 ≤ n → (Z.to_nat n < fuel)%nat →
  ∃ n', divide_out fuel n fac = Ret n'
        ∧ 1 ≤ n' ∧ (n' | n) ∧ ¬ (fac | n')
        ∧ (n' = n ∨ (fac | n))
        ∧ (∀ q, Z.prime q → (q | n) → (q | fac) ∨ (q | n')).
Proof.
  induction fuel as [|f IH]; intros n Hfac Hn Hfuel; [lia|].
  cbn [divide_out]. destruct (Z.eqb_spec (Z.rem n fac) 0) as [Hrem|Hrem].
  - apply Z.rem_divide in Hrem; [|lia].
    assert (n = fac * (n / fac)) as Hdiv.
    { destruct Hrem as [k ->]. rewrite Z.div_mul by lia. lia. }
    assert (1 ≤ n / fac < n) as [? ?] by nia.
    destruct (IH (n / fac)) as (n' & -> & H1 & Hd & Hnd & _ & Hq); [lia..|].
    exists n'. split; [done|]. split; [done|]. split; [|split; [done|split; [by right|]]].
    + rewrite Hdiv. by apply Z.divide_mul_r.
    + intros q Hprime Hqn. rewrite Hdiv in Hqn.
      apply Z.divide_prime_mul in Hqn as [?|?]; [by left|by apply Hq|done].
  - exists n. split; [done|]. split; [done|]. split; [done|].
    split; [by rewrite <- Z.rem_divide by lia|]. split; [by left|]. by right.
Qed.

Lemma factor_inv_step data n fac n' :
  factor_inv data n fac → (fac - 1) * (fac - 1) < n →
  1 ≤ n' → (n' | n) → ¬ (fac | n') → (n' = n ∨ (fac | n)) →
  (∀ q, Z.prime q → (q | n) → (q | fac) ∨ (q | n')) →
  factor_inv data n' (fac + 1).
Proof.
  intros (Hn & Hfac & Hdata & Hprimes & Hsmall & Hone) Hlt Hn' Hdiv Hndiv Hsame Hq.
  split; [done|]. split; [lia|]. split; [by etrans|]. split; [|split].
  - intros q Hprime Hqd. destruct (Hprimes q Hprime Hqd) as [?|Hqn]; [left; lia|].
    destruct (Hq q Hprime Hqn) as [Hqf|?]; [|by right].
    left. apply Z.divide_pos_le in Hqf; lia.
  - intros d Hd Hdn. destruct (decide (d = fac)) as [->|]; [done|].
    apply (Hsmall d); [lia|]. by etrans.
  - intros ->. replace (fac + 1 - 1) with fac by lia.
    destruct Hsame as [<-|Hfn]; [nia|]. split; [|by etrans].
    split; [lia|]. intros d Hd Hdf. apply (Hsmall d); [lia|]. by etrans.
Qed.

Lemma factor_loop_spec data fuel : ∀ n fac,
  factor_inv data n fac → (Z.to_nat (n - fac + 1) < fuel)%nat →
  ∃ n' fac', factor_loop fuel n fac = Ret (n', fac')
             ∧ factor_inv data n' fac' ∧ n' ≤ (fac' - 1) * (fac' - 1).
Proof.
  induction fuel as [|f IH]; intros n fac Hinv Hfuel; [lia|].
  cbn [factor_loop]. destruct (Z.ltb_spec ((fac - 1) * (fac - 1)) n) as [Hlt|Hge].
  - pose proof Hinv as (Hn & Hfac & _).
    assert (fac ≤ n) by nia.
    destruct (divide_out_spec (S (Z.to_nat n)) fac n)
      as (n' & -> & H1 & Hd & Hnd & Hsame & Hq); [lia..|].
    cbn [rbind]. apply IH.
    + by eapply factor_inv_step.
    + apply Z.divide_pos_le in Hd; lia.
  - by exists n, fac.
Qed.

Lemma largest_spec data :
  2 ≤ data →
  ∃ p, largest data = Ret p ∧ Z.prime p ∧ (p | data)
       ∧ ∀ q, Z.prime q → (q | data) → q ≤ p.
Proof.
  intros Hdata. unfold largest.
  destruct (factor_loop_spec data (S (Z.to_nat data)) data 2)
    as (n & fac & -> & (Hn & Hfac & Hdiv & Hprimes & Hsmall & Hone) & Hle).
  { split; [lia|]. split; [lia|]. split; [done|]. split; [by right|].
    split; [lia|lia]. }
  { lia. }
  cbn [rbind]. destruct (Z.eqb_spec n 1) as [->|Hn1].
  - destruct (Hone eq_refl) as [Hp Hd]. eexists. split; [done|].
    split; [done|]. split; [done|].
    intros q Hq Hqd. destruct (Hprimes q Hq Hqd) as [?|Hq1]; [lia|].
    apply Z.divide_1_r_nonneg in Hq1; [|apply Z.prime_ge_2 in Hq; lia].
    subst q. by apply Z.not_prime_1 in Hq.
  - assert (fac ≤ n) as Hfn.
    { destruct (Z.le_gt_cases fac n); [done|].
      destruct (Hsmall n); [lia|done]. }
    eexists. split; [done|]. split; [|split; [done|]].
    + split; [lia|]. intros d Hd [k Hk].
      assert (fac ≤ d).
      { destruct (Z.le_gt_cases fac d); [done|].
        destruct (Hsmall d); [lia|]. by exists k. }
      assert (2 ≤ k) by nia.
      assert (fac ≤ k).
      { destruct (Z.le_gt_cases fac k); [done|].
        destruct (Hsmall k); [lia|]. exists d. lia. }
      nia.
    + intros q Hq Hqd. destruct (Hprimes q Hq Hqd) as [?|Hqn]; [lia|].
      apply Z.divide_pos_le in Hqn; lia.
Qed.

End largest_prime_factor_value.

(** X8: for [data >= 2], the number that Find Largest Prime Factor compares
    the answer with is a prime number that divides [data], and no prime
    factor of [data] is larger; the solver accepts an answer exactly when
    [parseInt(ans, 10)] is that prime. *)
Theorem largest_prime_factor_spec (data : Z) :
  2 ≤ data →
  ∃ p, Z.prime p ∧ (p | data) ∧ (∀ q, Z.prime q → (q | data) → q ≤ p)
       ∧ ∀ ans, LargestPrimeFactor.solver data ans
                = Ret (bool_decide (JS.parseInt10 ans = Some p)).
Proof.
  intros Hdata. destruct (largest_spec data Hdata) as (p & E & Hp & Hd & Hmax).
  exists p. split; [done|]. split; [done|]. split; [done|].
  intros ans. unfold LargestPrimeFactor.solver. rewrite E. cbn [rbind].
  f_equal. apply bool_decide_ext. split; congruence.
Qed.

Lemma largest_prime_factor_spec_witness :
  ∃ p, Z.prime p ∧ (p | 600) ∧ (∀ q, Z.prime q → (q | 600) → q ≤ p)
       ∧ ∀ ans, LargestPrimeFactor.solver 600 ans
                = Ret (bool_decide (JS.parseInt10 ans = Some p)).
Proof. apply (largest_prime_factor_spec 600). lia. Defined.

(** *** Unique Paths in a Grid I *)














(** *** Encryption I: Caesar Cipher *)

Lemma code_range a : 0 ≤ JS.code a < 256.
Proof.
  unfold JS.code. pose proof (N_ascii_bounded a) as H. lia.
Qed.

Lemma code_fromCharCode n : 0 ≤ n < 256 → JS.code (Caesar.fromCharCode n) = n.
Proof.
  intros Hn. unfold JS.code, Caesar.fromCharCode.
  rewrite N_ascii_embedding by lia. lia.
Qed.

Lemma fromCharCode_code a : Caesar.fromCharCode (JS.code a) = a.
Proof.
  unfold JS.code, Caesar.fromCharCode. by rewrite N2Z.id, ascii_N_embedding.
Qed.

Lemma code_inj a b : JS.code a = JS.code b → a = b.
Proof. intros H. by rewrite <- (fromCharCode_code a), H, fromCharCode_code. Qed.

Lemma code_space : JS.code " " = 32.
Proof. reflexivity. Qed.

(** A capital letter  moved back by [s] places, around the alphabet, is a
    capital letter; moved back by [26 - s] more places it is itself. *)
Lemma caesar_letter a s :
  65 ≤ JS.code a ≤ 90 → 0 ≤ s ≤ 26 →
  let c := Caesar.fromCharCode (Z.rem (JS.code a - 65 - s + 26) 26 + 65) in
  65 ≤ JS.code c ≤ 90 ∧
  Caesar.fromCharCode (Z.rem (JS.code c - 65 - (26 - s) + 26) 26 + 65) = a.
Proof.
  intros Ha Hs. cbn zeta.
  rewrite Z.rem_mod_nonneg by lia.
  pose proof (Z.mod_pos_bound (JS.code a - 65 - s + 26) 26 ltac:(lia)) as Hy.
  rewrite code_fromCharCode by lia. split; [lia|].
  rewrite Z.rem_mod_nonneg by lia.
  replace ((JS.code a - 65 - s + 26) mod 26 + 65 - 65 - (26 - s) + 26)
    with ((JS.code a - 65 - s + 26) mod 26 + s) by lia.
  rewrite Zplus_mod_idemp_l.
  replace (JS.code a - 65 - s + 26 + s) with (JS.code a - 65 + 1 * 26) by lia.
  rewrite Z.mod_add, Z.mod_small by lia.
  replace (JS.code a - 65 + 65) with (JS.code a) by lia. apply fromCharCode_code.
Qed.

(** X10: on a text of capital letters and spaces and for a shift between 0
    and 26, the text that Encryption I compares the answer with is again
    made of capital letters and spaces, and the same cipher with the shift
    [26 - shift] gives back the plain text. *)
Theorem caesar_round_trip (plain : string) (shift : Z) :
  capitals_or_spaces plain → 0 ≤ shift ≤ 26 →
  capitals_or_spaces (Caesar.cipher plain shift)
  ∧ Caesar.cipher (Caesar.cipher plain shift) (26 - shift) = plain
  ∧ ∀ ans, Caesar.solver (plain, shift) ans = Ret true
           ↔ ans = Caesar.cipher plain shift.
Proof.
  intros Hplain Hshift. split; [|split].
  - induction plain as [|a rest IH]; [done|]. destruct Hplain as [Ha Hrest].
    cbn [Caesar.cipher capitals_or_spaces]. split; [|by apply IH].
    case_bool_decide as Hsp; [by left|]. right.
    destruct Ha as [?|Ha]; [done|]. by apply caesar_letter.
  - induction plain as [|a rest IH]; [done|]. destruct Hplain as [Ha Hrest].
    cbn [Caesar.cipher]. rewrite IH by done. f_equal.
    destruct (decide (a = " "%char)) as [->|Hsp].
    { by rewrite !bool_decide_eq_true_2. }
    rewrite (bool_decide_eq_false_2 (a = " "%char)) by done.
    destruct Ha as [?|Ha]; [done|].
    destruct (caesar_letter a shift Ha Hshift) as [Hc Hback].
    rewrite bool_decide_eq_false_2; [done|].
    intros E. rewrite E, code_space in Hc. lia.
  - intros ans. unfold Caesar.solver. cbn [fst snd]. split.
    + intros [= H]. by apply bool_decide_eq_true in H.
    + intros ->. by rewrite bool_decide_eq_true_2.
Qed.

Lemma caesar_round_trip_witness :
  capitals_or_spaces (Caesar.cipher "FLASH MEDIA" 3)
  ∧ Caesar.cipher (Caesar.cipher "FLASH MEDIA" 3) (26 - 3) = "FLASH MEDIA"
  ∧ ∀ ans, Caesar.solver ("FLASH MEDIA", 3) ans = Ret true
           ↔ ans = Caesar.cipher "FLASH MEDIA" 3.
Proof.
  apply (caesar_round_trip "FLASH MEDIA" 3); [|lia].
  simpl. unfold JS.code. simpl. repeat split; (by left) || (right; lia).
Defined.

(** *** Encryption II: Vigenère Cipher *)

Lemma inverse_key_length key : String.length (inverse_key key) = String.length key.
Proof. induction key as [|k rest IH]; [done|]. simpl. by rewrite IH. Qed.

Lemma inverse_key_get key : ∀ j,
  String.get j (inverse_key key)
  = (λ k, Caesar.fromCharCode ((26 - (JS.code k - 65)) mod 26 + 65))
      <$> String.get j key.
Proof.
  induction key as [|k rest IH]; intros j; [done|].
  destruct j as [|j]; [done|]. simpl. apply IH.
Qed.

Lemma capitals_get key : ∀ j k,
  capitals key → String.get j key = Some k → 65 ≤ JS.code k ≤ 90.
Proof.
  induction key as [|k0 rest IH]; intros j k Hkey Hget; [done|].
  destruct Hkey as [Hk0 Hrest]. destruct j as [|j]; simpl in Hget.
  - by injection Hget as <-.
  - by eapply IH.
Qed.

Lemma string_get_lt key : ∀ j,
  (j < String.length key)%nat → ∃ k, String.get j key = Some k.
Proof.
  induction key as [|k0 rest IH]; intros j Hj; simpl in Hj; [lia|].
  destruct j as [|j]; [by eexists|]. simpl. apply IH. lia.
Qed.

(** A capital letter moved forward by the distance of the key letter from
    A is a capital letter; moved forward by that of the inverse key letter
    it is itself again. *)
Lemma vigenere_letter a k :
  65 ≤ JS.code a ≤ 90 → 65 ≤ JS.code k ≤ 90 →
  let c := Caesar.fromCharCode (Z.rem (JS.code a - 2 * 65 + JS.code k) 26 + 65) in
  let k' := Caesar.fromCharCode ((26 - (JS.code k - 65)) mod 26 + 65) in
  65 ≤ JS.code c ≤ 90 ∧
  Caesar.fromCharCode (Z.rem (JS.code c - 2 * 65 + JS.code k') 26 + 65) = a.
Proof.
  intros Ha Hk. cbn zeta.
  rewrite Z.rem_mod_nonneg by lia.
  pose proof (Z.mod_pos_bound (JS.code a - 2 * 65 + JS.code k) 26 ltac:(lia)) as Hy.
  pose proof (Z.mod_pos_bound (26 - (JS.code k - 65)) 26 ltac:(lia)) as Hk'.
  rewrite !code_fromCharCode by lia. split; [lia|].
  rewrite Z.rem_mod_nonneg by lia.
  replace ((JS.code a - 2 * 65 + JS.code k) mod 26 + 65 - 2 * 65
           + ((26 - (JS.code k - 65)) mod 26 + 65))
    with ((JS.code a - 2 * 65 + JS.code k) mod 26
          + (26 - (JS.code k - 65)) mod 26) by lia.
  rewrite <- Zplus_mod.
  replace (JS.code a - 2 * 65 + JS.code k + (26 - (JS.code k - 65)))
    with (JS.code a - 65 + 1 * 26) by lia.
  rewrite Z.mod_add, Z.mod_small by lia.
  replace (JS.code a - 65 + 65) with (JS.code a) by lia. apply fromCharCode_code.
Qed.

Lemma vigenere_encrypt key i a :
  key ≠ "" → capitals key → a = " "%char ∨ 65 ≤ JS.code a ≤ 90 →
  let c := Vigenere.encrypt key i a in
  (c = " "%char ∨ 65 ≤ JS.code c ≤ 90)
  ∧ Vigenere.encrypt (inverse_key key) i c = a.
Proof.
  intros Hne Hkey Ha. cbn zeta. unfold Vigenere.encrypt.
  destruct (decide (a = " "%char)) as [->|Hsp].
  { rewrite !bool_decide_eq_true_2 by done. by split; [left|]. }
  destruct Ha as [?|Ha]; [done|].
  rewrite (bool_decide_eq_false_2 (a = " "%char)) by done.
  assert (0 < String.length key)%nat as Hlen
    by (destruct key; [done|simpl; lia]).
  destruct (string_get_lt key (i mod String.length key)) as [k Hk].
  { apply Nat.mod_upper_bound. lia. }
  pose proof (capitals_get key _ k Hkey Hk) as Hkr.
  unfold Vigenere.key_code. rewrite inverse_key_length.
  rewrite !bool_decide_eq_false_2 by lia.
  rewrite inverse_key_get, Hk. cbn [fmap option_fmap option_map].
  destruct (vigenere_letter a k Ha Hkr) as [Hc Hback]. split; [by right|].
  rewrite bool_decide_eq_false_2; [done|].
  intros E. rewrite E, code_space in Hc. lia.
Qed.

(** X11: on a text of capital letters and spaces and for a non-empty
    keyword of capital letters, the text that Encryption II compares the
    answer with is made of capital letters and spaces, and the same cipher
    with the keyword of the inverse letters gives back the plain text. *)
Theorem vigenere_round_trip (plain key : string) :
  capitals_or_spaces plain → capitals key → key ≠ "" →
  capitals_or_spaces (Vigenere.cipher_from key 0 plain)
  ∧ Vigenere.cipher_from (inverse_key key) 0 (Vigenere.cipher_from key 0 plain)
    = plain
  ∧ ∀ ans, Vigenere.solver (plain, key) ans = Ret true
           ↔ ans = Vigenere.cipher_from key 0 plain.
Proof.
  intros Hplain Hkey Hne.
  assert (∀ i, capitals_or_spaces (Vigenere.cipher_from key i plain)
               ∧ Vigenere.cipher_from (inverse_key key) i
                   (Vigenere.cipher_from key i plain) = plain) as Hgen.
  { induction plain as [|a rest IH]; intros i; [done|].
    destruct Hplain as [Ha Hrest]. cbn [Vigenere.cipher_from capitals_or_spaces].
    destruct (vigenere_encrypt key i a Hne Hkey Ha) as [Hc Hback].
    destruct (IH Hrest (S i)) as [IH1 IH2]. split; [done|]. by rewrite Hback, IH2. }
  destruct (Hgen 0%nat) as [H1 H2]. split; [done|]. split; [done|].
  intros ans. unfold Vigenere.solver. cbn [fst snd]. split.
  - intros [= H]. by apply bool_decide_eq_true in H.
  - intros ->. by rewrite bool_decide_eq_true_2.
Qed.

Lemma vigenere_round_trip_witness :
  capitals_or_spaces (Vigenere.cipher_from "LINUX" 0 "DASHBOARD")
  ∧ Vigenere.cipher_from (inverse_key "LINUX") 0
      (Vigenere.cipher_from "LINUX" 0 "DASHBOARD") = "DASHBOARD"
  ∧ ∀ ans, Vigenere.solver ("DASHBOARD", "LINUX") ans = Ret true
           ↔ ans = Vigenere.cipher_from "LINUX" 0 "DASHBOARD".
Proof.
  apply (vigenere_round_trip "DASHBOARD" "LINUX").
  - simpl. unfold JS.code. simpl. repeat split; right; lia.
  - simpl. unfold JS.code. simpl. repeat split; lia.
  - discriminate.
Defined.

Example inverse_key_example : inverse_key "LINUX" = "PSNGD".
Proof. vm_compute. reflexivity. Qed.

(** *** Shortest Path in a Grid: the distances are those of walks *)

Section shortest_path_walks.
Import ShortestPath.
Context (data : grid).

Local Abbreviation H := (length data).
Local Abbreviation W := (length (data !!! 0%nat)).

Lemma walks_snoc p ans q c r :
  walks data p ans q →
  r = match c with
      | "U"%char => (q.1 - 1, q.2)
      | "D"%char => (q.1 + 1, q.2)
      | "L"%char => (q.1, q.2 - 1)
      | _ => (q.1, q.2 + 1)
      end →
  c = "U"%char ∨ c = "D"%char ∨ c = "L"%char ∨ c = "R"%char →
  validPosition data (Z.of_nat W) (Z.of_nat H) r = true →
  walks data p (ans +:+ String c "") r.
Proof.
  intros Hw Hr Hc Hv. apply valid_spec in Hv as (Hy & Hx & Hfree).
  induction Hw as [p|p c0 q0 rest q Hq0 Hc0 Hy0 Hx0 Hf0 Hw IH].
  - by eapply walks_step; [exact Hr|..|apply walks_nil].
  - rewrite string_app_cons. eapply walks_step; [exact Hq0|done..|by apply IH].
Qed.

(** A neighbour is one step up, down, left or right, on a valid cell. *)
Lemma neighbors_step p q :
  q ∈ neighbors data (Z.of_nat W) (Z.of_nat H) p →
  validPosition data (Z.of_nat W) (Z.of_nat H) q = true ∧
  ∃ c, (c = "U"%char ∨ c = "D"%char ∨ c = "L"%char ∨ c = "R"%char) ∧
       q = match c with
           | "U"%char => (p.1 - 1, p.2)
           | "D"%char => (p.1 + 1, p.2)
           | "L"%char => (p.1, p.2 - 1)
           | _ => (p.1, p.2 + 1)
           end.
Proof.
  unfold neighbors. intros [Hv Hq]%list_elem_of_filter. split; [done|].
  repeat (apply elem_of_cons in Hq as [->|Hq]).
  - exists "U"%char. auto.
  - exists "D"%char. auto.
  - exists "L"%char. auto.
  - exists "R"%char. auto 6.
  - by apply elem_of_nil in Hq.
Qed.

Lemma reach_realised p dp D Q q :
  inner_inv data H W p dp D Q → realised data D →
  q ∈ neighbors data (Z.of_nat W) (Z.of_nat H) p →
  realised data (reach p (D, Q) q).1.
Proof.
  intros Hinv Hreal Hq. destruct (neighbors_step p q Hq) as (Hv & c & Hc & Eq).
  pose proof (valid_inside data H W q Hv) as Hin.
  unfold reach. destruct (decide (get2 D q = Infinity)) as [Hinf|Hinf]; [|done].
  cbn [fst]. rewrite (inner_cur _ _ _ _ _ _ _ Hinv). cbn [succ_cell].
  intros r d Hr. destruct (decide (r = q)) as [->|Hne].
  - rewrite (get2_set2_eq H W) in Hr by (done || apply Hinv). injection Hr as <-.
    destruct (Hreal p dp (inner_cur _ _ _ _ _ _ _ Hinv)) as (ans & Hw & Hlen).
    exists (ans +:+ String c ""). split; [by eapply walks_snoc|].
    rewrite string_app_length. simpl. lia.
  - rewrite (get2_set2_ne H W) in Hr by (done || apply Hinv). by apply Hreal.
Qed.

Lemma reach_fold_realised p dp ns : ∀ D Q,
  inner_inv data H W p dp D Q → realised data D →
  (∀ q, q ∈ ns → q ∈ neighbors data (Z.of_nat W) (Z.of_nat H) p) →
  realised data (foldl (reach p) (D, Q) ns).1.
Proof.
  induction ns as [|q ns IH]; intros D Q Hinv Hreal Hns; [done|].
  cbn [foldl].
  destruct (reach_inner data H W p dp D Q q Hinv) as (D1 & Q1 & E1 & Hinv1 & _).
  { eapply elem_of_nbrs. apply Hns. by left. }
  pose proof (reach_realised p dp D Q q Hinv Hreal ltac:(apply Hns; by left)) as Hr1.
  rewrite E1 in *. apply IH; [done|done|]. intros r Hr. apply Hns. by right.
Qed.

Lemma bfs_realised fuel : ∀ D Q D',
  outer_inv data H W D Q → realised data D →
  bfs data (Z.of_nat W) (Z.of_nat H) fuel D Q = Ret D' →
  realised data D'.
Proof.
  induction fuel as [|f IH]; intros D Q D' Hinv Hreal Hbfs; [done|].
  destruct Q as [|p Q]; [by injection Hbfs as <-|]. cbn [bfs] in Hbfs.
  destruct (bfs_step data H W p D Q Hinv) as (D1 & Q1 & E & Hinv1 & _).
  assert (realised data D1) as Hreal1.
  { destruct Hinv as [Hd Hnum H0 [lo HQ] Hb Hcl]. simpl in HQ.
    destruct HQ as (dp & Hp & _ & HQ).
    assert (inner_inv data H W p dp D Q) as Hinner.
    { split; try done.
      - intros q d Hq. by eapply (Hb p dp q d).
      - intros q Hq HqQ Hqp. apply Hcl; [done|]. by apply not_elem_of_cons. }
    pose proof (reach_fold_realised p dp _ D Q Hinner Hreal (λ q Hq, Hq)) as Hr.
    by rewrite E in Hr. }
  rewrite E in Hbfs. by eapply IH.
Qed.

Lemma distances_realised D :
  distances data = Ret D → data !!! 0%nat ≠ [] → realised data D.
Proof.
  intros HD Hrow. destruct data as [|row0 rest] eqn:Edata; [done|].
  rewrite <- Edata in *.
  assert (data !!! 0%nat = row0) as E0 by (by rewrite Edata).
  assert (1 ≤ W)%nat as HW1 by (destruct (data !!! 0%nat); [done|simpl; lia]).
  assert (1 ≤ H)%nat as HH1 by (rewrite Edata; simpl; lia).
  destruct (initial_inv data H W) as [Hinv _]; [done..|].
  unfold distances in HD. rewrite Edata in HD. rewrite <- Edata, <- E0 in HD.
  eapply bfs_realised; [exact Hinv| |exact HD].
  intros q d Hq. destruct (decide (q = (0, 0))) as [->|Hne].
  - rewrite (outer_start _ _ _ _ _ Hinv) in Hq. injection Hq as <-.
    exists "". split; [constructor|done].
  - rewrite (get2_set2_ne H W) in Hq;
      [|apply dims_replicate|unfold in_range; simpl; lia|done].
    destruct (decide (in_range (Z.of_nat H) (Z.of_nat W) q)).
    + by rewrite (get2_replicate H W) in Hq.
    + by rewrite (get2_out_of_range H W) in Hq by (done || apply dims_replicate).
Qed.

End shortest_path_walks.

(** X12: on a grid with a first row that is not empty, Shortest Path in a
    Grid always accepts some answer: the empty string when no walk on cells
    valued 0 leads from the top-left to the bottom-right cell, and otherwise
    a walk to it that no other such walk is shorter than. *)
Theorem shortest_path_solvable (data : ShortestPath.grid) :
  data ≠ [] → data !!! 0%nat ≠ [] →
  ∃ ans,
    ShortestPath.solver data ans = Ret true ∧
    ((ans = "" ∧
      ¬ ∃ w, ShortestPath.walks data (0, 0) w (ShortestPath.destination data))
     ∨ (ShortestPath.walks data (0, 0) ans (ShortestPath.destination data) ∧
        ∀ w, ShortestPath.walks data (0, 0) w (ShortestPath.destination data) →
             (String.length ans ≤ String.length w)%nat)).
Proof.
  intros Hdata Hrow.
  destruct (distances_spec data Hdata Hrow) as (D & HD & Hinv).
  pose proof (distances_realised data D HD Hrow) as Hreal.
  pose proof (ShortestPath.outer_start _ _ _ _ _ Hinv) as Hstart.
  destruct (ShortestPath.get2 D (ShortestPath.destination data))
    as [| |d] eqn:Hdst.
  - pose proof (ShortestPath.outer_numbers _ _ _ _ _ Hinv _
                  (destination_inside data Hdata Hrow)). done.
  - exists "". destruct (solver_cases data "" D Hdata Hrow HD Hinv)
      as [[_ Hs]|(d & Hd & _)]; [|congruence].
    split; [done|]. left. split; [done|]. intros [w Hw].
    destruct (walks_lower_bound data D _ _ _ Hinv Hw 0 Hstart) as (dr & Hdr & _).
    congruence.
  - destruct (Hreal _ _ Hdst) as (ans & Hw & Hlen). exists ans.
    destruct (solver_cases data ans D Hdata Hrow HD Hinv)
      as [[Hinf _]|(d' & Hd' & b & Hs & Hb)]; [congruence|].
    assert (d' = d) as -> by congruence.
    split; [|right; split; [done|]].
    + rewrite Hs. f_equal. apply Hb. split; [done|lia].
    + intros w Hw'.
      destruct (walks_lower_bound data D _ _ _ Hinv Hw' 0 Hstart) as (dr & Hdr & Hle).
      assert (dr = d) as -> by congruence. lia.
Qed.

Lemma shortest_path_solvable_witness :
  ∃ ans,
    ShortestPath.solver [[0; 1]; [0; 0]] ans = Ret true ∧
    ((ans = "" ∧
      ¬ ∃ w, ShortestPath.walks [[0; 1]; [0; 0]] (0, 0) w
               (ShortestPath.destination [[0; 1]; [0; 0]]))
     ∨ (ShortestPath.walks [[0; 1]; [0; 0]] (0, 0) ans
          (ShortestPath.destination [[0; 1]; [0; 0]]) ∧
        ∀ w, ShortestPath.walks [[0; 1]; [0; 0]] (0, 0) w
               (ShortestPath.destination [[0; 1]; [0; 0]]) →
             (String.length ans ≤ String.length w)%nat)).
Proof. apply (shortest_path_solvable [[0; 1]; [0; 0]]); discriminate. Defined.

(** *** Compression I: an answer that is accepted *)

Lemma repeat_char_add c a b :
  JS.repeat_char c (a + b) = JS.repeat_char c a +:+ JS.repeat_char c b.
Proof. induction a as [|a IH]; [done|]. simpl. by rewrite IH. Qed.

Lemma code_digit_char n : (n ≤ 9)%nat → JS.code (digit_char n) - 48 = Z.of_nat n.
Proof. intros Hn. unfold digit_char. rewrite code_fromCharCode by lia. lia. Qed.

(** The decoding loop reads one chunk. *)
Lemma decode_chunk n c rest acc :
  (n ≤ 9)%nat →
  RLE.decode (String (digit_char n) (String c rest)) acc
  = RLE.decode rest (acc +:+ JS.repeat_char c n).
Proof.
  intros Hn. cbn [RLE.decode]. rewrite code_digit_char by done.
  destruct (Z.ltb_spec (Z.of_nat n) 0); [lia|].
  destruct (Z.ltb_spec 9 (Z.of_nat n)); [lia|]. by rewrite Nat2Z.id.
Qed.

Lemma decode_encode_run fuel c : ∀ n rest acc,
  (n ≤ fuel)%nat →
  RLE.decode (encode_run fuel c n +:+ rest) acc
  = RLE.decode rest (acc +:+ JS.repeat_char c n).
Proof.
  induction fuel as [|f IH]; intros n rest acc Hn.
  - replace n with 0%nat by lia. simpl. by rewrite string_app_empty_r.
  - cbn [encode_run]. destruct (decide (n = 0%nat)) as [->|Hn0].
    { simpl. by rewrite string_app_empty_r. }
    destruct (decide (n ≤ 9)%nat) as [H9|H9].
    + rewrite !string_app_cons. by rewrite decode_chunk.
    + rewrite !string_app_cons. rewrite decode_chunk by lia.
      rewrite IH by lia. rewrite string_app_assoc, <- repeat_char_add.
      do 3 f_equal. lia.
Qed.

Lemma length_encode_run fuel c : ∀ n,
  (n ≤ fuel)%nat →
  Z.of_nat (String.length (encode_run fuel c n))
  = RLE.ceil_div (Z.of_nat n) 9 * 2.
Proof.
  unfold RLE.ceil_div.
  induction fuel as [|f IH]; intros n Hn.
  - replace n with 0%nat by lia. done.
  - cbn [encode_run]. destruct (decide (n = 0%nat)) as [->|Hn0]; [done|].
    destruct (decide (n ≤ 9)%nat) as [H9|H9].
    + simpl String.length.
      replace ((Z.of_nat n + 9 - 1) / 9) with 1; [done|].
      apply (Z.div_unique _ _ _ (Z.of_nat n - 1)); lia.
    + simpl String.length. rewrite !Nat2Z.inj_succ, IH by lia.
      replace (Z.of_nat n + 9 - 1) with (Z.of_nat (n - 9) + 9 - 1 + 1 * 9) by lia.
      rewrite Z.div_add by lia. lia.
Qed.

Lemma decode_encode_runs rs : ∀ acc,
  RLE.decode (encode_runs rs) acc = Some (acc +:+ RLE.expand_runs rs).
Proof.
  induction rs as [|[c n] rs IH]; intros acc.
  - simpl. by rewrite string_app_empty_r.
  - cbn [encode_runs RLE.expand_runs].
    by rewrite decode_encode_run, IH, string_app_assoc by lia.
Qed.

Lemma length_encode_runs rs :
  Z.of_nat (String.length (encode_runs rs)) = RLE.spec_min_length_of rs.
Proof.
  induction rs as [|[c n] rs IH]; [done|].
  cbn [encode_runs RLE.spec_min_length_of].
  rewrite string_app_length, Nat2Z.inj_add, IH, length_encode_run by lia. done.
Qed.

Lemma spec_min_length_even rs : ∃ k, RLE.spec_min_length_of rs = k * 2.
Proof.
  induction rs as [|[c n] rs [k IH]]; [by exists 0|].
  cbn [RLE.spec_min_length_of]. rewrite IH.
  exists (RLE.ceil_div (Z.of_nat n) 9 + k). lia.
Qed.

(** X13: Compression I always has an accepted answer: the encoding that
    writes each maximal run of the text in chunks of nine characters and a
    last chunk of what is left. *)
Theorem rle_encoding_accepted (plain : string) :
  RLE.solver plain (rle_encode plain) = Ret true.
Proof.
  unfold RLE.solver, rle_encode.
  pose proof (length_encode_runs (RLE.runs plain)) as Hlen.
  fold (RLE.spec_min_length plain) in Hlen.
  destruct (spec_min_length_even (RLE.runs plain)) as [k Hk].
  fold (RLE.spec_min_length plain) in Hk.
  rewrite bool_decide_eq_false_2.
  2:{ intros Hodd. apply Hodd.
      apply Nat2Z.inj. rewrite Nat2Z.inj_mod, Hlen, Hk. simpl.
      apply Z.mod_mul. lia. }
  rewrite decode_encode_runs. cbn [String.append].
  rewrite runs_expand, bool_decide_eq_false_2 by (by intros H; apply H).
  rewrite min_length_spec. cbn [rbind].
  by rewrite bool_decide_eq_true_2 by lia.
Qed.

Example rle_encode_example : rle_encode "aaaaabccc" = "5a1b3c".
Proof. vm_compute. reflexivity. Qed.
Example rle_encode_long : rle_encode "zzzzzzzzzzzzzzzzzzz" = "9z9z1z".
Proof. vm_compute. reflexivity. Qed.

(** *** Compression I: no answer is shorter *)

Lemma ceil_div_step (k n : nat) :
  (k ≤ 9)%nat →
  RLE.ceil_div (Z.of_nat (k + n)) 9 ≤ RLE.ceil_div (Z.of_nat n) 9 + 1.
Proof.
  intros Hk. unfold RLE.ceil_div.
  replace (Z.of_nat n + 9 - 1) with (Z.of_nat n + 8) by lia.
  rewrite <- (Z.div_add _ 1 9) by lia. apply Z.div_le_mono; lia.
Qed.

(** The runs of a text that begins with [k >= 1] more characters [c]: its
    first run is [k] longer, or a new run of [k]. *)
Lemma runs_prepend c k s :
  (1 ≤ k)%nat →
  ∃ n0 tl,
    RLE.runs (JS.repeat_char c k +:+ s) = (c, (k + n0)%nat) :: tl
    ∧ RLE.spec_min_length_of (RLE.runs s)
      = RLE.ceil_div (Z.of_nat n0) 9 * 2 + RLE.spec_min_length_of tl.
Proof.
  intros Hk. induction k as [|k IH]; [lia|].
  destruct (decide (k = 0)%nat) as [->|Hk0].
  - change (JS.repeat_char c 1 +:+ s) with (String c s). rewrite runs_cons.
    destruct (RLE.runs s) as [|[d n] tl] eqn:E.
    + by exists 0%nat, [].
    + case_bool_decide as Hd.
      * subst d. by exists n, tl.
      * exists 0%nat, ((d, n) :: tl). done.
  - destruct IH as (n0 & tl & E & Hf); [lia|].
    change (JS.repeat_char c (S k) +:+ s) with (String c (JS.repeat_char c k +:+ s)).
    rewrite runs_cons, E, bool_decide_eq_true_2 by done.
    by exists n0, tl.
Qed.

Lemma spec_min_length_prepend c k s :
  (k ≤ 9)%nat →
  RLE.spec_min_length (JS.repeat_char c k +:+ s) ≤ RLE.spec_min_length s + 2.
Proof.
  intros Hk. unfold RLE.spec_min_length.
  destruct (decide (k = 0)%nat) as [->|Hk0].
  { change (JS.repeat_char c 0 +:+ s) with s. lia. }
  destruct (runs_prepend c k s) as (n0 & tl & -> & ->); [lia|].
  cbn [RLE.spec_min_length_of]. pose proof (ceil_div_step k n0 Hk). lia.
Qed.

Lemma spec_min_length_decode ans :
  Forall (λ p, RLE.is_digit p.1) (RLE.chunks ans) →
  RLE.spec_min_length (RLE.spec_decode ans) ≤ Z.of_nat (String.length ans).
Proof.
  induction ans as [| c | d c rest IH] using string_pair_ind.
  - done.
  - intros _. unfold RLE.spec_decode. simpl. done.
  - cbn [RLE.chunks]. intros [Hd Hf]%Forall_cons_1. specialize (IH Hf).
    unfold RLE.spec_decode in *. cbn [RLE.chunks RLE.expand_chunks].
    unfold RLE.is_digit in Hd. simpl in Hd.
    etrans; [apply spec_min_length_prepend; lia|].
    simpl String.length. lia.
Qed.

(** X14: every answer that Compression I accepts has the same length, the
    one the solver computes from the runs of the text: no text that decodes
    to the plain text is shorter, so the bound is the minimum. *)
Theorem rle_accepted_length (plain ans : string) :
  RLE.solver plain ans = Ret true →
  RLE.min_length plain = Ret (Z.of_nat (String.length ans)).
Proof.
  unfold RLE.solver. case_bool_decide as Hlen; [done|].
  destruct (RLE.decode ans "") as [r|] eqn:Hdec; [|done].
  apply decode_Some in Hdec as [Hdig Hr].
  change ("" +:+ RLE.spec_decode ans) with (RLE.spec_decode ans) in Hr. subst r.
  case_bool_decide as Hplain; [done|].
  rewrite min_length_spec. cbn [rbind]. intros [= Hle%bool_decide_eq_true].
  f_equal. pose proof (spec_min_length_decode ans Hdig) as Hge.
  assert (RLE.spec_decode ans = plain) as E.
  { destruct (decide (RLE.spec_decode ans = plain)); [done|]. by destruct Hplain. }
  rewrite E in Hge. lia.
Qed.

Lemma rle_accepted_length_witness :
  RLE.min_length "aaaaabccc" = Ret (Z.of_nat (String.length "5a1b3c")).
Proof. apply (rle_accepted_length "aaaaabccc" "5a1b3c"). reflexivity. Defined.

(** *** Sanitize Parentheses in Expression *)

Section sanitize.
Import SanitizeParentheses.

Lemma removed_left' s t l r :
  removed s t (l - 1) r → removed (String "(" s) t l r.
Proof. intros H. replace l with (l - 1 + 1) by lia. by constructor. Qed.

Lemma removed_right' s t l r :
  removed s t l (r - 1) → removed (String ")" s) t l r.
Proof. intros H. replace r with (r - 1 + 1) by lia. by constructor. Qed.

(** What the search adds to [res]: the solution so far, followed by a text
    that closes all its open parentheses and is the rest of the input
    without [left] opening and [right] closing parentheses. *)
Lemma dfs_sound s : ∀ pair left right solution res x,
  x ∈ dfs pair left right s solution res →
  x ∈ res ∨
  ∃ t, x = solution +:+ t ∧ paren_depth t pair = Some 0 ∧ removed s t left right.
Proof.
  induction s as [|c rest IH]; intros pair left right solution res x.
  - cbn [dfs]. destruct (_ && _) eqn:E; [|by left].
    apply andb_true_iff in E as [[El Er]%andb_true_iff Ep].
    apply Z.eqb_eq in El, Er, Ep. subst.
    case_bool_decide; [by left|].
    intros [?|Hx%list_elem_of_singleton]%elem_of_app; [by left|]. subst x.
    right. exists "". split; [by rewrite string_app_empty_r|].
    split; [done|constructor].
  - cbn [dfs]. case_bool_decide as Hopen; [subst c|case_bool_decide as Hclose; [subst c|]].
    + intros [Hx|(t & -> & Hd & Hr)]%IH.
      * destruct (Z.ltb_spec 0 left); [|by left].
        apply IH in Hx as [?|(t & -> & Hd & Hr)]; [by left|].
        right. exists t. split; [done|]. split; [done|]. by apply removed_left'.
      * right. exists (String "(" t). split; [by rewrite string_app_assoc|].
        split; [|by constructor].
        cbn [paren_depth]. by rewrite bool_decide_eq_true_2.
    + assert (x ∈ res ∨
              (∃ t, x = solution +:+ t ∧ paren_depth t pair = Some 0
                    ∧ removed (String ")" rest) t left right) →
              x ∈ res ∨
              ∃ t, x = solution +:+ t ∧ paren_depth t pair = Some 0
                   ∧ removed (String ")" rest) t left right) as Hid by done.
      assert (x ∈ (if 0 <? right
                   then dfs pair left (right - 1) rest solution res else res) →
              x ∈ res ∨
              ∃ t, x = solution +:+ t ∧ paren_depth t pair = Some 0
                   ∧ removed (String ")" rest) t left right) as Hdel.
      { destruct (Z.ltb_spec 0 right); [|by left].
        intros [?|(t & -> & Hd & Hr)]%IH; [by left|].
        right. exists t. split; [done|]. split; [done|]. by apply removed_right'. }
      destruct (Z.ltb_spec 0 pair) as [Hpair|Hpair]; [|exact Hdel].
      intros [Hx|(t & -> & Hd & Hr)]%IH; [by apply Hdel|].
      right. exists (String ")" t). split; [by rewrite string_app_assoc|].
      split; [|by constructor].
      cbn [paren_depth]. rewrite bool_decide_eq_false_2 by done.
      rewrite bool_decide_eq_true_2 by done.
      by destruct (Z.ltb_spec 0 pair); [|lia].
    + intros [Hx|(t & -> & Hd & Hr)]%IH; [by left|].
      right. exists (String c t). split; [by rewrite string_app_assoc|].
      split; [|by constructor].
      cbn [paren_depth]. by rewrite !bool_decide_eq_false_2.
Qed.

Lemma dfs_NoDup s : ∀ pair left right solution res,
  NoDup res → NoDup (dfs pair left right s solution res).
Proof.
  induction s as [|c rest IH]; intros pair left right solution res Hres.
  - cbn [dfs]. destruct (_ && _); [|done]. case_bool_decide; [done|].
    apply NoDup_app. split; [done|]. split; [|apply NoDup_singleton].
    intros x Hx Hx'%list_elem_of_singleton. by subst x.
  - cbn [dfs]. repeat case_bool_decide; repeat case_match; auto.
Qed.

Lemma dfs_mono s : ∀ pair left right solution res x,
  x ∈ res → x ∈ dfs pair left right s solution res.
Proof.
  induction s as [|c rest IH]; intros pair left right solution res x Hx.
  - cbn [dfs]. destruct (_ && _); [|done]. case_bool_decide; [done|].
    apply elem_of_app. by left.
  - cbn [dfs]. repeat case_bool_decide; repeat case_match; auto.
Qed.

Lemma removed_nonneg s t l r : removed s t l r → 0 ≤ l ∧ 0 ≤ r.
Proof. induction 1; lia. Qed.

(** The search finds every such text. *)
Lemma dfs_complete s t left right :
  removed s t left right →
  ∀ pair solution res,
    paren_depth t pair = Some 0 →
    solution +:+ t ∈ dfs pair left right s solution res.
Proof.
  induction 1 as [|c s t l r Hr IH|s t l r Hr IH|s t l r Hr IH];
    intros pair solution res Hd.
  - cbn [dfs]. injection Hd as ->. cbn [Z.eqb andb].
    rewrite string_app_empty_r. case_bool_decide; [done|].
    apply elem_of_app. right. by left.
  - cbn [dfs]. cbn [paren_depth] in Hd.
    change (solution +:+ String c t) with (solution +:+ (String c "" +:+ t)).
    rewrite <- string_app_assoc.
    case_bool_decide; [by apply IH|]. case_bool_decide; [|by apply IH].
    destruct (Z.ltb_spec 0 pair); [by apply IH|done].
  - cbn [dfs]. rewrite bool_decide_eq_true_2 by done.
    apply dfs_mono. apply removed_nonneg in Hr as Hl.
    destruct (Z.ltb_spec 0 (l + 1)); [|lia].
    replace (l + 1 - 1) with l by lia. by apply IH.
  - cbn [dfs]. rewrite bool_decide_eq_false_2 by done.
    rewrite bool_decide_eq_true_2 by done.
    apply removed_nonneg in Hr as Hl.
    destruct (Z.ltb_spec 0 (r + 1)); [|lia].
    replace (r + 1 - 1) with r by lia.
    destruct (Z.ltb_spec 0 pair); [apply dfs_mono|]; by apply IH.
Qed.

(** The counts of the first loop against any way to balance the text:
    [a] and [b] are the counts so far, [d] the depth of the text kept so
    far, [l0] and [r0] the parentheses removed so far. *)
Lemma excess_least s t l r :
  removed s t l r →
  ∀ a b d l0 r0,
    paren_depth t d = Some 0 →
    0 ≤ d → 0 ≤ a → 0 ≤ l0 → b ≤ r0 → d + l0 + b = a + r0 →
    (excess s a b).1 ≤ l0 + l ∧ (excess s a b).2 ≤ r0 + r.
Proof.
  induction 1 as [|c s t l r Hr IH|s t l r Hr IH|s t l r Hr IH];
    intros a b d l0 r0 Hd Hd0 Ha Hl0 Hb Heq.
  - injection Hd as ->. simpl. lia.
  - cbn [excess]. cbn [paren_depth] in Hd.
    case_bool_decide; [apply (IH _ _ (d + 1)); (done || lia)|].
    case_bool_decide; [|by apply (IH _ _ d)].
    destruct (Z.ltb_spec 0 d); [|done].
    destruct (Z.ltb_spec 0 a); apply (IH _ _ (d - 1)); (done || lia).
  - cbn [excess]. rewrite bool_decide_eq_true_2 by done.
    destruct (IH (a + 1) b d (l0 + 1) r0) as [? ?]; (done || lia).
  - cbn [excess]. rewrite bool_decide_eq_false_2 by done.
    rewrite bool_decide_eq_true_2 by done.
    destruct (Z.ltb_spec 0 a).
    + destruct (IH (a - 1) b d l0 (r0 + 1)) as [? ?]; (done || lia).
    + destruct (IH a (b + 1) d l0 (r0 + 1)) as [? ?]; (done || lia).
Qed.

End sanitize.

Lemma sanitize_reference_unique (data : string) :
  NoDup (SanitizeParentheses.reference data).
Proof. apply dfs_NoDup, NoDup_nil_2. Qed.

(** X15: the list that Sanitize Parentheses in Expression compares the
    answer with holds, once each, exactly the strings with balanced
    parentheses that are the input without as many opening and as many
    closing parentheses as the first loop counted. *)
Theorem sanitize_reference_exact (data : string) :
  NoDup (SanitizeParentheses.reference data)
  ∧ ∀ x, x ∈ SanitizeParentheses.reference data ↔
         paren_depth x 0 = Some 0
         ∧ removed data x (SanitizeParentheses.excess data 0 0).1
                          (SanitizeParentheses.excess data 0 0).2.
Proof.
  unfold SanitizeParentheses.reference. split; [apply dfs_NoDup, NoDup_nil_2|].
  intros x. split.
  - intros [Hx|(t & -> & Hd & Hr)]%dfs_sound; [by apply elem_of_nil in Hx|done].
  - intros [Hd Hr]. by apply (dfs_complete _ _ _ _ Hr 0 "" []).
Qed.

(** X16: the two numbers that the first loop of Sanitize Parentheses in
    Expression counts are the least numbers of opening and of closing
    parentheses to remove: a string with balanced parentheses that is the
    input without some of its parentheses lacks at least that many of
    each. *)
Theorem sanitize_counts_least (data x : string) (l r : Z) :
  removed data x l r → paren_depth x 0 = Some 0 →
  (SanitizeParentheses.excess data 0 0).1 ≤ l
  ∧ (SanitizeParentheses.excess data 0 0).2 ≤ r.
Proof.
  intros Hr Hd.
  destruct (excess_least data x l r Hr 0 0 0 0 0 Hd) as [? ?]; lia.
Qed.

Lemma sanitize_counts_least_witness :
  (SanitizeParentheses.excess "())" 0 0).1 ≤ 0
  ∧ (SanitizeParentheses.excess "())" 0 0).2 ≤ 0 + 1.
Proof.
  apply (sanitize_counts_least "())" "()" 0 (0 + 1)).
  - apply removed_keep, removed_keep, removed_right, removed_nil.
  - reflexivity.
Defined.

Example sanitize_excess_example : SanitizeParentheses.excess "()())()" 0 0 = (0, 1).
Proof. reflexivity. Qed.

(** *** Sanitize Parentheses in Expression: the comparison *)

(** The comparison of the solver: the same number of entries, and every
    expected string among those of the answer. *)
Lemma includes_all_spec (res answer : list string) :
  NoDup res →
  (if bool_decide (length answer ≠ length res) then false
   else forallb (λ x, bool_decide (x ∈ answer)) res) = true
  ↔ answer ≡ₚ res.
Proof.
  intros Hnd. case_bool_decide as Hlen.
  - split; [done|]. intros Hp. by rewrite Hp in Hlen.
  - rewrite forallb_forall. split.
    + intros Hall. symmetry. apply submseteq_length_Permutation; [|lia].
      apply NoDup_submseteq; [done|].
      intros x Hx. apply list_elem_of_In, Hall, bool_decide_eq_true in Hx. done.
    + intros Hp x Hx. apply bool_decide_eq_true. rewrite Hp.
      by apply list_elem_of_In.
Qed.

(** X17: Sanitize Parentheses in Expression accepts an answer exactly when
    its entries (split at the commas, white space and one pair of quotes
    removed) are the expected strings in some order, each one once: a
    repeated entry cannot stand for a missing one. *)
Theorem sanitize_accepts_permutation (data ans : string) :
  SanitizeParentheses.solver data ans = true
  ↔ SanitizeParentheses.canonical ans ≡ₚ SanitizeParentheses.reference data.
Proof.
  unfold SanitizeParentheses.solver. apply includes_all_spec.
  apply sanitize_reference_unique.
Qed.

(** *** Square Root *)

(** X18: for a state that [generate] returns, the number that the player
    is shown is [root * root + offset], and the only accepted answer, the
    decimal text of [root], is that of the integer nearest to its square
    root: [(2 root - 1)^2 < 4 data < (2 root + 1)^2]. *)
Theorem square_root_nearest (st : SquareRoot.state) :
  SquareRoot.generated st →
  ∃ root data,
    SquareRoot.getData st = Some data
    ∧ (2 * root - 1) ^ 2 < 4 * data < (2 * root + 1) ^ 2
    ∧ ∀ ans, SquareRoot.solver st ans = true ↔ ans = JS.toString root.
Proof.
  intros (root & offset & [Hlo _] & Hoff & ->).
  exists root, (root * root + offset). split; [|split].
  - unfold SquareRoot.getData. cbn [fst snd]. by rewrite !BigInt_toString.
  - assert (1 ≤ root) as Hroot.
    { etrans; [|exact Hlo]. by apply (Z.pow_le_mono_r 2 0 332). }
    clear Hlo. nia.
  - intros ans. unfold SquareRoot.solver. cbn [fst].
    rewrite bool_decide_eq_true. split; congruence.
Qed.

Lemma square_root_nearest_witness :
  ∃ root data,
    SquareRoot.getData (JS.toString (2 ^ 332), JS.toString 0) = Some data
    ∧ (2 * root - 1) ^ 2 < 4 * data < (2 * root + 1) ^ 2
    ∧ ∀ ans, SquareRoot.solver (JS.toString (2 ^ 332), JS.toString 0) ans = true
             ↔ ans = JS.toString root.
Proof.
  apply (square_root_nearest (JS.toString (2 ^ 332), JS.toString 0)).
  exists (2 ^ 332), 0. split; [lia|]. split; [lia|reflexivity].
Defined.

(** *** Minimum Path Sum in a Triangle *)





Section triangle.
Context (data : list (list Z)).
Hypothesis shape : ∀ i row, data !! i = Some row → length row = S i.





End triangle.



(** *** Array Jumping Game II *)

Section jumps.
Context (data : list Z).

Lemma within_mono k p : within data k p → within data (S k) p.
Proof.
  induction 1 as [k|k i j Hi IH Hij Hj]; [constructor|].
  by apply (within_jump data (S k) i j).
Qed.

Lemma scan_fold reach0 (l : list Z) : ∀ seen st,
  (∀ i, i ∈ l → 0 ≤ i) →
  scan_inv data reach0 seen st →
  scan_inv data reach0 (seen ++ l)
    (foldl (λ st i,
              let '(reach, jumpedFrom) := st in
              if reach <? i + data !!! Z.to_nat i
              then (i + data !!! Z.to_nat i, i) else (reach, jumpedFrom))
           st l).
Proof.
  induction l as [|i l IH]; intros seen [r jf] Hpos Hinv.
  - by rewrite app_nil_r.
  - cbn [foldl]. replace (seen ++ i :: l)%list with ((seen ++ [i]) ++ l)%list
      by (by rewrite <- app_assoc).
    apply IH; [intros i' Hi'; apply Hpos; by right|].
    destruct Hinv as (Hr & Hseen & Hjf). cbn [fst snd] in *.
    destruct (Z.ltb_spec r (i + data !!! Z.to_nat i)) as [Hlt|Hge].
    + split; [cbn [fst]; lia|]. split.
      * intros i' [Hi'|Hi']%elem_of_app; cbn [fst].
        -- specialize (Hseen i' Hi'). lia.
        -- apply list_elem_of_singleton in Hi' as ->. lia.
      * right. cbn [fst snd]. split; [|lia].
        apply elem_of_app. right. by left.
    + split; [done|]. split.
      * intros i' [Hi'|Hi']%elem_of_app; cbn [fst].
        -- by apply Hseen.
        -- apply list_elem_of_singleton in Hi' as ->. lia.
      * cbn [fst snd]. destruct Hjf as [?|(Hin & ? & ?)]; [by left|].
        right. split; [|done]. apply elem_of_app. by left.
Qed.

Lemma elem_of_downto a b i : i ∈ Spiralize.downto a b ↔ b ≤ i ≤ a.
Proof.
  unfold Spiralize.downto. rewrite elem_of_reverse, elem_of_seqZ. lia.
Qed.

Lemma scan_spec reach lastJump :
  -1 ≤ lastJump →
  let st := ArrayJumpII.scan data reach lastJump in
  reach ≤ st.1 ∧
  (∀ i, lastJump < i ≤ reach → i + data !!! Z.to_nat i ≤ st.1) ∧
  ((st.2 = -1 ∧ st.1 = reach) ∨
   (lastJump < st.2 ≤ reach ∧ st.1 = st.2 + data !!! Z.to_nat st.2 ∧ reach < st.1)).
Proof.
  intros Hl. cbn zeta. unfold ArrayJumpII.scan.
  destruct (scan_fold reach (Spiralize.downto reach (lastJump + 1)) [] (reach, -1))
    as (Hr & Hseen & Hjf).
  { intros i Hi%elem_of_downto. lia. }
  { split; [cbn; lia|]. split; [by intros i Hi%elem_of_nil|]. by left. }
  rewrite app_nil_l in *. split; [done|]. split.
  - intros i Hi. apply Hseen, elem_of_downto. lia.
  - destruct Hjf as [?|(Hin%elem_of_downto & ? & ?)]; [by left|].
    right. split; [lia|done].
Qed.

(** A pass that finds no jump: nothing beyond [reach] can be reached. *)
Lemma jumps_inv_stuck reach jumps lastJump :
  jumps_inv data reach jumps lastJump →
  (∀ i, lastJump < i ≤ reach → i + data !!! Z.to_nat i ≤ reach) →
  ∀ k p, within data k p → Z.of_nat p ≤ reach.
Proof.
  intros (Hr & Hj & Hl & _ & _ & Hlast & _) Hscan k p.
  induction 1 as [k|k i j Hi IH Hij Hjump]; [lia|].
  destruct (Z.le_gt_cases (Z.of_nat i) lastJump) as [Hle|Hgt].
  - by apply (Hlast i j).
  - specialize (Hscan (Z.of_nat i) ltac:(lia)). rewrite Nat2Z.id in Hscan. lia.
Qed.

Lemma jumps_inv_step reach jumps lastJump :
  jumps_inv data reach jumps lastJump →
  reach < Z.of_nat (length data) - 1 →
  let st := ArrayJumpII.scan data reach lastJump in
  st.2 ≠ -1 →
  jumps_inv data st.1 (jumps + 1) st.2 ∧ reach < st.1.
Proof.
  intros Hinv Hlt. pose proof Hinv as (Hr & Hj & Hl & Hin & Hout & Hlast & Hmin).
  cbn zeta. destruct (scan_spec reach lastJump) as (Hge & Hscan & Hjf); [lia|].
  destruct (ArrayJumpII.scan data reach lastJump) as [reach' jf]. cbn [fst snd] in *.
  intros Hne. destruct Hjf as [[? _]|(Hjf & Hreach' & Hgt)]; [done|].
  split; [|done]. unfold jumps_inv.
  replace (Z.to_nat (jumps + 1)) with (S (Z.to_nat jumps)) by lia.
  assert (∀ i j, Z.of_nat i ≤ reach → (i < j < length data)%nat →
                 Z.of_nat j ≤ Z.of_nat i + data !!! i → Z.of_nat j ≤ reach')
    as Hall.
  { intros i j Hi Hij Hjump.
    destruct (Z.le_gt_cases (Z.of_nat i) lastJump) as [Hle|Hgt'].
    - specialize (Hlast i j Hle Hij Hjump). lia.
    - specialize (Hscan (Z.of_nat i) ltac:(lia)). rewrite Nat2Z.id in Hscan. lia. }
  split; [lia|]. split; [lia|]. split; [lia|]. split; [|split; [|split]].
  - intros p Hp Hpr.
    destruct (Z.le_gt_cases (Z.of_nat p) jf) as [Hle|Hgt'].
    + apply within_mono, Hin; [done|lia].
    + apply (within_jump data _ (Z.to_nat jf) p).
      * apply Hin; lia.
      * lia.
      * rewrite Z2Nat.id by lia. lia.
  - intros p Hp. inversion Hp as [k|k i j Hi Hij Hjump]; subst; [lia|].
    apply (Hall i p); [by apply Hout|done|done].
  - intros i j Hi. apply Hall. lia.
  - intros k Hk Hw. destruct (decide (k = Z.to_nat jumps)) as [->|].
    + apply Hout in Hw.
      assert (0 < length data)%nat by lia. lia.
    + apply (Hmin k); [lia|done].
Qed.

Lemma jumps_loop_spec fuel : ∀ reach jumps lastJump,
  data ≠ [] →
  jumps_inv data reach jumps lastJump →
  (Z.to_nat (Z.of_nat (length data) - 1 - reach) < fuel)%nat →
  ∃ r : nat,
    ArrayJumpII.loop fuel data reach jumps lastJump = Ret (Z.of_nat r)
    ∧ ((∃ k, within data k (length data - 1)) →
       within data r (length data - 1)
       ∧ ∀ k, within data k (length data - 1) → (r ≤ k)%nat)
    ∧ ((¬ ∃ k, within data k (length data - 1)) → r = 0%nat).
Proof.
  induction fuel as [|f IH]; intros reach jumps lastJump Hne Hinv Hfuel; [lia|].
  assert (0 < length data)%nat as Hlen by (destruct data; [done|simpl; lia]).
  cbn [ArrayJumpII.loop].
  destruct (Z.ltb_spec reach (Z.of_nat (length data) - 1)) as [Hlt|Hge].
  - pose proof (jumps_inv_step reach jumps lastJump Hinv Hlt) as Hstep.
    pose proof (scan_spec reach lastJump) as Hscan.
    pose proof Hinv as (_ & _ & Hl & _).
    destruct (ArrayJumpII.scan data reach lastJump) as [reach' jf].
    cbn zeta in *. cbn [fst snd] in *.
    destruct (Z.eqb_spec jf (-1)) as [->|Hjf].
    + exists 0%nat. split; [done|].
      destruct Hscan as (_ & Hs & [[_ ->]|(? & _)]); [lia| |lia].
      assert (∀ k, ¬ within data k (length data - 1)) as Hno.
      { intros k Hw. apply (jumps_inv_stuck _ _ _ Hinv Hs) in Hw. lia. }
      split; [|done]. intros [k Hk]. by destruct (Hno k).
    + destruct (Hstep Hjf) as [Hinv' Hgt]. apply IH; [done|done|lia].
  - destruct Hinv as (Hr & Hj & Hl & Hin & Hout & Hlast & Hmin).
    exists (Z.to_nat jumps). rewrite Z2Nat.id by lia. split; [done|]. split.
    + intros _. split; [apply Hin; lia|].
      intros k Hk. destruct (Nat.le_gt_cases (Z.to_nat jumps) k) as [?|Hlt']; [done|].
      by destruct (Hmin k Hlt').
    + intros Hno. destruct Hno. exists (Z.to_nat jumps). apply Hin; lia.
Qed.

End jumps.

(** X20: for a non-empty array, Array Jumping Game II accepts an answer
    exactly when [parseInt(ans, 10)] is the least number of jumps (from [i]
    to any position up to [i + data[i]]) that lead from the first to the
    last position, or 0 when no number of jumps does. *)
Theorem array_jump_II_least (data : list Z) :
  data ≠ [] →
  ∃ r : nat,
    ((∃ k, within data k (length data - 1)) →
     within data r (length data - 1)
     ∧ ∀ k, within data k (length data - 1) → (r ≤ k)%nat)
    ∧ ((¬ ∃ k, within data k (length data - 1)) → r = 0%nat)
    ∧ ∀ ans, ArrayJumpII.solver data ans
             = Ret (bool_decide (Some (Z.of_nat r) = JS.parseInt10 ans)).
Proof.
  intros Hne.
  destruct (jumps_loop_spec data (S (length data)) 0 0 (-1) Hne)
    as (r & E & Hsome & Hnone).
  - split; [lia|]. split; [lia|]. split; [lia|]. split; [|split; [|split]].
    + intros p _ Hp. replace p with 0%nat by lia. constructor.
    + intros p Hp. inversion Hp; lia.
    + intros i j Hi. lia.
    + intros k Hk. simpl in Hk. lia.
  - lia.
  - exists r. split; [done|]. split; [done|]. intros ans.
    unfold ArrayJumpII.solver, ArrayJumpII.reference. by rewrite E.
Qed.

Lemma array_jump_II_least_witness :
  ∃ r : nat,
    ((∃ k, within [2; 3; 1; 1; 4] k 4) →
     within [2; 3; 1; 1; 4] r 4
     ∧ ∀ k, within [2; 3; 1; 1; 4] k 4 → (r ≤ k)%nat)
    ∧ ((¬ ∃ k, within [2; 3; 1; 1; 4] k 4) → r = 0%nat)
    ∧ ∀ ans, ArrayJumpII.solver [2; 3; 1; 1; 4] ans
             = Ret (bool_decide (Some (Z.of_nat r) = JS.parseInt10 ans)).
Proof. apply (array_jump_II_least [2; 3; 1; 1; 4]). discriminate. Defined.

(** *** Algorithmic Stock Trader II *)

Section stock_II.
Context (data : list Z).








End stock_II.


Example stock_II_plan :
  daily_plan [7; 1; 5; 3; 6; 4] 0 5 = [(1, 2); (3, 4)]%nat.
Proof. reflexivity. Qed.

(** *** Unique Paths in a Grid II *)






Section grid_paths.
Context (data : list (list Z)) (H W : nat).






End grid_paths.









(** *** Algorithmic Stock Trader III and IV: the dynamic program is optimal *)











Section trader.
Import StockIV.
Context (data : list Z) (k : nat).





End trader.








(** *** Generate IP Addresses *)

Lemma substring_0_app (s t : string) :
  String.substring 0 (String.length s) (s +:+ t) = s.
Proof.
  induction s as [|c s IH]; simpl; [by destruct t|]. by rewrite IH.
Qed.

Lemma substring_skip_app (s t : string) n m :
  String.substring (String.length s + n) m (s +:+ t) = String.substring n m t.
Proof. induction s as [|c s IH]; simpl; [done|]. by rewrite IH. Qed.

Lemma string_split_at : ∀ n (s : string),
  (n ≤ String.length s)%nat →
  ∃ s1 s2, s = s1 +:+ s2 ∧ String.length s1 = n.
Proof.
  induction n as [|n IH]; intros s Hn; [by exists "", s|].
  destruct s as [|c s]; [simpl in Hn; lia|].
  destruct (IH s) as (s1 & s2 & -> & <-); [simpl in Hn; lia|].
  by exists (String c s1), s2.
Qed.

Lemma all_digits_app R (s t : string) :
  JS.all_digits R (s +:+ t) = JS.all_digits R s && JS.all_digits R t.
Proof.
  induction s as [|c s IH]; simpl; [done|]. by rewrite IH, andb_assoc.
Qed.

(** The four pieces the loop body cuts out of [data]. *)
Lemma four_substrings (s1 s2 s3 s4 : string) :
  let data := s1 +:+ s2 +:+ s3 +:+ s4 in
  let a := String.length s1 in
  let b := String.length s2 in
  let c := String.length s3 in
  let d := String.length s4 in
  String.substring 0 a data = s1 ∧ String.substring a b data = s2
  ∧ String.substring (a + b) c data = s3
  ∧ String.substring (a + b + c) d data = s4.
Proof.
  intros data a b c d. unfold data, a, b, c, d. split; [|split; [|split]].
  - apply substring_0_app.
  - rewrite <- (Nat.add_0_r (String.length s1)), substring_skip_app.
    apply substring_0_app.
  - rewrite <- (Nat.add_0_r (String.length s1 + String.length s2)).
    rewrite <- Nat.add_assoc, substring_skip_app, substring_skip_app.
    apply substring_0_app.
  - rewrite <- (Nat.add_0_r (_ + _ + _)).
    rewrite <- !Nat.add_assoc, !substring_skip_app.
    rewrite <- (string_app_empty_r s4) at 2. apply substring_0_app.
Qed.

Lemma toString_nonneg v : 0 ≤ v → JS.toString v = pretty (Z.to_N v).
Proof. intros Hv. by destruct v as [|p|p]; [| |lia]. Qed.

Lemma radix_digit_range c d : JS.radix_digit 10 c = Some d → 0 ≤ d < 10.
Proof.
  intros Hd.
  assert (is_Some (JS.radix_digit 10 c)) as (n & Hn & ->)%digit10_char
    by (by exists d).
  rewrite digit_char_val in Hd by done. injection Hd as <-. lia.
Qed.

Lemma digits_value_nonneg s : ∀ acc, 0 ≤ acc → 0 ≤ JS.digits_value 10 acc s.
Proof.
  induction s as [|c s IH]; intros acc Hacc; simpl; [done|].
  destruct (JS.radix_digit 10 c) as [d|] eqn:Hd; [|done].
  apply IH. apply radix_digit_range in Hd. lia.
Qed.

(** The decimal text of the value of the digits [s] that follow the digits
    of a positive number [x]. *)
Lemma pretty_go_digits s : ∀ x : N,
  (0 < x)%N → JS.all_digits 10 s = true →
  pretty_N_go (Z.to_N (JS.digits_value 10 (Z.of_N x) s)) "" = pretty_N_go x "" +:+ s.
Proof.
  induction s as [|c s IH]; intros x Hx Hs.
  { simpl. by rewrite N2Z.id, string_app_empty_r. }
  simpl in Hs. apply andb_prop in Hs as [Hc Hs].
  apply bool_decide_eq_true_1, digit10_char in Hc as (d & Hd & ->).
  simpl. rewrite digit_char_val by done. cbn [option_rect].
  replace (Z.of_N x * 10 + Z.of_N d) with (Z.of_N (x * 10 + d)) by lia.
  rewrite IH by (done || lia).
  rewrite (pretty_N_go_step (x * 10 + d)) by lia.
  replace ((x * 10 + d) `div` 10)%N with x
    by (apply N.div_unique with d; lia).
  replace ((x * 10 + d) `mod` 10)%N with d
    by (apply N.mod_unique with x; lia).
  pose proof (pretty_go_app x "" (String (pretty_N_char d) "")) as Happ.
  change ("" +:+ String (pretty_N_char d) "")
    with (String (pretty_N_char d) "") in Happ.
  rewrite <- Happ. by rewrite string_app_assoc.
Qed.

(** A text of digits that does not start with a zero is the decimal text of
    its value. *)
Lemma toString_digits c s :
  JS.all_digits 10 (String c s) = true → c ≠ "0"%char →
  JS.toString (JS.digits_value 10 0 (String c s)) = String c s.
Proof.
  intros Hs Hc. pose proof Hs as Hs'. simpl in Hs'.
  apply andb_prop in Hs' as [Hd Hs'].
  apply bool_decide_eq_true_1, digit10_char in Hd as (d & Hd & ->).
  assert (0 < d)%N as Hd0.
  { destruct (decide (d = 0%N)) as [->|]; [done|lia]. }
  rewrite toString_nonneg by (by apply digits_value_nonneg).
  simpl. rewrite digit_char_val by done. cbn [option_rect].
  change (0 * 10 + Z.of_N d) with (Z.of_N d).
  pose proof (pretty_go_digits s d Hd0 Hs') as Hgo.
  assert (pretty_N_go d "" = String (pretty_N_char d) "") as Hone.
  { rewrite pretty_N_go_step by done.
    rewrite N.div_small, N.mod_small by done. by rewrite pretty_N_go_0. }
  rewrite Hone in Hgo. unfold pretty, pretty_N. case_decide as Hz; [|done].
  rewrite Hz, pretty_N_go_0 in Hgo. done.
Qed.

(** The decimal text of the value of a text of digits is no longer than the
    text, and of the same length only when it is the text itself. *)
Lemma toString_digits_length s :
  s ≠ "" → JS.all_digits 10 s = true →
  (String.length (JS.toString (JS.digits_value 10 0 s)) ≤ String.length s)%nat
  ∧ (String.length (JS.toString (JS.digits_value 10 0 s)) = String.length s →
     JS.toString (JS.digits_value 10 0 s) = s).
Proof.
  induction s as [|c s IH]; intros Hne Hs; [done|].
  destruct (decide (c = "0"%char)) as [->|Hc].
  - destruct s as [|c' s'] eqn:Es; [done|]. rewrite <- Es in *.
    assert (JS.digits_value 10 0 (String "0" s) = JS.digits_value 10 0 s) as ->
      by done.
    destruct IH as [Hle _]; [by rewrite Es|done|].
    cbn [String.length]. split; [lia|intros; lia].
  - by rewrite toString_digits.
Qed.

Lemma parseInt10_digits s :
  s ≠ "" → JS.all_digits 10 s = true →
  JS.parseInt10 s = Some (JS.digits_value 10 0 s).
Proof.
  intros Hne Hs. unfold JS.parseInt10. rewrite all_digits_trim_start by done.
  destruct s as [|c r]; [done|]. simpl in Hs.
  apply andb_prop in Hs as [Hc _].
  apply bool_decide_eq_true_1, digit10_char in Hc as (d & Hd & ->).
  destruct (digit_char_plain d) as (Hm & Hp & _).
  assert (JS.strip_sign (String (pretty_N_char d) r)
          = (1, String (pretty_N_char d) r)) as ->.
  { unfold JS.strip_sign. destruct (pretty_N_char d) as [[] [] [] [] [] [] [] []];
      try done. }
  simpl. rewrite digit_char_val by done. simpl. f_equal.
  change (0 * 10 + Z.of_N d) with (Z.of_N d). lia.
Qed.

Lemma octet_text_length n :
  0 ≤ n ≤ 255 → (1 ≤ String.length (JS.toString n) ≤ 3)%nat.
Proof.
  intros Hn.
  assert (Forall (λ n, (1 ≤ String.length (JS.toString n) ≤ 3)%nat) (seqZ 0 256))
    as Hall by (apply (bool_decide_unpack _); vm_compute; exact I).
  apply (proj1 (Forall_forall _ _) Hall). apply elem_of_seqZ. lia.
Qed.

Lemma elem_of_123 a : (1 ≤ a ≤ 3)%nat → a ∈ [1; 2; 3]%nat.
Proof.
  intros Ha. assert (a = 1 ∨ a = 2 ∨ a = 3)%nat as Hcases by lia.
  destruct Hcases as [Ha1|[Ha2|Ha3]]; subst a; repeat constructor.
Qed.

Lemma elem_of_lengths a b c d :
  (a, b, c, d) ∈ GenerateIP.lengths
  ↔ (1 ≤ a ≤ 3 ∧ 1 ≤ b ≤ 3 ∧ 1 ≤ c ≤ 3 ∧ 1 ≤ d ≤ 3)%nat.
Proof.
  split.
  - assert (Forall (λ t : nat * nat * nat * nat,
                      (1 ≤ t.1.1.1 ≤ 3 ∧ 1 ≤ t.1.1.2 ≤ 3
                       ∧ 1 ≤ t.1.2 ≤ 3 ∧ 1 ≤ t.2)%nat ∧ (t.2 ≤ 3)%nat)
                   GenerateIP.lengths)
      as Hall by (apply (bool_decide_unpack _); vm_compute; exact I).
    intros Hin. apply (proj1 (Forall_forall _ _) Hall) in Hin. simpl in Hin. lia.
  - intros (Ha & Hb & Hc & Hd). unfold GenerateIP.lengths.
    apply list_elem_of_bind. exists a. split; [|by apply elem_of_123].
    apply list_elem_of_bind. exists b. split; [|by apply elem_of_123].
    apply list_elem_of_bind. exists c. split; [|by apply elem_of_123].
    apply list_elem_of_bind. exists d. split; [|by apply elem_of_123].
    by apply list_elem_of_singleton.
Qed.

Lemma candidate_app data ret abcd :
  GenerateIP.candidate data ret abcd
  = (ret ++ GenerateIP.candidate data [] abcd)%list.
Proof.
  destruct abcd as [[[a b] c] d]. unfold GenerateIP.candidate.
  repeat case_match; by rewrite ?app_nil_r.
Qed.

Lemma reference_bind data :
  GenerateIP.reference data
  = GenerateIP.lengths ≫= GenerateIP.candidate data [].
Proof.
  unfold GenerateIP.reference.
  enough (∀ l acc, foldl (GenerateIP.candidate data) acc l
                   = (acc ++ (l ≫= GenerateIP.candidate data []))%list) as Hgen
    by apply (Hgen _ []).
  induction l as [|x l IH]; intros acc; [by rewrite app_nil_r|].
  cbn [foldl]. rewrite IH, bind_cons, (candidate_app data acc x).
  by rewrite <- app_assoc.
Qed.

(** What the loop body does with the pieces [s1], [s2], [s3], [s4]. *)
Lemma candidate_pieces (s1 s2 s3 s4 : string) :
  GenerateIP.candidate (s1 +:+ s2 +:+ s3 +:+ s4) []
    (String.length s1, String.length s2, String.length s3, String.length s4)
  = let A := JS.parseInt10 s1 in
    let B := JS.parseInt10 s2 in
    let C := JS.parseInt10 s3 in
    let D := JS.parseInt10 s4 in
    let ip := GenerateIP.text A +:+ "." +:+ GenerateIP.text B +:+ "."
              +:+ GenerateIP.text C +:+ "." +:+ GenerateIP.text D in
    if GenerateIP.octet A && GenerateIP.octet B && GenerateIP.octet C
       && GenerateIP.octet D
    then if bool_decide
              (String.length (GenerateIP.text A) + String.length (GenerateIP.text B)
               + String.length (GenerateIP.text C) + String.length (GenerateIP.text D)
               = String.length s1 + String.length s2 + String.length s3
                 + String.length s4)%nat
         then [ip] else []
    else [].
Proof.
  destruct (four_substrings s1 s2 s3 s4) as (E1 & E2 & E3 & E4).
  unfold GenerateIP.candidate.
  rewrite bool_decide_eq_true_2 by (rewrite !string_app_length; lia).
  rewrite E1, E2, E3, E4. cbn zeta.
  destruct (_ && _ && _ && _); [|done]. cbn [app].
  match goal with
  | |- (if bool_decide ?P then _ else _) = (if bool_decide ?Q then _ else _) =>
      rewrite (bool_decide_ext P Q); [done|]
  end.
  rewrite !string_app_length. simpl. lia.
Qed.

(** An address the loop body pushes. *)
Lemma candidate_inv data a b c d ip :
  JS.all_digits 10 data = true →
  (1 ≤ a ∧ 1 ≤ b ∧ 1 ≤ c ∧ 1 ≤ d)%nat →
  ip ∈ GenerateIP.candidate data [] (a, b, c, d) →
  ∃ n1 n2 n3 n4,
    (0 ≤ n1 ≤ 255 ∧ 0 ≤ n2 ≤ 255 ∧ 0 ≤ n3 ≤ 255 ∧ 0 ≤ n4 ≤ 255)
    ∧ data = JS.toString n1 +:+ JS.toString n2 +:+ JS.toString n3 +:+ JS.toString n4
    ∧ ip = JS.toString n1 +:+ "." +:+ JS.toString n2 +:+ "."
           +:+ JS.toString n3 +:+ "." +:+ JS.toString n4
    ∧ a = String.length (JS.toString n1) ∧ b = String.length (JS.toString n2)
    ∧ c = String.length (JS.toString n3) ∧ d = String.length (JS.toString n4).
Proof.
  intros Hdigits (Ha & Hb & Hc & Hd) Hin.
  destruct (decide (a + b + c + d = String.length data)%nat) as [Hlen|Hlen]; last first.
  { unfold GenerateIP.candidate in Hin.
    rewrite bool_decide_eq_false_2 in Hin by done. by apply elem_of_nil in Hin. }
  destruct (string_split_at a data) as (s1 & r1 & -> & <-); [lia|].
  rewrite string_app_length in Hlen.
  destruct (string_split_at b r1) as (s2 & r2 & -> & <-); [lia|].
  rewrite string_app_length in Hlen.
  destruct (string_split_at c r2) as (s3 & s4 & -> & <-); [lia|].
  rewrite string_app_length in Hlen.
  assert (d = String.length s4) as -> by lia.
  rewrite !all_digits_app in Hdigits.
  apply andb_prop in Hdigits as [H1 [H2 [H3 H4]%andb_prop]%andb_prop].
  assert (s1 ≠ "" ∧ s2 ≠ "" ∧ s3 ≠ "" ∧ s4 ≠ "") as (N1 & N2 & N3 & N4).
  { repeat split; intros ->; simpl in *; lia. }
  rewrite candidate_pieces in Hin. cbn zeta in Hin.
  rewrite !parseInt10_digits in Hin by done.
  set (v1 := JS.digits_value 10 0 s1) in *.
  set (v2 := JS.digits_value 10 0 s2) in *.
  set (v3 := JS.digits_value 10 0 s3) in *.
  set (v4 := JS.digits_value 10 0 s4) in *.
  cbn [GenerateIP.octet GenerateIP.text] in Hin.
  destruct (toString_digits_length s1 N1 H1) as [L1 E1].
  destruct (toString_digits_length s2 N2 H2) as [L2 E2].
  destruct (toString_digits_length s3 N3 H3) as [L3 E3].
  destruct (toString_digits_length s4 N4 H4) as [L4 E4].
  fold v1 in L1, E1. fold v2 in L2, E2. fold v3 in L3, E3. fold v4 in L4, E4.
  destruct ((v1 <=? 255) && (v2 <=? 255) && (v3 <=? 255) && (v4 <=? 255)) eqn:Hoct;
    [|by apply elem_of_nil in Hin].
  apply andb_prop in Hoct as [[[O1 O2]%andb_prop O3]%andb_prop O4].
  apply Z.leb_le in O1, O2, O3, O4.
  case_bool_decide as Htotal; [|by apply elem_of_nil in Hin].
  apply list_elem_of_singleton in Hin.
  specialize (E1 ltac:(lia)). specialize (E2 ltac:(lia)).
  specialize (E3 ltac:(lia)). specialize (E4 ltac:(lia)).
  exists v1, v2, v3, v4.
  pose proof (digits_value_nonneg s1 0 ltac:(lia)).
  pose proof (digits_value_nonneg s2 0 ltac:(lia)).
  pose proof (digits_value_nonneg s3 0 ltac:(lia)).
  pose proof (digits_value_nonneg s4 0 ltac:(lia)).
  split; [unfold v1, v2, v3, v4; lia|].
  subst ip. by rewrite E1, E2, E3, E4.
Qed.

(** The loop body pushes every address. *)
Lemma candidate_intro n1 n2 n3 n4 :
  0 ≤ n1 ≤ 255 → 0 ≤ n2 ≤ 255 → 0 ≤ n3 ≤ 255 → 0 ≤ n4 ≤ 255 →
  GenerateIP.candidate
    (JS.toString n1 +:+ JS.toString n2 +:+ JS.toString n3 +:+ JS.toString n4) []
    (String.length (JS.toString n1), String.length (JS.toString n2),
     String.length (JS.toString n3), String.length (JS.toString n4))
  = [JS.toString n1 +:+ "." +:+ JS.toString n2 +:+ "."
     +:+ JS.toString n3 +:+ "." +:+ JS.toString n4].
Proof.
  intros R1 R2 R3 R4. rewrite candidate_pieces. cbn zeta.
  rewrite !parseInt10_toString_exact. cbn [GenerateIP.octet GenerateIP.text].
  rewrite !(proj2 (Z.leb_le _ _)) by lia. cbn [andb].
  by rewrite bool_decide_eq_true_2.
Qed.

(** An address determines its four numbers. *)
Lemma address_head n n' (rest rest' : string) :
  JS.toString n +:+ "." +:+ rest = JS.toString n' +:+ "." +:+ rest' →
  n = n' ∧ rest = rest'.
Proof.
  intros Heq.
  assert (n = n') as <-.
  { assert (Some n = Some n') as [= ->]; [|done].
    rewrite <- (parseInt10_toString n ("." +:+ rest)),
            <- (parseInt10_toString n' ("." +:+ rest')) by (simpl; by intros [? [=]]).
    by rewrite Heq. }
  split; [done|]. induction (JS.toString n) as [|c s IH]; simpl in Heq.
  - by injection Heq.
  - injection Heq as Heq. by apply IH.
Qed.

Lemma reference_NoDup data :
  JS.all_digits 10 data = true → NoDup (GenerateIP.reference data).
Proof.
  intros Hdigits. rewrite reference_bind. apply NoDup_bind.
  - intros [[[a b] c] d] [[[a' b'] c'] d'] ip Hx Hx' Hin Hin'.
    apply elem_of_lengths in Hx, Hx'.
    apply candidate_inv in Hin as (n1 & n2 & n3 & n4 & _ & _ & -> & -> & -> & -> & ->);
      [|done|lia].
    apply candidate_inv in Hin'
      as (m1 & m2 & m3 & m4 & _ & _ & Hip & -> & -> & -> & ->); [|done|lia].
    apply address_head in Hip as [-> Hip].
    apply address_head in Hip as [-> Hip].
    apply address_head in Hip as [-> Hip]. by rewrite Hip.
  - intros [[[a b] c] d] _. unfold GenerateIP.candidate.
    repeat case_match; (apply NoDup_nil_2 || apply NoDup_singleton).
  - apply (bool_decide_unpack _). vm_compute. exact I.
Qed.

(** X25: for a text of digits, the array Generate IP Addresses compares the
    answer with contains, each exactly once, precisely the addresses
    [n1.n2.n3.n4] of four numbers from 0 to 255 whose decimal texts, one
    after the other, are the given text. *)
Theorem generate_ip_reference (data : string) :
  JS.all_digits 10 data = true →
  NoDup (GenerateIP.reference data)
  ∧ ∀ ip, ip ∈ GenerateIP.reference data
          ↔ ∃ n1 n2 n3 n4,
              (0 ≤ n1 ≤ 255 ∧ 0 ≤ n2 ≤ 255 ∧ 0 ≤ n3 ≤ 255 ∧ 0 ≤ n4 ≤ 255)
              ∧ data = JS.toString n1 +:+ JS.toString n2
                       +:+ JS.toString n3 +:+ JS.toString n4
              ∧ ip = JS.toString n1 +:+ "." +:+ JS.toString n2 +:+ "."
                     +:+ JS.toString n3 +:+ "." +:+ JS.toString n4.
Proof.
  intros Hdigits. split; [by apply reference_NoDup|].
  intros ip. rewrite reference_bind, list_elem_of_bind. split.
  - intros ([[[a b] c] d] & Hin & Hx). apply elem_of_lengths in Hx.
    apply candidate_inv in Hin
      as (n1 & n2 & n3 & n4 & Hr & Hd & Hip & _); [|done|lia].
    by exists n1, n2, n3, n4.
  - intros (n1 & n2 & n3 & n4 & (R1 & R2 & R3 & R4) & -> & ->).
    exists (String.length (JS.toString n1), String.length (JS.toString n2),
            String.length (JS.toString n3), String.length (JS.toString n4)).
    split; [rewrite candidate_intro by done; by apply list_elem_of_singleton|].
    apply elem_of_lengths.
    pose proof (octet_text_length n1 R1). pose proof (octet_text_length n2 R2).
    pose proof (octet_text_length n3 R3). pose proof (octet_text_length n4 R4).
    lia.
Qed.

Lemma generate_ip_reference_witness :
  NoDup (GenerateIP.reference "25525511135")
  ∧ ∀ ip, ip ∈ GenerateIP.reference "25525511135"
          ↔ ∃ n1 n2 n3 n4,
              (0 ≤ n1 ≤ 255 ∧ 0 ≤ n2 ≤ 255 ∧ 0 ≤ n3 ≤ 255 ∧ 0 ≤ n4 ≤ 255)
              ∧ "25525511135" = JS.toString n1 +:+ JS.toString n2
                                +:+ JS.toString n3 +:+ JS.toString n4
              ∧ ip = JS.toString n1 +:+ "." +:+ JS.toString n2 +:+ "."
                     +:+ JS.toString n3 +:+ "." +:+ JS.toString n4.
Proof. apply (generate_ip_reference "25525511135"). reflexivity. Defined.

(** X26: an answer without a repeated entry (the entries being the pieces
    between commas, white space and outer quotes removed) is accepted by
    Generate IP Addresses exactly when its entries are the addresses of the
    array in some order. *)
Theorem generate_ip_accepts_permutation (data ans : string) :
  NoDup (GenerateIP.unquote
           <$> JS.split "," (JS.remove_white (removeBracketsFromArrayString ans))) →
  GenerateIP.solver data ans = Ret true
  ↔ GenerateIP.unquote
      <$> JS.split "," (JS.remove_white (removeBracketsFromArrayString ans))
    ≡ₚ GenerateIP.reference data.
Proof.
  unfold GenerateIP.solver.
  set (entries := GenerateIP.unquote <$> _). intros Hnd. split.
  - case_bool_decide as Hlen; [done|]. intros [= Hall].
    apply submseteq_length_Permutation; [|lia].
    apply NoDup_submseteq; [done|]. intros ip Hin.
    rewrite forallb_forall in Hall.
    apply list_elem_of_In, Hall in Hin. by apply bool_decide_eq_true in Hin.
  - intros Hperm. rewrite bool_decide_eq_false_2
      by (intros Hne; apply Hne; by rewrite Hperm).
    f_equal. apply forallb_forall. intros ip Hin.
    apply bool_decide_eq_true_2. rewrite <- Hperm. by apply list_elem_of_In.
Qed.

Lemma generate_ip_accepts_permutation_witness :
  GenerateIP.solver "25525511135" "[255.255.111.35, 255.255.11.135]" = Ret true
  ↔ GenerateIP.unquote
      <$> JS.split "," (JS.remove_white (removeBracketsFromArrayString
                                           "[255.255.111.35, 255.255.11.135]"))
    ≡ₚ GenerateIP.reference "25525511135".
Proof.
  apply (generate_ip_accepts_permutation "25525511135"
           "[255.255.111.35, 255.255.11.135]").
  apply (bool_decide_unpack _). vm_compute. exact I.
Defined.

(** *** Spiralize Matrix *)

Lemma fmap_seq_ext {A} (f g : nat → A) n :
  (∀ i, (i < n)%nat → f i = g i) → f <$> seq 0 n = g <$> seq 0 n.
Proof.
  intros Hfg. apply list_eq. intros i. rewrite !list_lookup_fmap.
  destruct (decide (i < n)%nat) as [Hi|Hi].
  - rewrite lookup_seq_lt by done. simpl. f_equal. by apply Hfg.
  - by rewrite lookup_seq_ge by lia.
Qed.

Lemma reverse_fmap_seq {A} (f : nat → A) n :
  reverse (f <$> seq 0 n) = (λ i, f (n - 1 - i)%nat) <$> seq 0 n.
Proof.
  induction n as [|n IH]; [done|].
  rewrite seq_S at 1. rewrite fmap_app, reverse_app, IH.
  change (reverse (f <$> [(0 + n)%nat])) with [f n]. cbn [app].
  cbn [seq]. rewrite <- fmap_S_seq. rewrite fmap_cons. f_equal.
  - f_equal. lia.
  - rewrite <- list_fmap_compose. apply fmap_seq_ext. intros i Hi. simpl.
    f_equal. lia.
Qed.

Lemma tabulate_S h w g :
  tabulate (S h) w g = (g 0%nat <$> seq 0 w) :: tabulate h w (λ i, g (S i)).
Proof.
  unfold tabulate. cbn [seq fmap list_fmap]. f_equal.
  by rewrite <- fmap_S_seq, <- list_fmap_compose.
Qed.

Lemma tabulate_ext h w g g' :
  (∀ i j, (i < h)%nat → (j < w)%nat → g i j = g' i j) →
  tabulate h w g = tabulate h w g'.
Proof.
  intros Hg. unfold tabulate. apply fmap_seq_ext. intros i Hi.
  apply fmap_seq_ext. intros j Hj. by apply Hg.
Qed.

(** A quarter turn of a matrix given by its entries. *)
Lemma turn_tabulate h w g :
  (1 ≤ h)%nat →
  turn (tabulate h w g) = tabulate w h (λ i j, g j (w - 1 - i)%nat).
Proof.
  intros Hh. unfold turn.
  assert (length (tabulate h w g !!! 0%nat) = w) as ->.
  { destruct h as [|h]; [lia|]. rewrite tabulate_S. simpl.
    by rewrite length_fmap, length_seq. }
  rewrite <- (list_fmap_id (seq 0 w)) at 1. rewrite reverse_fmap_seq.
  unfold tabulate at 2. rewrite <- list_fmap_compose.
  apply fmap_seq_ext. intros i Hi. simpl.
  unfold tabulate. rewrite <- list_fmap_compose. apply fmap_seq_ext.
  intros j Hj. simpl. unfold id. apply list_lookup_total_correct.
  by rewrite list_lookup_fmap, lookup_seq_lt by lia.
Qed.

(** The spiral order of a matrix of one row, and of a matrix of more. *)
Lemma spiral_order_one F w g :
  spiral_order (S F) (tabulate 1 w g) = g 0%nat <$> seq 0 w.
Proof.
  rewrite tabulate_S. cbn [spiral_order].
  change (tabulate 0 w _) with (@nil (list Z)).
  change (turn []) with (@nil (list Z)).
  destruct F; simpl; by rewrite app_nil_r.
Qed.

Lemma spiral_order_peel F h w g :
  (1 ≤ h)%nat →
  spiral_order (S F) (tabulate (S h) w g)
  = ((g 0%nat <$> seq 0 w)
       ++ spiral_order F (tabulate w h (λ i j, g (S j) (w - 1 - i)%nat)))%list.
Proof.
  intros Hh. rewrite tabulate_S. cbn [spiral_order].
  by rewrite turn_tabulate.
Qed.

Lemma upto_seq a b :
  Spiralize.upto a b = (λ i, a + Z.of_nat i) <$> seq 0 (Z.to_nat (b - a + 1)).
Proof.
  unfold Spiralize.upto, seqZ. apply fmap_seq_ext. intros i _. lia.
Qed.

Lemma downto_seq a b :
  Spiralize.downto a b = (λ i, a - Z.of_nat i) <$> seq 0 (Z.to_nat (a - b + 1)).
Proof.
  unfold Spiralize.downto, seqZ. rewrite reverse_fmap_seq.
  apply fmap_seq_ext. intros i Hi. lia.
Qed.

Section spiral.
Import Spiralize.
Context (data : list (list Z)) (m n : nat).
Hypothesis Hm : length data = m.
Hypothesis Hn : Forall (λ row, length row = n) data.

Lemma entry_cell row col :
  0 ≤ row < Z.of_nat m → 0 ≤ col < Z.of_nat n →
  entry data row col = Ret (Some (cell data row col)).
Proof.
  intros Hrow Hcol. unfold entry, row_of, cell.
  destruct (Z.ltb_spec row 0); [lia|].
  destruct (lookup_lt_is_Some_2 data (Z.to_nat row)) as [line Hline]; [lia|].
  rewrite Hline. cbn [rbind]. destruct (Z.ltb_spec col 0); [lia|].
  rewrite (list_lookup_total_correct _ _ _ Hline).
  pose proof (Forall_lookup_1 _ _ _ _ Hn Hline) as Hlen. simpl in Hlen.
  destruct (lookup_lt_is_Some_2 line (Z.to_nat col)) as [x Hx]; [lia|].
  by rewrite Hx, (list_lookup_total_correct _ _ _ Hx).
Qed.

(** A sweep over [k] cells inside the matrix appends their entries. *)
Lemma sweep_seq k (f : nat → Z * Z) (v : nat → Z) cells : ∀ spiral,
  cells = f <$> seq 0 k →
  (∀ i, (i < k)%nat →
        0 ≤ (f i).1 < Z.of_nat m ∧ 0 ≤ (f i).2 < Z.of_nat n
        ∧ cell data (f i).1 (f i).2 = v i) →
  sweep data cells spiral = Ret (spiral ++ (Some <$> (v <$> seq 0 k)))%list.
Proof.
  revert f v cells. induction k as [|k IH]; intros f v cells spiral -> Hf.
  { simpl. by rewrite app_nil_r. }
  cbn [seq fmap list_fmap]. destruct (f 0%nat) as [row col] eqn:Ef.
  cbn [sweep]. destruct (Hf 0%nat ltac:(lia)) as (Hrow & Hcol & Hv).
  rewrite Ef in Hrow, Hcol, Hv. simpl in Hrow, Hcol, Hv.
  rewrite entry_cell by done. cbn [rbind].
  rewrite (IH (λ i, f (S i)) (λ i, v (S i))).
  - rewrite <- app_assoc. cbn [app]. rewrite Hv.
    rewrite <- fmap_S_seq, <- (list_fmap_compose S v). reflexivity.
  - by rewrite <- fmap_S_seq, <- list_fmap_compose.
  - intros i Hi. apply Hf. lia.
Qed.

Local Ltac cells_eq lem :=
  rewrite lem, <- list_fmap_compose;
  match goal with
  | |- _ <$> seq 0 ?k = _ <$> seq 0 ?k' => replace k with k' by lia
  end;
  apply fmap_seq_ext; intros; simpl; f_equal; lia.

Local Ltac cells_in :=
  let i := fresh "i" in
  let Hi := fresh "Hi" in
  intros i Hi; cbn [fst snd];
  split; [lia|]; split; [lia|]; unfold window; f_equal; lia.

(** The loop on the rows [u..d] and the columns [l..r] appends the spiral
    order of that part of the matrix. *)
Lemma loop_spec : ∀ fuel h w u d l r spiral F,
  (1 ≤ h)%nat → (1 ≤ w)%nat →
  0 ≤ u → d = u + Z.of_nat h - 1 → d < Z.of_nat m →
  0 ≤ l → r = l + Z.of_nat w - 1 → r < Z.of_nat n →
  (h ≤ fuel)%nat → (h + w ≤ F)%nat →
  loop fuel data u d l r spiral
  = Ret (spiral ++ (Some <$> spiral_order F (tabulate h w (window data u l))))%list.
Proof.
  induction fuel as [|fuel IH]; intros h w u d l r spiral F Hh Hw Hu Hd Hdm Hl Hr Hrn
    Hfuel HF; [lia|].
  cbn [loop].
  rewrite (sweep_seq w (λ i, (u, l + Z.of_nat i)) (window data u l 0%nat));
    [|cells_eq upto_seq|cells_in].
  cbn [rbind].
  destruct h as [|[|h]]; [lia| |].
  { (* one row *)
    destruct (Z.ltb_spec d (u + 1)); [|lia].
    destruct F as [|F]; [lia|]. by rewrite spiral_order_one. }
  destruct (Z.ltb_spec d (u + 1)); [lia|].
  destruct F as [|F]; [lia|]. rewrite spiral_order_peel by lia.
  set (g1 := λ i j : nat, window data u l (S j) (w - 1 - i)%nat).
  rewrite (sweep_seq (S h) (λ i, (u + 1 + Z.of_nat i, r)) (g1 0%nat));
    [|cells_eq upto_seq|unfold g1; cells_in].
  cbn [rbind].
  destruct w as [|[|w]]; [lia| |].
  { (* one column *)
    destruct (Z.ltb_spec (r - 1) l); [|lia].
    destruct F as [|F]; [lia|]. rewrite spiral_order_one.
    by rewrite fmap_app, app_assoc. }
  destruct (Z.ltb_spec (r - 1) l); [lia|].
  destruct F as [|F]; [simpl in HF; lia|]. rewrite spiral_order_peel by lia.
  set (g2 := λ i j : nat, g1 (S j) (S h - 1 - i)%nat).
  rewrite (sweep_seq (S w) (λ i, (d, r - 1 - Z.of_nat i)) (g2 0%nat));
    [|cells_eq downto_seq|unfold g2, g1; cells_in].
  cbn [rbind].
  destruct h as [|h].
  { (* two rows *)
    destruct (Z.ltb_spec (d - 1) (u + 1)); [|lia].
    destruct F as [|F]; [simpl in HF; lia|]. rewrite spiral_order_one.
    by rewrite !fmap_app, !app_assoc. }
  destruct (Z.ltb_spec (d - 1) (u + 1)); [lia|].
  destruct F as [|F]; [simpl in HF; lia|]. rewrite spiral_order_peel by lia.
  set (g3 := λ i j : nat, g2 (S j) (S w - 1 - i)%nat).
  rewrite (sweep_seq (S h) (λ i, (d - 1 - Z.of_nat i, l)) (g3 0%nat));
    [|cells_eq downto_seq|unfold g3, g2, g1; cells_in].
  cbn [rbind].
  destruct w as [|w].
  { (* two columns *)
    destruct (Z.ltb_spec (r - 1) (l + 1)); [|lia].
    destruct F as [|F]; [simpl in HF; lia|]. rewrite spiral_order_one.
    by rewrite !fmap_app, !app_assoc. }
  destruct (Z.ltb_spec (r - 1) (l + 1)); [lia|].
  destruct F as [|F]; [simpl in HF; lia|]. rewrite spiral_order_peel by lia.
  rewrite (IH (S h) (S w) (u + 1) (d - 1) (l + 1) (r - 1) _ F) by lia.
  rewrite !fmap_app, !app_assoc. do 4 f_equal.
  apply tabulate_ext. intros i j Hi Hj. unfold g3, g2, g1, window.
  f_equal; lia.
Qed.

Lemma tabulate_data : data = tabulate m n (window data 0 0).
Proof.
  unfold tabulate. apply list_eq. intros i. rewrite list_lookup_fmap.
  destruct (decide (i < m)%nat) as [Hi|Hi]; last first.
  { rewrite lookup_seq_ge by lia. by apply lookup_ge_None_2; lia. }
  rewrite lookup_seq_lt by done. simpl.
  destruct (lookup_lt_is_Some_2 data i) as [line Hline]; [lia|].
  rewrite Hline. f_equal.
  pose proof (Forall_lookup_1 _ _ _ _ Hn Hline) as Hlen. simpl in Hlen.
  apply list_eq. intros j. rewrite list_lookup_fmap.
  destruct (decide (j < n)%nat) as [Hj|Hj]; last first.
  { rewrite lookup_seq_ge by lia. by apply lookup_ge_None_2; lia. }
  rewrite lookup_seq_lt by done. simpl. unfold window, cell.
  rewrite !Z.add_0_l, !Nat2Z.id, (list_lookup_total_correct _ _ _ Hline).
  destruct (lookup_lt_is_Some_2 line j) as [x Hx]; [lia|].
  by rewrite Hx, (list_lookup_total_correct _ _ _ Hx).
Qed.

End spiral.

Lemma spiral_reference (data : list (list Z)) (m n F : nat) :
  length data = m → Forall (λ row, length row = n) data →
  (1 ≤ m)%nat → (1 ≤ n)%nat → (m + n ≤ F)%nat →
  Spiralize.reference data = Ret (Some <$> spiral_order F data).
Proof.
  intros Hm Hn Hm1 Hn1 HF.
  pose proof (loop_spec data m n Hm Hn (S m) m n 0 (Z.of_nat m - 1) 0
                (Z.of_nat n - 1) [] F) as Hloop.
  rewrite <- (tabulate_data data m n Hm Hn) in Hloop.
  unfold Spiralize.reference.
  destruct data as [|row0 rest]; [simpl in Hm; lia|].
  assert (length row0 = n) as -> by (by apply Forall_cons_1 in Hn as [? _]).
  rewrite Hm. apply Hloop; lia.
Qed.

Example spiral_order_3x3 :
  spiral_order 6 [[1; 2; 3]; [4; 5; 6]; [7; 8; 9]] = [1; 2; 3; 6; 9; 8; 7; 4; 5].
Proof. reflexivity. Qed.

Example spiral_order_3x4 :
  spiral_order 7 [[1; 2; 3; 4]; [5; 6; 7; 8]; [9; 10; 11; 12]]
  = [1; 2; 3; 4; 8; 12; 11; 10; 9; 5; 6; 7].
Proof. reflexivity. Qed.

Lemma same_elements_numbers (l : list Z) : ∀ p : list Arr.num,
  length (Some <$> l) = length p →
  Spiralize.same_elements (Some <$> l) p = bool_decide (p = Some <$> l).
Proof.
  induction l as [|x l IH]; intros [|y p] Hlen; try done.
  cbn [fmap list_fmap Spiralize.same_elements].
  rewrite IH by (simpl in Hlen; by injection Hlen).
  apply eq_true_iff_eq. rewrite andb_true_iff, !bool_decide_eq_true.
  destruct y as [y|]; simpl.
  - rewrite bool_decide_eq_true. split; [by intros [-> ->]|]. by intros [= -> ->].
  - split; [by intros [? _]|]. by intros [=].
Qed.

(** X27: for a matrix of [m >= 1] rows of [n >= 1] entries each, Spiralize
    Matrix accepts an answer exactly when its entries (split at commas,
    brackets and white space removed, read by parseInt) are the spiral
    order of the matrix: the first row, followed by the spiral order of
    the remaining rows after a quarter turn counter-clockwise. *)
Theorem spiralize_spiral_order (data : list (list Z)) (m n F : nat) :
  length data = m → Forall (λ row, length row = n) data →
  (1 ≤ m)%nat → (1 ≤ n)%nat → (m + n ≤ F)%nat →
  Spiralize.reference data = Ret (Some <$> spiral_order F data)
  ∧ ∀ ans, Spiralize.solver data ans
           = Ret (bool_decide
                    (JS.parseInt
                       <$> JS.split ","
                             (JS.remove_white (removeBracketsFromArrayString ans))
                     = Some <$> spiral_order F data)).
Proof.
  intros Hm Hn Hm1 Hn1 HF.
  pose proof (spiral_reference data m n F Hm Hn Hm1 Hn1 HF) as Href.
  split; [done|]. intros ans. unfold Spiralize.solver. rewrite Href.
  cbn [rbind]. case_bool_decide as Hlen.
  - rewrite bool_decide_eq_false_2; [done|]. intros Heq. by rewrite Heq in Hlen.
  - by rewrite same_elements_numbers.
Qed.

Lemma spiralize_spiral_order_witness :
  Spiralize.reference [[1; 2; 3]; [4; 5; 6]; [7; 8; 9]]
  = Ret (Some <$> spiral_order 6 [[1; 2; 3]; [4; 5; 6]; [7; 8; 9]])
  ∧ ∀ ans, Spiralize.solver [[1; 2; 3]; [4; 5; 6]; [7; 8; 9]] ans
           = Ret (bool_decide
                    (JS.parseInt
                       <$> JS.split ","
                             (JS.remove_white (removeBracketsFromArrayString ans))
                     = Some <$> spiral_order 6 [[1; 2; 3]; [4; 5; 6]; [7; 8; 9]])).
Proof.
  apply (spiralize_spiral_order [[1; 2; 3]; [4; 5; 6]; [7; 8; 9]] 3 3 6);
    [reflexivity|by repeat constructor|lia..].
Defined.

(** *** Find All Valid Math Expressions *)









Section math_spec.
Import MathExpressions.
Context (digits : string) (target : Z).
Hypothesis Hdigits : JS.all_digits 10 digits = true.






End math_spec.



(** X29: for a non-empty text of digits, an answer without a repeated entry
    (the entries being the non-empty pieces between commas, white space and
    outer quotes removed) is accepted by Find All Valid Math Expressions
    exactly when its entries are the expressions of the array in some
    order. *)
Theorem math_expressions_accepts_permutation (digits : string) (target : Z)
    (ans : string) (result : list string) :
  digits ≠ "" →
  MathExpressions.reference (digits, target) = Ret result →
  NoDup (MathExpressions.canonical ans) →
  MathExpressions.solver (digits, target) ans = Ret true
  ↔ MathExpressions.canonical ans ≡ₚ result.
Proof.
  intros Hne Href Hnd. unfold MathExpressions.solver. cbn [fst snd].
  rewrite bool_decide_eq_false_2 by (by destruct digits).
  rewrite Href. cbn [rbind]. split.
  - case_bool_decide as Hlen; [done|]. intros [= Hall].
    apply submseteq_length_Permutation; [|lia].
    apply NoDup_submseteq; [done|]. intros e Hin.
    rewrite forallb_forall in Hall.
    apply list_elem_of_In, Hall in Hin. by apply bool_decide_eq_true in Hin.
  - intros Hperm. rewrite bool_decide_eq_false_2
      by (intros Hlen; apply Hlen; by rewrite Hperm).
    f_equal. apply forallb_forall. intros e Hin.
    apply bool_decide_eq_true_2. rewrite <- Hperm. by apply list_elem_of_In.
Qed.

Lemma math_expressions_accepts_permutation_witness :
  MathExpressions.solver ("105", 5) "[10-5, 1*0+5]" = Ret true
  ↔ MathExpressions.canonical "[10-5, 1*0+5]" ≡ₚ ["1*0+5"; "10-5"].
Proof.
  apply (math_expressions_accepts_permutation "105" 5 "[10-5, 1*0+5]").
  - done.
  - vm_compute. reflexivity.
  - apply (bool_decide_unpack _). vm_compute. exact I.
Defined.
